(** * Civet source maps and the TypeScript language-service host

    A shallow embedding of [source/sourcemap.civet] (VLQ codec, location
    table, source-map builder, parser, composer and remapper) and of the
    virtual-file host of [lsp/source/lib/typescript-service.mts], with the
    properties of both that the specification states.

    Conventions of the embedding:
    - a JavaScript string is the list of its UTF-16 code units ([str]);
    - a JavaScript number that holds an integer is a [Z]; the 32-bit
      operators ([<<], [>>], [&], [|]) wrap through [JS.ToInt32]; the
      negative zero of JavaScript is the [0] of [Z];
    - a [while] loop whose termination depends on the data takes a [fuel]
      and returns [None] when the fuel is used up;
    - a thrown exception is the [Throw] of an [outcome]. *)

From Stdlib Require Import ZArith String Ascii Lia Bool Sorted.
From stdpp Require Import base option list gmap.

Local Open Scope Z_scope.

(** ** JavaScript numbers and strings *)

Module JS.

(** ToInt32 of ECMAScript, on integers. *)
Definition ToInt32 (x : Z) : Z := (x + 2 ^ 31) mod 2 ^ 32 - 2 ^ 31.

(** [a << b]: the shift count is taken modulo 32, the result wraps. *)
Definition shl (a b : Z) : Z := ToInt32 (Z.shiftl (ToInt32 a) (b mod 32)).

(** [a >> b]: sign-propagating right shift. *)
Definition sar (a b : Z) : Z := Z.shiftr (ToInt32 a) (b mod 32).

(** [a & b] and [a | b]. *)
Definition band (a b : Z) : Z := Z.land (ToInt32 a) (ToInt32 b).
Definition bor (a b : Z) : Z := Z.lor (ToInt32 a) (ToInt32 b).

End JS.

(** A UTF-16 code unit, and a string as the list of its code units. *)
Abbreviation char := Z (only parsing).
Abbreviation str := (list Z) (only parsing).

(** A string literal of the source, as code units. *)
Definition lit (s : string) : str :=
  map (fun a => Z.of_N (N_of_ascii a)) (list_ascii_of_string s).

(** [s[i]] used as a string: the one-character string, or ["undefined"]
    when [i] is out of range (what [answer += s[i]] appends). *)
Definition charAt (s : str) (i : Z) : str :=
  if i <? 0 then lit "undefined"
  else match s !! Z.to_nat i with
       | Some c => [c]
       | None => lit "undefined"
       end.

(** [!s] on a string: only the empty string is falsy. *)
Definition falsy (s : str) : bool :=
  match s with
  | [] => true
  | _ => false
  end.

(** ** Errors and results *)

Inductive Error :=
| UnexpectedEarlyEnd                      (* 'Unexpected early end of mapping data' *)
| InvalidMappingCharacter (c : char)      (* `Invalid mapping character: ...` *)
| UnknownSourceMapEntry (entry : list Z)  (* `Unknown source map entry ...` *)
| EnvelopeError                           (* Buffer.from / JSON.parse failed *)
| TypeError.                              (* a property read on undefined *)

Inductive outcome (A : Type) :=
| Ok (a : A)
| Throw (e : Error).
Arguments Ok {A} a.
Arguments Throw {A} e.

#[global] Instance outcome_ret : MRet outcome := fun A a => Ok a.
#[global] Instance outcome_bind : MBind outcome := fun A B k m =>
  match m with
  | Ok a => k a
  | Throw e => Throw e
  end.

Definition threw {A} (m : outcome A) : Prop := exists e, m = Throw e.

(** ** The VLQ codec *)

Definition VLQ_SHIFT : Z := 5.
Definition VLQ_CONTINUATION_BIT : Z := JS.shl 1 VLQ_SHIFT.
Definition VLQ_VALUE_MASK : Z := VLQ_CONTINUATION_BIT - 1.

Definition BASE64_CHARS : str :=
  lit "ABCDEFGHIJKLMNOPQRSTUVWXYZabcdefghijklmnopqrstuvwxyz0123456789+/".

(** The loop of [encodeVlq]: [while valueToEncode or !answer]. *)
Fixpoint encodeVlq_loop (fuel : nat) (valueToEncode : Z) (answer : str) : option str :=
  if (valueToEncode =? 0) && negb (falsy answer) then Some answer
  else
    match fuel with
    | O => None
    | S fuel' =>
        let nextChunk := JS.band valueToEncode VLQ_VALUE_MASK in
        let valueToEncode := JS.sar valueToEncode VLQ_SHIFT in
        let nextChunk :=
          if valueToEncode =? 0 then nextChunk
          else JS.bor nextChunk VLQ_CONTINUATION_BIT in
        encodeVlq_loop fuel' valueToEncode (answer ++ charAt BASE64_CHARS nextChunk)
    end.

Definition encodeVlq (fuel : nat) (value : Z) : option str :=
  let signBit := if value <? 0 then 1 else 0 in
  let valueToEncode := JS.shl (Z.abs value) 1 + signBit in
  encodeVlq_loop fuel valueToEncode [].

Definition vlqChars : str :=
  lit "ABCDEFGHIJKLMNOPQRSTUVWXYZabcdefghijklmnopqrstuvwxyz0123456789+/".

(** The lookup table: 128 entries of [0xFF], then entry [vlqChars[i]] set
    to [i]. *)
Definition vlqTable : list Z :=
  foldl (fun table ic => <[Z.to_nat ic.2 := Z.of_nat ic.1]> table)
        (replicate 128 255) (imap pair vlqChars).

(** [vlqTable[k]] for the masked [k = c & 0x7F], always inside the table. *)
Definition vlqTable_get (k : Z) : Z := default 255 (vlqTable !! Z.to_nat k).

(** [decodeVLQ]. The two nested loops of the source read one character per
    turn of the inner loop; [inGroup] tells the turns of the inner loop
    that follow a continuation bit (where running out of input is an
    error) from the head of the outer loop (where it ends the scan). *)
Fixpoint decodeVLQ_scan (mapping : str) (inGroup : bool) (shift vlq : Z)
    (result : list Z) : outcome (list Z) :=
  match mapping with
  | [] => if inGroup then Throw UnexpectedEarlyEnd else Ok result
  | c :: rest =>
      if negb (JS.band c 127 =? c) then Throw (InvalidMappingCharacter c)
      else
        let index := vlqTable_get (JS.band c 127) in
        if index =? 255 then Throw (InvalidMappingCharacter c)
        else
          let vlq := JS.bor vlq (JS.shl (JS.band index 31) shift) in
          let shift := shift + 5 in
          if JS.band index 32 =? 0 then
            let v := if negb (JS.band vlq 1 =? 0) then - JS.sar vlq 1
                     else JS.sar vlq 1 in
            decodeVLQ_scan rest false 0 0 (result ++ [v])
          else decodeVLQ_scan rest true shift vlq result
  end.

Definition decodeVLQ (mapping : str) : outcome (list Z) :=
  decodeVLQ_scan mapping false 0 0 [].

(** ** Splitting and joining strings *)

(** [s.split(sep)] for a one-character separator. *)
Fixpoint split (sep : char) (s : str) : list str :=
  match s with
  | [] => [[]]
  | c :: rest =>
      if c =? sep then [] :: split sep rest
      else match split sep rest with
           | piece :: pieces => (c :: piece) :: pieces
           | [] => [[c]]
           end
  end.

(** [pieces.join(sep)]. *)
Fixpoint join (sep : str) (pieces : list str) : str :=
  match pieces with
  | [] => []
  | [piece] => piece
  | piece :: rest => piece ++ sep ++ join sep rest
  end.

Definition CR : char := 13.
Definition LF : char := 10.

(** [s.split(EOL)], where [EOL] matches CR LF, LF, or CR. *)
Fixpoint splitEOL (s : str) : list str :=
  match s with
  | [] => [[]]
  | c :: rest =>
      if c =? CR then
        match rest with
        | c' :: rest' => if c' =? LF then [] :: splitEOL rest' else [] :: splitEOL rest
        | [] => [] :: splitEOL rest
        end
      else if c =? LF then [] :: splitEOL rest
      else match splitEOL rest with
           | piece :: pieces => (c :: piece) :: pieces
           | [] => [[c]]
           end
  end.

(** ** Entries, lines, and the location table *)

(** An entry is the array of its fields; its arity is its length. *)
Abbreviation SourceMapEntry := (list Z) (only parsing).
Abbreviation SourceMapLine := (list (list Z)) (only parsing).
Abbreviation SourceMapLines := (list (list (list Z))) (only parsing).

(** [entry[k]]. A read past the end is [undefined] in JavaScript; the
    embedding returns 0 there, which is what [encodeVlq] makes of it and is
    not reached on the arities that the code selects before it reads. *)
Definition field (entry : list Z) (k : nat) : Z := nth k entry 0.

Record SourceMapJSON := {
  version : Z;
  file : str;
  sources : list str;
  mappings : str;
  names : list str;
  sourcesContent : list str;
}.

(** [locationTable]: the sticky regular expression [linesRe] consumes, per
    turn, a run of characters other than CR and LF and then a terminator
    (CR LF, CR, LF, or the end of the input); [pos] is the offset after it,
    and the loop stops when [pos] is the length of the input. Here [pos]
    counts the characters consumed before [input]. *)
Fixpoint locationTable_from (input : str) (pos : Z) : list Z :=
  match input with
  | [] => [pos]
  | c :: rest =>
      if c =? CR then
        match rest with
        | c' :: rest' =>
            if c' =? LF then
              match rest' with
              | [] => [pos + 2]
              | _ => (pos + 2) :: locationTable_from rest' (pos + 2)
              end
            else (pos + 1) :: locationTable_from rest (pos + 1)
        | [] => [pos + 1]
        end
      else if c =? LF then
        match rest with
        | [] => [pos + 1]
        | _ => (pos + 1) :: locationTable_from rest (pos + 1)
        end
      else locationTable_from rest (pos + 1)
  end.

Definition locationTable (input : str) : list Z := locationTable_from input 0.

(** [lookupLineColumn]: [while table[l] <= pos]; the comparison with the
    [undefined] past the end of the table is false. *)
Fixpoint lookupLineColumn_from (table : list Z) (pos l prevEnd : Z) : Z * Z :=
  match table with
  | [] => (l, pos - prevEnd)
  | end_ :: rest =>
      if end_ <=? pos then lookupLineColumn_from rest pos (l + 1) end_
      else (l, pos - prevEnd)
  end.

Definition lookupLineColumn (table : list Z) (pos : Z) : Z * Z :=
  lookupLineColumn_from table pos 0 0.

(** ** The source-map builder *)

Record SourceMap := {
  source : str;
  lines : SourceMapLines;
  line : nat;
  colOffset : Z;      (* relative to previous entry *)
  srcLine : Z;
  srcColumn : Z;
  srcTable : list Z;
}.

(** The constructor [@(@source: string)]. *)
Definition newSourceMap (source : str) : SourceMap :=
  {| source := source; lines := [[]]; line := 0; colOffset := 0;
     srcLine := 0; srcColumn := 0; srcTable := locationTable source |}.

Definition with_lines (ls : SourceMapLines) (sm : SourceMap) : SourceMap :=
  {| source := source sm; lines := ls; line := line sm; colOffset := colOffset sm;
     srcLine := srcLine sm; srcColumn := srcColumn sm; srcTable := srcTable sm |}.

(** [a[i] = x] on an array: inside the array the element is replaced, at
    its end the array grows by one, beyond it JavaScript leaves holes, which
    the embedding fills with [hole]. The builder only writes at the end. *)
Definition arraySet {A} (hole : A) (a : list A) (i : nat) (x : A) : list A :=
  if (i <? length a)%nat then <[i := x]> a
  else a ++ replicate (i - length a) hole ++ [x].

(** [@lines[@line].push entry]; a [TypeError] when the line is missing. *)
Definition pushEntry (entry : list Z) (sm : SourceMap) : outcome SourceMap :=
  match lines sm !! line sm with
  | Some l => Ok (with_lines (<[line sm := l ++ [entry]]> (lines sm)) sm)
  | None => Throw TypeError
  end.

(** One turn of [for each line, i of outLines]. The locals [srcLine] and
    [srcCol] are read only when [inputPos] is given. *)
Definition updateSourceMap_step (outLine : str) (i : Z) (inputPos : option Z)
    (colOffset' : Z) (srcLine' srcCol' : Z) (sm : SourceMap)
    : outcome (SourceMap * Z) :=
  let '(sm, srcCol') :=
    if 0 <? i then
      ({| source := source sm;
          lines := arraySet [] (lines sm) (S (line sm)) [];
          line := S (line sm);
          colOffset := 0;
          srcLine := srcLine sm + 1;
          srcColumn := colOffset';
          srcTable := srcTable sm |}, colOffset')
    else (sm, srcCol') in
  let l := colOffset sm in
  let sm := {| source := source sm; lines := lines sm; line := line sm;
               colOffset := Z.of_nat (length outLine);
               srcLine := srcLine sm;
               srcColumn := srcColumn sm + Z.of_nat (length outLine);
               srcTable := srcTable sm |} in
  sm ← (match inputPos with
        | Some _ => pushEntry [l; 0; srcLine' + i; srcCol'] sm
        | None => if negb (l =? 0) then pushEntry [l] sm else Ok sm
        end);
  Ok (sm, srcCol').

Fixpoint updateSourceMap_loop (outLines : list str) (i : Z) (inputPos : option Z)
    (colOffset' : Z) (srcLine' srcCol' : Z) (sm : SourceMap) : outcome SourceMap :=
  match outLines with
  | [] => Ok sm
  | outLine :: rest =>
      '(sm, srcCol') ← updateSourceMap_step outLine i inputPos colOffset' srcLine' srcCol' sm;
      updateSourceMap_loop rest (i + 1) inputPos colOffset' srcLine' srcCol' sm
  end.

(** [updateSourceMap(outputStr, inputPos?, colOffset=0)]; the default of
    [colOffset] is the caller's to pass. *)
Definition updateSourceMap (outputStr : str) (inputPos : option Z) (colOffset' : Z)
    (sm : SourceMap) : outcome SourceMap :=
  let outLines := splitEOL outputStr in
  let '(srcLine', srcCol', sm) :=
    match inputPos with
    | Some pos =>
        let '(srcLine', srcCol') := lookupLineColumn (srcTable sm) pos in
        let srcCol' := srcCol' + colOffset' in
        (srcLine', srcCol',
         {| source := source sm; lines := lines sm; line := line sm;
            colOffset := colOffset sm; srcLine := srcLine'; srcColumn := srcCol';
            srcTable := srcTable sm |})
    | None => (0, 0, sm)
    end in
  updateSourceMap_loop outLines 0 inputPos colOffset' srcLine' srcCol' sm.

(** ** Rendering *)

(** The running [lastSourceLine], [lastSourceColumn] of [renderMappings]. *)
Definition RenderState : Type := Z * Z.

Definition renderEntry (fuel : nat) (st : RenderState) (entry : list Z)
    : option (str * RenderState) :=
  match entry with
  | [_; sourceFileIndex; srcLine'; srcCol'] =>
      let lineDelta := srcLine' - st.1 in
      let colDelta := srcCol' - st.2 in
      a ← encodeVlq fuel (field entry 0);
      b ← encodeVlq fuel sourceFileIndex;
      c ← encodeVlq fuel lineDelta;
      d ← encodeVlq fuel colDelta;
      Some (a ++ b ++ c ++ d, (srcLine', srcCol'))
  | _ =>
      a ← encodeVlq fuel (field entry 0);
      Some (a, st)
  end.

Fixpoint renderLine (fuel : nat) (st : RenderState) (l : list (list Z))
    : option (list str * RenderState) :=
  match l with
  | [] => Some ([], st)
  | entry :: rest =>
      '(s, st) ← renderEntry fuel st entry;
      '(ss, st) ← renderLine fuel st rest;
      Some (s :: ss, st)
  end.

Fixpoint renderLines (fuel : nat) (st : RenderState) (ls : SourceMapLines)
    : option (list str * RenderState) :=
  match ls with
  | [] => Some ([], st)
  | l :: rest =>
      '(ss, st) ← renderLine fuel st l;
      '(rs, st) ← renderLines fuel st rest;
      Some (join (lit ",") ss :: rs, st)
  end.

Definition renderMappings (fuel : nat) (sm : SourceMap) : option str :=
  '(rs, _) ← renderLines fuel (0, 0) (lines sm);
  Some (join (lit ";") rs).

(** ** Parsing *)

(** The [switch result.length] of [parseWithLines], on the running
    [sourceLine], [sourceColumn]. *)
Definition resolveEntry (st : Z * Z) (result : list Z) : outcome (list Z * (Z * Z)) :=
  match length result with
  | 1%nat => Ok (result, st)
  | 4%nat | 5%nat =>
      let sourceLine := st.1 + field result 2 in
      let sourceColumn := st.2 + field result 3 in
      Ok (<[3%nat := sourceColumn]> (<[2%nat := sourceLine]> result),
          (sourceLine, sourceColumn))
  | _ => Throw (UnknownSourceMapEntry result)
  end.

Fixpoint parseEntries (st : Z * Z) (entries : list str)
    : outcome (list (list Z) * (Z * Z)) :=
  match entries with
  | [] => Ok ([], st)
  | entry :: rest =>
      result ← decodeVLQ entry;
      '(e, st) ← resolveEntry st result;
      '(es, st) ← parseEntries st rest;
      Ok (e :: es, st)
  end.

Definition parseLine (st : Z * Z) (l : str) : outcome (list (list Z) * (Z * Z)) :=
  match l with
  | [] => Ok ([], st)
  | _ => parseEntries st (split 44 l)
  end.

Fixpoint parseLines (st : Z * Z) (ls : list str)
    : outcome (SourceMapLines * (Z * Z)) :=
  match ls with
  | [] => Ok ([], st)
  | l :: rest =>
      '(es, st) ← parseLine st l;
      '(rs, st) ← parseLines st rest;
      Ok (es :: rs, st)
  end.

(** The part of [parseWithLines] that follows the JSON envelope:
    [json.mappings.split(";").map ...]. *)
Definition parseMappings (mappings' : str) : outcome (SourceMapLines) :=
  '(ls, _) ← parseLines (0, 0) (split 59 mappings');
  Ok ls.

(** ** Reverse mapping and composition *)

(** The loop of [remapPosition], with its [break]. *)
Fixpoint remapPosition_scan (textLine : list (list Z)) (character p : Z)
    (lastMapping : option (list Z)) (lastMappingPosition : Z)
    : option (list Z) * Z :=
  match textLine with
  | [] => (lastMapping, lastMappingPosition)
  | mapping :: rest =>
      let p := p + field mapping 0 in
      let '(lastMapping, lastMappingPosition) :=
        if (length mapping =? 4)%nat then (Some mapping, p)
        else (lastMapping, lastMappingPosition) in
      if character <=? p then (lastMapping, lastMappingPosition)
      else remapPosition_scan rest character p lastMapping lastMappingPosition
  end.

Definition remapPosition (position : Z * Z) (sourcemapLines : SourceMapLines)
    : option (Z * Z) :=
  let '(line', character) := position in
  match (if line' <? 0 then None else sourcemapLines !! Z.to_nat line') with
  | None | Some [] => None
  | Some textLine =>
      let '(lastMapping, lastMappingPosition) :=
        remapPosition_scan textLine character 0 None 0 in
      if negb (character - lastMappingPosition =? 0) then None
      else match lastMapping with
           | Some m => Some (field m 2, field m 3)
           | None => None
           end
  end.

(** One entry of [composeLines]. An entry of fewer than four fields (and
    not one) destructures to an [undefined] source position, which
    [remapPosition] does not find; an entry of more than four is rebuilt
    with five. *)
Definition composeEntry (upstreamMapping : SourceMapLines) (entry : list Z)
    : list Z :=
  match entry with
  | [_] => entry
  | colDelta :: sourceFileIndex :: srcLine' :: srcCol' :: rest =>
      match remapPosition (srcLine', srcCol') upstreamMapping with
      | None => [field entry 0]
      | Some (upstreamLine, upstreamCol) =>
          match rest with
          | [] => [colDelta; sourceFileIndex; upstreamLine; upstreamCol]
          | _ => [colDelta; sourceFileIndex; upstreamLine; upstreamCol; field entry 4]
          end
      end
  | _ => [field entry 0]
  end.

Definition composeLines (upstreamMapping ls : SourceMapLines)
    : SourceMapLines :=
  map (map (composeEntry upstreamMapping)) ls.

(** ** The JSON envelope, the inline comment, and [remap] *)

(** The platform functions that the source calls: [Buffer] and [JSON]. *)
Class Platform := {
  (* Buffer.from(src).toString('base64') *)
  Buffer_toBase64 : str -> str;
  (* JSON.stringify of the source-map document *)
  JSON_stringify : SourceMapJSON -> str;
  (* JSON.parse Buffer.from(text, "base64").toString("utf8"), which throws
     on text that is not JSON *)
  JSON_parse_base64 : str -> outcome SourceMapJSON;
}.

Section Envelope.
Context `{Platform}.




Definition parseWithLines (base64encodedJSONstr : str)
    : outcome (SourceMapJSON * SourceMapLines) :=
  j ← JSON_parse_base64 base64encodedJSONstr;
  ls ← parseMappings (mappings j);
  Ok (j, ls).

End Envelope.

(** [smRegexp]: a line terminator (CR LF, LF or CR), the literal
    [//# sourceMappingURL=data:application/json;], an optional
    [charset=...;], the literal [base64,], the payload (letters, digits,
    [+] and [/], then at most two [=]), white space, and the end of the
    input. Every repetition in it is followed by a character outside its
    class, so the match at a position, when there is one, is the greedy one. *)

Fixpoint stripPrefix (prefix s : str) : option str :=
  match prefix, s with
  | [], _ => Some s
  | p :: prefix', c :: s' => if p =? c then stripPrefix prefix' s' else None
  | _ :: _, [] => None
  end.

Fixpoint span (P : char -> bool) (s : str) : str * str :=
  match s with
  | [] => ([], [])
  | c :: rest =>
      if P c then let '(a, b) := span P rest in (c :: a, b)
      else ([], s)
  end.

(** The class [[+a-zA-Z0-9/]]. *)
Definition isPayloadChar (c : char) : bool :=
  (c =? 43) || ((97 <=? c) && (c <=? 122)) || ((65 <=? c) && (c <=? 90))
  || ((48 <=? c) && (c <=? 57)) || (c =? 47).

(** The class [\s] of ECMAScript. *)
Definition isSpace (c : char) : bool :=
  ((9 <=? c) && (c <=? 13)) || (c =? 32) || (c =? 160) || (c =? 5760)
  || ((8192 <=? c) && (c <=? 8202)) || (c =? 8232) || (c =? 8233)
  || (c =? 8239) || (c =? 8287) || (c =? 12288) || (c =? 65279).

(** The match of [smRegexp] that starts at the head of [s]: its group 1. *)
Definition smRegexp_at (s : str) : option str :=
  s ← match s with
      | c :: rest =>
          if c =? CR then
            match rest with
            | c' :: rest' => if c' =? LF then Some rest' else Some rest
            | [] => Some rest
            end
          else if c =? LF then Some rest
          else None
      | [] => None
      end;
  s ← stripPrefix (lit "//# sourceMappingURL=data:application/json;") s;
  s ← match stripPrefix (lit "charset=") s with
      | Some t =>
          match (span (fun c => negb (c =? 59)) t).2 with
          | _ :: t' => Some t'
          | [] => None
          end
      | None => Some s
      end;
  s ← stripPrefix (lit "base64,") s;
  let '(payload, s) := span isPayloadChar s in
  let '(pad, s) :=
    match s with
    | 61 :: 61 :: s' => ([61; 61], s')
    | 61 :: s' => ([61], s')
    | _ => ([], s)
    end in
  if forallb isSpace s then Some (payload ++ pad) else None.

(** The leftmost match: its index and its group 1. *)
Fixpoint smRegexp_exec_from (s : str) (index : nat) : option (nat * str) :=
  match smRegexp_at s with
  | Some sm => Some (index, sm)
  | None =>
      match s with
      | [] => None
      | _ :: rest => smRegexp_exec_from rest (S index)
      end
  end.

Definition smRegexp_exec (s : str) : option (nat * str) := smRegexp_exec_from s 0.

Section Remap.
Context `{Platform}.


End Remap.

(** The document that holds nothing but [text] as its mappings, and a
    platform whose base64 and JSON are the identity on the mappings. *)
Definition mappingsDocument (text : str) : SourceMapJSON :=
  {| version := 3; file := []; sources := []; mappings := text;
     names := []; sourcesContent := [] |}.

Definition demoPlatform : Platform :=
  {| Buffer_toBase64 := fun s => s;
     JSON_stringify := fun j => mappings j;
     JSON_parse_base64 := fun text => Ok (mappingsDocument text) |}.

(** ** Snapshots *)

Record TextSpan := { start : Z; spanLength : Z }.
Record TextChangeRange := { textSpan : TextSpan; newLength : Z }.

(** [s[i]] in a comparison: [None] is the [undefined] past the end. *)
Definition sameChar (a b : option Z) : bool := bool_decide (a = b).

(** The inner loop of [fullDiffTextChangeRange], [remaining] turns from
    [i] on. *)
Fixpoint fullDiff_suffix (oldText newText : str) (remaining i : nat) (end_ : Z) : Z :=
  match remaining with
  | O => end_
  | S remaining' =>
      if negb (sameChar (oldText !! (length oldText - i - 1)%nat)
                        (newText !! (length newText - i - 1)%nat))
      then end_
      else fullDiff_suffix oldText newText remaining' (S i) (end_ - 1)
  end.

(** The outer loop, [remaining] turns from [start'] on. *)
Fixpoint fullDiff_prefix (oldText newText : str) (minLength remaining start' : nat)
    : option TextChangeRange :=
  match remaining with
  | O => None
  | S remaining' =>
      if negb (sameChar (oldText !! start') (newText !! start')) then
        let end_ := Z.of_nat (length oldText) in
        let stop := (minLength - start')%nat in
        let end_ := fullDiff_suffix oldText newText stop 0 end_ in
        let length' := end_ - Z.of_nat start' in
        let newLength' :=
          length' + (Z.of_nat (length newText) - Z.of_nat (length oldText)) in
        let '(length', newLength') :=
          if newLength' <? 0 then (length' - newLength', 0)
          else (length', newLength') in
        Some {| textSpan := {| start := Z.of_nat start'; spanLength := length' |};
                newLength := newLength' |}
      else fullDiff_prefix oldText newText minLength remaining' (S start')
  end.

Definition fullDiffTextChangeRange (oldText newText : str) : option TextChangeRange :=
  let minLength := Nat.min (length oldText) (length newText) in
  fullDiff_prefix oldText newText minLength minLength 0.

(** A snapshot object: its identity, its text, and its memo of change
    ranges, keyed by the identity of the old snapshot. *)
Record IScriptSnapshot := {
  snapId : nat;
  snapText : str;
  changeRanges : gmap nat (option TextChangeRange);
}.

(** [Snap(newText)], with the identity of the new object. *)
Definition Snap (id : nat) (newText : str) : IScriptSnapshot :=
  {| snapId := id; snapText := newText; changeRanges := ∅ |}.

(** [s.slice(start, end)]. *)
Definition slice (s : str) (start' end_ : Z) : str :=
  let len := Z.of_nat (length s) in
  let from := if start' <? 0 then Z.max (len + start') 0 else Z.min start' len in
  let to := if end_ <? 0 then Z.max (len + end_) 0 else Z.min end_ len in
  take (Z.to_nat (to - from)) (drop (Z.to_nat from) s).

Definition getText (snap : IScriptSnapshot) (start' end_ : Z) : str :=
  slice (snapText snap) start' end_.

Definition getLength (snap : IScriptSnapshot) : Z := Z.of_nat (length (snapText snap)).

(** [getChangeRange(oldSnapshot)]: the range, and the snapshot with its
    memo filled in. *)
Definition getChangeRange (snap oldSnapshot : IScriptSnapshot)
    : option TextChangeRange * IScriptSnapshot :=
  let memo :=
    match changeRanges snap !! snapId oldSnapshot with
    | Some _ => changeRanges snap
    | None =>
        let memo := <[snapId oldSnapshot := None]> (changeRanges snap) in
        let oldText := getText oldSnapshot 0 (getLength oldSnapshot) in
        match fullDiffTextChangeRange oldText (snapText snap) with
        | Some changeRange => <[snapId oldSnapshot := Some changeRange]> memo
        | None => memo
        end
    end in
  (mjoin (memo !! snapId oldSnapshot),
   {| snapId := snapId snap; snapText := snapText snap; changeRanges := memo |}).

(** The longest common prefix and suffix of two texts, as the
    specification words them. *)
Fixpoint commonPrefixLength (a b : str) : nat :=
  match a, b with
  | x :: a', y :: b' => if x =? y then S (commonPrefixLength a' b') else 0
  | _, _ => 0
  end.

Definition commonSuffixLength (a b : str) : nat :=
  commonPrefixLength (reverse a) (reverse b).

(** ** The virtual-file host *)

(** The extension of a path. The three regular expressions of the source
    ([lastExtension], [lastTwoExtensions] and the one of [removeExtension])
    are anchored at the end of the path and read runs of characters other
    than [.] and [/], so each is decided from the last such run. *)

Definition isExtChar (c : char) : bool := negb (c =? 46) && negb (c =? 47).

(** The path without its last run of extension characters, and that run. *)
Definition splitLastRun (path : str) : str * str :=
  let '(run, front) := span isExtChar (reverse path) in
  (reverse front, reverse run).

(** [path.match(lastExtension)[0]]: the extension including the dot. *)
Definition getExtensionFromPath (path : str) : str :=
  let '(front, run) := splitLastRun path in
  match run, last front with
  | _ :: _, Some 46 => 46 :: run
  | _, _ => []
  end.

(** [path.match(lastTwoExtensions)]: the last two extensions. *)
Definition getTranspiledExtensionsFromPath (path : str) : option (str * str) :=
  let '(front, run2) := splitLastRun path in
  match last front with
  | Some 46 =>
      let '(front', run1) := splitLastRun (removelast front) in
      match last front' with
      | Some 46 => Some (46 :: run1, 46 :: run2)
      | _ => None
      end
  | _ => None
  end.

(** Removes the last extension from a path. *)
Definition removeExtension (path : str) : str :=
  let '(front, run) := splitLastRun path in
  match run, last front with
  | _ :: _, Some 46 => removelast front
  | _, _ => path
  end.

Module TypescriptService.

(** A [TextDocument] of [vscode-languageserver-textdocument]. *)
Record TextDocument := {
  uri : str;
  languageId : str;
  version : Z;
  text : str;
}.

(** [TextDocument.create(uri, languageId, version, content)]. *)
Definition TextDocument_create (uri' languageId' : str) (version' : Z) (content : str)
    : TextDocument :=
  {| uri := uri'; languageId := languageId'; version := version'; text := content |}.

(** [TextDocument.update(document, [{ text }], version)]: a change without
    a range replaces the whole text. *)
Definition TextDocument_update (document : TextDocument) (text' : str) (version' : Z)
    : TextDocument :=
  {| uri := uri document; languageId := languageId document;
     version := version'; text := text' |}.

(** A reference to a [TextDocument] object. *)
Abbreviation docRef := nat (only parsing).

Section Host.

(** The values that [compile] throws and reports. *)
Context {Exn : Type}.

(** [interface SourceMap { lines; data }]; [data.lines] is where older
    compilers keep the lines. *)
Record CompiledSourceMap := {
  mapLines : option (SourceMapLines);
  mapDataLines : option (SourceMapLines);
}.

Record CompileResult := {
  code : str;
  sourceMap : option CompiledSourceMap;
  errors : option (list Exn);
}.

(** A call of [compile] throws, or returns a result or [undefined]. *)
Inductive CompileOutcome :=
| Threw (e : Exn)
| Returned (result : option CompileResult).

Record Transpiler := {
  extension : str;
  target : str;
  compile : str -> str -> CompileOutcome;
}.

Record FileMeta := {
  sourcemapLines : option (SourceMapLines);
  transpiledDoc : option docRef;
  parseErrors : option (list Exn);
  fatal : bool;
}.

(** What the host takes from [url], [path] and [ts.sys]. *)
Class System := {
  fileURLToPath : str -> str;
  pathToFileURL : str -> str;
  path_join : str -> str;
  sys_fileExists : str -> bool;
  sys_readFile : str -> option str;
}.

Context `{System}.

(** The transpilers that [TSHost] is given. *)
Variable transpilers : gmap (list Z) Transpiler.

(** The state of the host, with the [TextDocument] objects that it and
    the editor hold ([documents]; a reference is an index) and the
    count of the snapshot objects made so far. *)
Record Host := {
  scriptFileNames : gset (list Z);
  fileMetaData : gmap (list Z) FileMeta;
  pathMap : gmap (list Z) docRef;
  snapshotMap : gmap (list Z) IScriptSnapshot;
  projectVersion : Z;
  documents : list TextDocument;
  snapshotCount : nat;
}.

Definition set_scriptFileNames (f : gset (list Z) -> gset (list Z)) (h : Host) : Host :=
  {| scriptFileNames := f (scriptFileNames h); fileMetaData := fileMetaData h;
     pathMap := pathMap h; snapshotMap := snapshotMap h;
     projectVersion := projectVersion h; documents := documents h;
     snapshotCount := snapshotCount h |}.

Definition set_fileMetaData (f : gmap (list Z) FileMeta -> gmap (list Z) FileMeta)
    (h : Host) : Host :=
  {| scriptFileNames := scriptFileNames h; fileMetaData := f (fileMetaData h);
     pathMap := pathMap h; snapshotMap := snapshotMap h;
     projectVersion := projectVersion h; documents := documents h;
     snapshotCount := snapshotCount h |}.

Definition set_pathMap (f : gmap (list Z) docRef -> gmap (list Z) docRef)
    (h : Host) : Host :=
  {| scriptFileNames := scriptFileNames h; fileMetaData := fileMetaData h;
     pathMap := f (pathMap h); snapshotMap := snapshotMap h;
     projectVersion := projectVersion h; documents := documents h;
     snapshotCount := snapshotCount h |}.

Definition set_snapshotMap
    (f : gmap (list Z) IScriptSnapshot -> gmap (list Z) IScriptSnapshot)
    (h : Host) : Host :=
  {| scriptFileNames := scriptFileNames h; fileMetaData := fileMetaData h;
     pathMap := pathMap h; snapshotMap := f (snapshotMap h);
     projectVersion := projectVersion h; documents := documents h;
     snapshotCount := snapshotCount h |}.

Definition set_documents (f : list TextDocument -> list TextDocument)
    (h : Host) : Host :=
  {| scriptFileNames := scriptFileNames h; fileMetaData := fileMetaData h;
     pathMap := pathMap h; snapshotMap := snapshotMap h;
     projectVersion := projectVersion h; documents := f (documents h);
     snapshotCount := snapshotCount h |}.

(** [Snap(text)] in the host: a new snapshot object. *)
Definition newSnap (text' : str) (h : Host) : IScriptSnapshot * Host :=
  (Snap (snapshotCount h) text',
   {| scriptFileNames := scriptFileNames h; fileMetaData := fileMetaData h;
      pathMap := pathMap h; snapshotMap := snapshotMap h;
      projectVersion := projectVersion h; documents := documents h;
      snapshotCount := S (snapshotCount h) |}).

(** Normalize slashes based on the OS. *)
Definition getCanonicalFileName (fileName : str) : str := path_join fileName.

(** The state that [TSHost] starts from, over the [TextDocument] objects
    that exist. *)
Definition TSHost (initialFileNames : list (list Z)) (docs : list TextDocument) : Host :=
  {| scriptFileNames := list_to_set (getCanonicalFileName <$> initialFileNames);
     fileMetaData := ∅; pathMap := ∅; snapshotMap := ∅;
     projectVersion := 0; documents := docs; snapshotCount := 0 |}.

Definition initTranspiledDoc (path : str) (h : Host) : docRef * Host :=
  let uri' := pathToFileURL path in
  let transpiledDoc' := TextDocument_create uri' (lit "none") (-1) [] in
  let ref := length (documents h) in
  let h := set_documents (fun ds => ds ++ [transpiledDoc']) h in
  let h := set_pathMap <[path := ref]> h in
  let h := set_scriptFileNames (fun names' => {[path]} ∪ names') h in
  (ref, h).

(** [addOrUpdateDocument(doc)]; [None] only when [doc] is not a
    document object. *)
Definition addOrUpdateDocument (doc : docRef) (h : Host) : option Host :=
  d ← documents h !! doc;
  let path := fileURLToPath (uri d) in
  let h := set_snapshotMap (delete path) h in
  let h := {| scriptFileNames := scriptFileNames h; fileMetaData := fileMetaData h;
              pathMap := pathMap h; snapshotMap := snapshotMap h;
              projectVersion := projectVersion h + 1; documents := documents h;
              snapshotCount := snapshotCount h |} in
  let extension' := getExtensionFromPath path in
  match transpilers !! extension' with
  | Some transpiler =>
      let transpiledPath := path ++ target transpiler in
      let h := match pathMap h !! transpiledPath with
               | Some _ => h
               | None => (initTranspiledDoc transpiledPath h).2
               end in
      let h := set_snapshotMap (delete transpiledPath) h in
      Some (set_pathMap <[path := doc]> h)
  | None =>
      let h := if bool_decide (path ∈ scriptFileNames h) then h
               else set_scriptFileNames (fun names' => {[path]} ∪ names') h in
      let h := match pathMap h !! path with
               | Some _ => h
               | None => set_pathMap <[path := doc]> h
               end in
      Some h
  end.

(** Get the source code for a path: the document if it exists,
    otherwise the file system. *)
Definition getPathSource (path : str) (h : Host) : option str :=
  match pathMap h !! path with
  | Some ref => d ← documents h !! ref; Some (text d)
  | None =>
      if sys_fileExists path then Some (default [] (sys_readFile path))
      else Some []
  end.

Definition getTranspiledPath (path : str) : str :=
  match transpilers !! getExtensionFromPath path with
  | Some transpiler => path ++ target transpiler
  | None => path
  end.

Definition createOrUpdateMeta (path : str) (transpiledDoc' : docRef)
    (sourcemapLines' : option (SourceMapLines))
    (parseErrors' : option (list Exn)) (fatal' : bool) (h : Host) : Host :=
  match fileMetaData h !! path with
  | None =>
      set_fileMetaData
        <[path := {| sourcemapLines := sourcemapLines';
                     transpiledDoc := Some transpiledDoc';
                     parseErrors := parseErrors'; fatal := fatal' |}]> h
  | Some meta =>
      set_fileMetaData
        <[path := {| sourcemapLines := sourcemapLines';
                     transpiledDoc := transpiledDoc meta;
                     parseErrors := parseErrors'; fatal := fatal' |}]> h
  end.

(** [doTranspileAndUpdateMeta]: the transpiled code, or [undefined]. *)
Definition doTranspileAndUpdateMeta (transpiledDoc' : docRef) (version' : Z)
    (transpiler : Transpiler) (sourcePath sourceCode : str) (h : Host)
    : option (option str * Host) :=
  match compile transpiler sourcePath sourceCode with
  | Threw e =>
      Some (None, createOrUpdateMeta sourcePath transpiledDoc' None (Some [e]) true h)
  | Returned (Some result) =>
      let transpiledCode := code result in
      let sourceMapLines :=
        match sourceMap result with
        | Some m =>
            match mapLines m with
            | Some ls => Some ls
            | None => mapDataLines m
            end
        | None => None
        end in
      let h := createOrUpdateMeta sourcePath transpiledDoc' sourceMapLines
                 (errors result) false h in
      d ← documents h !! transpiledDoc';
      let h := set_documents
                 <[transpiledDoc' := TextDocument_update d transpiledCode version']> h in
      Some (Some transpiledCode, h)
  | Returned None => Some (None, h)
  end.

(** [getOrCreatePathSnapshot(path)]; [None] only when the state holds a
    reference that is not a document object. *)
Definition getOrCreatePathSnapshot (path : str) (h : Host)
    : option (IScriptSnapshot * Host) :=
  match snapshotMap h !! path with
  | Some snapshot => Some (snapshot, h)
  | None =>
      let regular :=
        source' ← getPathSource path h;
        let '(snapshot, h) := newSnap source' h in
        Some (snapshot, set_snapshotMap <[path := snapshot]> h) in
      match getTranspiledExtensionsFromPath path with
      | Some (ext, _) =>
          match transpilers !! ext with
          | Some transpiler =>
              (* this is a possibly transpiled file *)
              let sourcePath := removeExtension path in
              let sourceDoc := pathMap h !! sourcePath in
              let '(transpiledDoc', h) :=
                match pathMap h !! path with
                | Some ref => (ref, h)
                | None => initTranspiledDoc path h
                end in
              '(source', sourceDocVersion) ←
                match sourceDoc with
                | None => Some (sys_readFile sourcePath, 0)
                | Some ref => d ← documents h !! ref; Some (Some (text d), version d)
                end;
              t ← documents h !! transpiledDoc';
              '(snapshot, h) ←
                match source' with
                | Some (c :: src) =>
                    if version t <? sourceDocVersion then
                      '(transpiledCode, h) ←
                        doTranspileAndUpdateMeta transpiledDoc' sourceDocVersion
                          transpiler sourcePath (c :: src) h;
                      match transpiledCode with
                      | Some transpiledCode' =>
                          let '(snapshot, h) := newSnap transpiledCode' h in
                          Some (Some snapshot, h)
                      | None => Some (None, h)
                      end
                    else Some (None, h)
                | _ => Some (None, h)
                end;
              '(snapshot, h) ←
                match snapshot with
                | Some snapshot => Some (snapshot, h)
                | None =>
                    (* Use the old version if there was an error *)
                    t ← documents h !! transpiledDoc';
                    Some (newSnap (text t) h)
                end;
              Some (snapshot, set_snapshotMap <[path := snapshot]> h)
          | None => regular
          end
      | None => regular
      end
  end.

Definition getMeta (path : str) (h : Host) : option (option FileMeta * Host) :=
  let transpiledPath := getTranspiledPath path in
  (* This ensures that the transpiled meta data is created *)
  '(_, h) ← getOrCreatePathSnapshot transpiledPath h;
  Some (fileMetaData h !! path, h).

Definition getProjectVersion (h : Host) : Z := projectVersion h.

Definition getScriptSnapshot (path : str) (h : Host)
    : option (IScriptSnapshot * Host) :=
  let path := getCanonicalFileName path in
  getOrCreatePathSnapshot path h.

(** The version as a number; the source prints it, and prints ["0"] for
    a path without a document. *)
Definition getScriptVersion (path : str) (h : Host) : option Z :=
  let path := getCanonicalFileName path in
  match pathMap h !! path with
  | Some ref => d ← documents h !! ref; Some (version d)
  | None => Some 0
  end.

(** The mirror document that a call for [path] reads: the registered
    one, or the placeholder that the call creates. *)
Definition mirrorDocument (path : str) (h : Host) : option TextDocument :=
  match pathMap h !! path with
  | Some ref => documents h !! ref
  | None => Some (TextDocument_create (pathToFileURL path) (lit "none") (-1) [])
  end.

(** The source text and version that a call for the mirror of
    [sourcePath] reads. *)
Definition sourceOf (sourcePath : str) (h : Host) : option (option str * Z) :=
  match pathMap h !! sourcePath with
  | None => Some (sys_readFile sourcePath, 0)
  | Some ref => d ← documents h !! ref; Some (Some (text d), version d)
  end.

End Host.

End TypescriptService.

Import TypescriptService.

(** ** Vocabulary for the properties of the codec *)

(** The range of a 32-bit signed integer. *)
Definition int32 (x : Z) : Prop := - 2 ^ 31 <= x < 2 ^ 31.

(** The sign folded into the least significant bit, and back. *)
Definition zigzag (v : Z) : Z := 2 * Z.abs v + (if v <? 0 then 1 else 0).
Definition unzigzag (w : Z) : Z := if w mod 2 =? 0 then w / 2 else - (w / 2).

(** The character of a base64 digit. *)
Definition base64Code (d : Z) : char := nth (Z.to_nat d) BASE64_CHARS 0.

(** The base-32 digits of [w], least significant first, each but the last
    with the continuation bit; [n] bounds their number. *)
Fixpoint vlqDigits (n : nat) (w : Z) : list Z :=
  match n with
  | O => []
  | S n' => if w / 32 =? 0 then [w mod 32]
            else (w mod 32 + 32) :: vlqDigits n' (w / 32)
  end.

(** The string that the encoder is shown to return. *)
Definition vlqString (v : Z) : str := map base64Code (vlqDigits 7 (zigzag v)).

(** What the two tables say of one digit, as a test that runs. *)
Definition digit_ok (d : Z) : bool :=
  bool_decide (charAt BASE64_CHARS d = [base64Code d])
  && (JS.band (base64Code d) 127 =? base64Code d)
  && (vlqTable_get (JS.band (base64Code d) 127) =? d)
  && negb (base64Code d =? 44) && negb (base64Code d =? 59)
  && (JS.band d 31 =? d mod 32)
  && bool_decide ((JS.band d 32 =? 0) = (d <? 32))
  && negb (d =? 255).

(** ** Vocabulary for the round trip of the mappings *)

(** The values that the codec carries: those whose sign-folded form fits
    the 32-bit operators of the encoder. *)
Definition vlqRange (v : Z) : bool := (- 2 ^ 30 <? v) && (v <? 2 ^ 30).

(** A segment that is unmapped or mapped (one field, or four) with every
    field in range; a segment that does not decode is not the business of
    this test. *)
Definition plainSegment (seg : str) : bool :=
  match decodeVLQ seg with
  | Ok r => ((length r =? 1)%nat || (length r =? 4)%nat) && forallb vlqRange r
  | Throw _ => true
  end.

Definition plainLine (l : str) : bool :=
  match l with
  | [] => true
  | _ => forallb plainSegment (split 44 l)
  end.

Definition plainMappings (m : str) : bool := forallb plainLine (split 59 m).

(** A string without the two separators of the serialized form. *)
Definition free (s : str) : Prop := Forall (fun c => c <> 44 /\ c <> 59) s.

(** ** Vocabulary for the reverse mapping *)

(** The generated columns of the segments of a line: the running sums of
    their first fields, from [p]. *)
Fixpoint generatedColumns (p : Z) (textLine : list (list Z)) : list Z :=
  match textLine with
  | [] => []
  | mapping :: rest => (p + field mapping 0) :: generatedColumns (p + field mapping 0) rest
  end.



(** The end of [remapPosition], on what the scan returns. *)
Definition remapPosition_finish (character : Z) (r : option (list Z) * Z) : option (Z * Z) :=
  if negb (character - r.2 =? 0) then None
  else match r.1 with
       | Some m => Some (field m 2, field m 3)
       | None => None
       end.

(** ** Vocabulary for malformed map data *)

(** A character of the alphabet whose digit has the continuation bit. *)
Definition continuationChar (c : char) : Prop :=
  exists d : nat, vlqChars !! d = Some c /\ (32 <= d)%nat.

(** The three ways in which a segment is not a run of VLQ groups: it ends
    in a continuation, or it has a character that is not in the alphabet,
    inside or outside the ASCII range. *)
Inductive malformedSegment : str -> Prop :=
| unterminated (s : str) (c : char) :
    continuationChar c -> malformedSegment (s ++ [c])
| outsideAlphabet (s : str) (c : char) :
    c ∈ s -> 0 <= c <= 127 -> c ∉ vlqChars -> malformedSegment s
| outsideAscii (s : str) (c : char) :
    c ∈ s -> ~ (0 <= c <= 127) -> malformedSegment s.

(** The arities of a segment. *)
Definition knownArity (r : list Z) : Prop :=
  length r = 1%nat \/ length r = 4%nat \/ length r = 5%nat.

(** Mappings with a segment that is malformed or of unknown arity. *)
Definition malformedMappings (m : str) : Prop :=
  exists l seg, l ∈ split 59 m /\ l <> [] /\ seg ∈ split 44 l
    /\ (malformedSegment seg \/ exists r, decodeVLQ seg = Ok r /\ ~ knownArity r).

(** What the table says of one ASCII character, as a test that runs. *)
Definition ascii_ok (c : Z) : bool :=
  bool_decide (c ∈ vlqChars) || (vlqTable_get (JS.band c 127) =? 255).

(** The segment that [parseWithLines] refuses. *)
Definition refused (seg : str) : Prop :=
  threw (decodeVLQ seg) \/ exists r, decodeVLQ seg = Ok r /\ ~ knownArity r.

(** ** Vocabulary for the change ranges *)

(** The range that the diff returns for two texts that differ before the
    end of the shorter one: the common suffix is counted up to the end of
    the common prefix in the shorter text. *)
Definition changeRangeAt (oldText newText : str) : TextChangeRange :=
  let p := commonPrefixLength oldText newText in
  let s := Nat.min (commonSuffixLength oldText newText)
                   (Nat.min (length oldText) (length newText) - p) in
  {| textSpan := {| start := Z.of_nat p;
                    spanLength := Z.of_nat (length oldText) - Z.of_nat s - Z.of_nat p |};
     newLength := Z.of_nat (length newText) - Z.of_nat p - Z.of_nat s |}.

(** ** Scenarios of the builder *)

(** The source text and the two updates of the single-line scenario. *)
Definition scenarioSource : str := lit "abc" ++ [LF] ++ lit "def".

Definition scenarioMap : outcome SourceMap :=
  sm ← updateSourceMap (lit "ab") (Some 0) 0 (newSourceMap scenarioSource);
  updateSourceMap (lit "c") (Some 2) 0 sm.


(** A map of three lines, the second of them empty. *)
Definition threeLineMap : SourceMap :=
  with_lines [[[0; 0; 0; 0]; [2; 0; 0; 2]]; []; [[1; 0; 0; 3]]] (newSourceMap []).

(** ** Scenarios of the host *)

(** The host on a small system: URLs are paths after [file://], no file
    exists, and the one transpiler compiles the text [ok] and throws on any
    other. *)
Definition demoSystem : System :=
  {| fileURLToPath := drop 7;
     pathToFileURL := fun p => lit "file://" ++ p;
     path_join := fun p => p;
     sys_fileExists := fun _ => false;
     sys_readFile := fun _ => None |}.

Definition demoCompile (path source' : str) : @CompileOutcome unit :=
  if bool_decide (source' = lit "ok") then
    Returned (Some {| code := lit "js";
                      sourceMap := Some {| mapLines := Some [[[0; 0; 0; 0]]];
                                           mapDataLines := None |};
                      errors := Some [] |})
  else Threw tt.

Definition demoTranspiler : @Transpiler unit :=
  {| extension := lit ".civet"; target := lit ".tsx"; compile := demoCompile |}.

Definition demoTranspilers : gmap (list Z) (@Transpiler unit) :=
  {[ lit ".civet" := demoTranspiler ]}.

(** The editor changes a document that it owns. *)
Definition editorUpdate {Exn : Type} (doc : docRef) (text' : str) (version' : Z)
    (h : @Host Exn) : @Host Exn :=
  set_documents (alter (fun d => TextDocument_update d text' version') doc) h.

(** The documents of the editor for [a.civet] and [a.ts], and the
    placeholder that the host makes for the mirror of [a.civet]. *)
Definition civetDoc (text' : str) (version' : Z) : TextDocument :=
  TextDocument_create (lit "file:///a.civet") (lit "civet") version' text'.

Definition tsDoc (text' : str) (version' : Z) : TextDocument :=
  TextDocument_create (lit "file:///a.ts") (lit "typescript") version' text'.

Definition placeholder : TextDocument :=
  TextDocument_create (lit "file:///a.civet.tsx") (lit "none") (-1) [].

(** A good version of [a.civet] is transpiled; the editor then breaks it,
    and the mirror is asked for again. *)
Definition failureTrace : option (@Host unit * IScriptSnapshot * @Host unit) :=
  let h := @TSHost unit demoSystem [] [civetDoc (lit "ok") 1] in
  h ← @addOrUpdateDocument unit demoSystem demoTranspilers 0%nat h;
  '(_, good) ← @getScriptSnapshot unit demoSystem demoTranspilers (lit "/a.civet.tsx") h;
  let h := editorUpdate 0%nat (lit "bad") 2 good in
  h ← @addOrUpdateDocument unit demoSystem demoTranspilers 0%nat h;
  '(snapshot, failed) ←
    @getScriptSnapshot unit demoSystem demoTranspilers (lit "/a.civet.tsx") h;
  Some (good, snapshot, failed).

(** The host after the editor has registered a version of [a.civet] that
    does not compile. *)
Definition brokenHost : @Host unit :=
  default (@TSHost unit demoSystem [] [])
    (@addOrUpdateDocument unit demoSystem demoTranspilers 0%nat
       (@TSHost unit demoSystem [] [civetDoc (lit "bad") 1])).

(** Two document objects for one path, registered one after the other. *)
Definition reopenTrace : option (@Host unit) :=
  let h := @TSHost unit demoSystem [] [tsDoc (lit "old") 1; tsDoc (lit "new") 1] in
  h ← @addOrUpdateDocument unit demoSystem demoTranspilers 0%nat h;
  @addOrUpdateDocument unit demoSystem demoTranspilers 1%nat h.

(** ** [remapFileName] *)

Section FileNames.
Context {Exn : Type}.

(** [remapFileName(fileName, transpilers)]: the source path of a mirror
    path, and any other path as it is. *)
Definition remapFileName (fileName : str)
    (transpilers : gmap (list Z) (@Transpiler Exn)) : str :=
  match getTranspiledExtensionsFromPath fileName with
  | None | Some ([], _) => fileName
  | Some (extension', target') =>
      match transpilers !! extension' with
      | None => fileName
      | Some transpiler =>
          if bool_decide (target transpiler = target') then removeExtension fileName
          else fileName
      end
  end.

End FileNames.

(** ** Vocabulary for the further properties of the source map *)

(** The offset at which line [n] of a table starts. *)
Definition lineStart (table : list Z) (n : nat) : Z :=
  match n with
  | O => 0
  | S k => default 0 (table !! k)
  end.

(** A character of the alphabet whose digit has no continuation bit: it
    ends a value. *)
Definition terminatorChar (c : char) : bool := bool_decide (c ∈ take 32 vlqChars).

(** Lines whose segments all have one of the three arities of the
    [SourceMapEntry] type. *)
Definition typedLines (ls : SourceMapLines) : Prop :=
  Forall (Forall knownArity) ls.

(** An entry as the builder writes it: unmapped with a positive column
    delta, or mapped to source file [0] with a column delta that is not
    negative. *)
Definition builtEntry (e : list Z) : Prop :=
  (length e = 1%nat /\ 0 < field e 0)
  \/ (length e = 4%nat /\ 0 <= field e 0 /\ field e 1 = 0).

(** The state of a builder between two updates: [line] is the last line,
    the pending column offset is not negative, and every entry is one the
    builder writes. *)
Definition builderState (sm : SourceMap) : Prop :=
  S (line sm) = length (lines sm)
  /\ 0 <= colOffset sm
  /\ Forall (Forall builtEntry) (lines sm).

(** The generated column that a line has reached: the sum of the column
    deltas of its entries. *)
Definition lineWidth (l : list (list Z)) : Z := foldr (fun e w => field e 0 + w) 0 l.

(** Lines that the renderer can write and the parser reads back: segments
    of one field or four, with the column delta, the source index and the
    source deltas from the running source position all in the range of the
    codec. The functions return the running source position. *)
Definition renderableEntry (st : Z * Z) (e : list Z) : option (Z * Z) :=
  match e with
  | [a] => if vlqRange a then Some st else None
  | [a; b; c; d] =>
      if vlqRange a && vlqRange b && vlqRange (c - st.1) && vlqRange (d - st.2)
      then Some (c, d) else None
  | _ => None
  end.

Fixpoint renderableLine (st : Z * Z) (l : list (list Z)) : option (Z * Z) :=
  match l with
  | [] => Some st
  | e :: rest => st ← renderableEntry st e; renderableLine st rest
  end.

Fixpoint renderableLines (st : Z * Z) (ls : SourceMapLines) : option (Z * Z) :=
  match ls with
  | [] => Some st
  | l :: rest => st ← renderableLine st l; renderableLines st rest
  end.



(** ** Vocabulary for the further properties of the host *)

(** The text obtained from [oldText] by replacing the span of a change
    range with the characters of [newText] at the same place. *)
Definition applyChange (r : TextChangeRange) (oldText newText : str) : str :=
  let s := Z.to_nat (start (textSpan r)) in
  take s oldText
  ++ take (Z.to_nat (newLength r)) (drop s newText)
  ++ drop (s + Z.to_nat (spanLength (textSpan r))) oldText.

(** An extension: a dot and a run, not empty, of characters other than
    the dot and the slash. *)
Definition extensionShaped (e : str) : bool :=
  match e with
  | d :: c :: run => (d =? 46) && forallb isExtChar (c :: run)
  | _ => false
  end.

Section HostVocabulary.
Context {Exn : Type}.

(** A host state in which every registered path leads to a document
    object. *)
Definition hostState (h : @Host Exn) : Prop :=
  forall path ref, pathMap h !! path = Some ref -> (ref < length (documents h))%nat.

(** The lines that [doTranspileAndUpdateMeta] takes from a result. *)
Definition resultLines (result : @CompileResult Exn) : option (list (list (list Z))) :=
  match sourceMap result with
  | Some m => match mapLines m with Some ls => Some ls | None => mapDataLines m end
  | None => None
  end.

End HostVocabulary.

(** ** Further scenarios *)

(** Upstream and downstream lines for the composition, the second with
    an unmapped segment and one of five fields. *)
Definition upstreamLines : SourceMapLines := [[[0; 0; 0; 0]; [2; 0; 0; 2]]; [[1; 0; 1; 0]]].
Definition downstreamLines : SourceMapLines := [[[3; 0; 1; 1]; [1]; [2; 0; 0; 2; 7]]].




(** The result of the demo compiler on the text [ok], the host in which
    the editor has opened [a.civet] with that text, and the host after the
    document has been registered. *)
Definition goodResult : @CompileResult unit :=
  {| code := lit "js";
     sourceMap := Some {| mapLines := Some [[[0; 0; 0; 0]]]; mapDataLines := None |};
     errors := Some [] |}.

Definition openedHost : @Host unit := @TSHost unit demoSystem [] [civetDoc (lit "ok") 1].

Definition goodHost : @Host unit :=
  default openedHost (@addOrUpdateDocument unit demoSystem demoTranspilers 0%nat openedHost).

(** * Properties *)

(** ** The examples of the source and of the specification *)

Example encode_0 : encodeVlq 1 0 = Some (lit "A").
Proof. reflexivity. Qed.
Example encode_1 : encodeVlq 1 1 = Some (lit "C").
Proof. reflexivity. Qed.
Example encode_m1 : encodeVlq 1 (-1) = Some (lit "D").
Proof. reflexivity. Qed.
Example encode_16 : encodeVlq 2 16 = Some (lit "gB").
Proof. reflexivity. Qed.
Example decode_gB : decodeVLQ (lit "gB") = Ok [16].
Proof. reflexivity. Qed.

Example getExtensionFromPath_js : getExtensionFromPath (lit "foo/bar/baz.js") = lit ".js".
Proof. reflexivity. Qed.
Example getExtensionFromPath_none : getExtensionFromPath (lit "foo/bar/baz") = [].
Proof. reflexivity. Qed.
Example getExtensionFromPath_dot : getExtensionFromPath (lit "foo/bar/baz.") = [].
Proof. reflexivity. Qed.
Example getTranspiledExtensions_one :
  getTranspiledExtensionsFromPath (lit "foo/bar/baz.js") = None.
Proof. reflexivity. Qed.
Example getTranspiledExtensions_two :
  getTranspiledExtensionsFromPath (lit "foo/bar/baz.civet.ts")
  = Some (lit ".civet", lit ".ts").
Proof. reflexivity. Qed.
Example removeExtension_js : removeExtension (lit "foo/bar/baz.js") = lit "foo/bar/baz".
Proof. reflexivity. Qed.
Example removeExtension_dot : removeExtension (lit "foo/bar/baz.") = lit "foo/bar/baz.".
Proof. reflexivity. Qed.
Example removeExtension_two :
  removeExtension (lit "foo/bar/baz.civet.ts") = lit "foo/bar/baz.civet".
Proof. reflexivity. Qed.
Example removeExtension_dir : removeExtension (lit "foo/bar.js/baz") = lit "foo/bar.js/baz".
Proof. reflexivity. Qed.

Example smRegexp_matches :
  smRegexp_exec (lit "code" ++ [LF]
                 ++ lit "//# sourceMappingURL=data:application/json;charset=utf-8;base64,QUJD=="
                 ++ [LF])
  = Some (4%nat, lit "QUJD==").
Proof. reflexivity. Qed.

Example inexact_remap_rejected : remapPosition (0, 3) [[[0; 0; 10; 4]; [5]]] = None.
Proof. reflexivity. Qed.

(** ** Facts on the 32-bit operators *)

Lemma ToInt32_small x : int32 x -> JS.ToInt32 x = x.
Proof. unfold int32, JS.ToInt32. intros. rewrite Z.mod_small; lia. Qed.

Lemma band_ones a n :
  0 <= a < 2 ^ 31 -> 0 <= n <= 30 -> JS.band a (2 ^ n - 1) = a mod 2 ^ n.
Proof.
  intros Ha Hn. unfold JS.band.
  assert (0 < 2 ^ n <= 2 ^ 30) by (split; [lia | apply Z.pow_le_mono_r; lia]).
  rewrite !ToInt32_small by (unfold int32; lia).
  replace (2 ^ n - 1) with (Z.ones n) by (rewrite Z.ones_equiv; lia).
  apply Z.land_ones. lia.
Qed.

Lemma sar_div a n : int32 a -> 0 <= n < 32 -> JS.sar a n = a / 2 ^ n.
Proof.
  intros Ha Hn. unfold JS.sar. rewrite ToInt32_small by done.
  rewrite Z.mod_small by lia. apply Z.shiftr_div_pow2. lia.
Qed.

Lemma shl_mul a n :
  0 <= n < 32 -> 0 <= a -> a * 2 ^ n < 2 ^ 31 -> JS.shl a n = a * 2 ^ n.
Proof.
  intros Hn Ha Hb. unfold JS.shl.
  assert (1 <= 2 ^ n) by lia.
  rewrite (ToInt32_small a) by (unfold int32; nia).
  rewrite Z.mod_small by lia. rewrite Z.shiftl_mul_pow2 by lia.
  apply ToInt32_small. unfold int32. nia.
Qed.

Lemma land_low_high a b s :
  0 <= s -> 0 <= a < 2 ^ s -> Z.land a (b * 2 ^ s) = 0.
Proof.
  intros Hs Ha. apply Z.bits_inj'. intros n Hn.
  rewrite Z.land_spec, Z.bits_0.
  destruct (Z.lt_ge_cases n s) as [Hlt | Hge].
  - rewrite Z.mul_pow2_bits_low by lia. apply andb_false_r.
  - assert (Z.testbit a n = false) as ->; [| done].
    destruct (Z.eq_dec a 0) as [-> | Hne]; [apply Z.bits_0 |].
    apply Z.bits_above_log2; [lia |].
    apply Z.lt_le_trans with s; [| lia].
    apply Z.log2_lt_pow2; lia.
Qed.

Lemma bor_add a b s :
  0 <= s -> 0 <= a < 2 ^ s -> 0 <= b -> a + b * 2 ^ s < 2 ^ 31 ->
  JS.bor a (b * 2 ^ s) = a + b * 2 ^ s.
Proof.
  intros Hs Ha Hb Hlt. unfold JS.bor.
  assert (0 <= b * 2 ^ s) by nia.
  rewrite !ToInt32_small by (unfold int32; lia).
  rewrite <- Z.lxor_lor by (by apply land_low_high).
  symmetry. apply Z.add_nocarry_lxor. by apply land_low_high.
Qed.

(** ** The VLQ codec *)

Lemma forall_range (P : Z -> bool) (n : Z) :
  forallb P (seqZ 0 n) = true -> forall d, 0 <= d < n -> P d = true.
Proof.
  intros H d Hd. rewrite forallb_forall in H. apply H.
  apply list_elem_of_In, elem_of_seqZ. lia.
Qed.

Lemma digit_facts d :
  0 <= d < 64 ->
  charAt BASE64_CHARS d = [base64Code d]
  /\ JS.band (base64Code d) 127 = base64Code d
  /\ vlqTable_get (JS.band (base64Code d) 127) = d
  /\ base64Code d <> 44 /\ base64Code d <> 59
  /\ JS.band d 31 = d mod 32
  /\ (JS.band d 32 =? 0) = (d <? 32).
Proof.
  intros Hd.
  assert (digit_ok d = true) as H by (by apply (forall_range digit_ok 64)).
  unfold digit_ok in H.
  repeat (apply andb_prop in H as [H ?]).
  repeat match goal with
         | H : bool_decide _ = true |- _ => apply bool_decide_eq_true in H
         | H : negb _ = true |- _ => apply negb_true_iff in H
         | H : (_ =? _) = true |- _ => apply Z.eqb_eq in H
         | H : (_ =? _) = false |- _ => apply Z.eqb_neq in H
         end.
  done.
Qed.

Lemma bor_continuation c : 0 <= c < 32 -> JS.bor c VLQ_CONTINUATION_BIT = c + 32.
Proof.
  intros Hc.
  apply Z.eqb_eq.
  by apply (forall_range (fun c => JS.bor c VLQ_CONTINUATION_BIT =? c + 32) 32).
Qed.

Lemma vlqDigits_range n w : 0 <= w -> Forall (fun d => 0 <= d < 64) (vlqDigits n w).
Proof.
  revert w. induction n as [| n IH]; intros w Hw; simpl; [constructor |].
  assert (0 <= w mod 32 < 32) by (apply Z.mod_pos_bound; lia).
  destruct (w / 32 =? 0) eqn:E.
  - constructor; [lia | constructor].
  - constructor; [lia |]. apply IH. apply Z.div_pos; lia.
Qed.

Lemma vlqDigits_nonempty n w : vlqDigits (S n) w <> [].
Proof. simpl. by destruct (w / 32 =? 0). Qed.

(** The loop of the encoder writes the digits of its argument. *)
Lemma encodeVlq_loop_digits fuel w answer :
  0 <= w < 2 ^ 31 -> w < 32 ^ Z.of_nat fuel -> (w <> 0 \/ answer = []) ->
  (1 <= fuel)%nat ->
  encodeVlq_loop fuel w answer = Some (answer ++ map base64Code (vlqDigits fuel w)).
Proof.
  revert w answer. induction fuel as [| fuel IH]; intros w answer Hw Hlt Hgo Hf; [lia |].
  cbn [encodeVlq_loop vlqDigits].
  assert ((w =? 0) && negb (falsy answer) = false) as ->.
  { destruct Hgo as [Hne | ->]; [| by rewrite andb_false_r].
    apply Z.eqb_neq in Hne. by rewrite Hne. }
  change VLQ_VALUE_MASK with (2 ^ 5 - 1). change VLQ_SHIFT with 5.
  rewrite band_ones by lia.
  rewrite sar_div by (unfold int32; lia).
  change (2 ^ 5) with 32.
  assert (0 <= w mod 32 < 32) as Hc by (apply Z.mod_pos_bound; lia).
  assert (0 <= w / 32) as Hq by (apply Z.div_pos; lia).
  destruct (w / 32 =? 0) eqn:E.
  - destruct (digit_facts (w mod 32)) as [-> _]; [lia |].
    assert (falsy (answer ++ [base64Code (w mod 32)]) = false) as Hne
      by (by destruct answer).
    destruct fuel; simpl; by rewrite Hne, E.
  - apply Z.eqb_neq in E.
    rewrite bor_continuation by done.
    destruct (digit_facts (w mod 32 + 32)) as [-> _]; [lia |].
    assert (w / 32 < 32 ^ Z.of_nat fuel).
    { apply Z.div_lt_upper_bound; [lia |].
      rewrite Nat2Z.inj_succ, Z.pow_succ_r in Hlt; lia. }
    rewrite IH.
    + by rewrite <- app_assoc.
    + split; [done |]. apply Z.le_lt_trans with w; [| lia].
      apply Z.div_le_upper_bound; lia.
    + done.
    + by left.
    + destruct fuel; [| lia]. simpl in *. lia.
Qed.

Lemma mod32_continuation w : (w mod 32 + 32) mod 32 = w mod 32.
Proof.
  rewrite <- (Z.mul_1_l 32) at 2. rewrite Z.mod_add by lia. apply Z.mod_mod. lia.
Qed.

(** The decoder reads the digits back, whatever follows them. *)
Lemma decodeVLQ_scan_digits n : forall w s vlq inGroup result rest,
  0 <= w < 32 ^ Z.of_nat n -> 0 <= s <= 30 -> 0 <= vlq < 2 ^ s ->
  vlq + w * 2 ^ s < 2 ^ 31 -> (1 <= n)%nat ->
  decodeVLQ_scan (map base64Code (vlqDigits n w) ++ rest) inGroup s vlq result
  = decodeVLQ_scan rest false 0 0 (result ++ [unzigzag (vlq + w * 2 ^ s)]).
Proof.
  induction n as [| n IH]; intros w s vlq inGroup result rest Hw Hs Hv Hlt Hn; [lia |].
  assert (0 < 2 ^ s) as Hp by lia.
  assert (0 <= w mod 32 < 32) as Hc by (apply Z.mod_pos_bound; lia).
  assert (w = 32 * (w / 32) + w mod 32) as Hdm by (apply Z.div_mod; lia).
  assert (0 <= w / 32) as Hq by (apply Z.div_pos; lia).
  cbn [vlqDigits].
  destruct (w / 32 =? 0) eqn:E.
  - apply Z.eqb_eq in E. assert (w mod 32 = w) as Hww by lia. rewrite Hww in *.
    cbn [map app decodeVLQ_scan].
    destruct (digit_facts w) as (_ & -> & -> & _ & _ & -> & ->); [lia |].
    rewrite Z.eqb_refl. cbn [negb].
    assert ((w =? 255) = false) as -> by lia.
    assert ((w <? 32) = true) as -> by lia.
    rewrite Hww.
    rewrite shl_mul by lia. rewrite bor_add by lia.
    change 1 with (2 ^ 1 - 1) at 1. rewrite band_ones by lia.
    rewrite sar_div by (unfold int32; lia).
    unfold unzigzag. change (2 ^ 1) with 2.
    by destruct (_ =? 0).
  - apply Z.eqb_neq in E.
    cbn [map app decodeVLQ_scan].
    destruct (digit_facts (w mod 32 + 32)) as (_ & -> & -> & _ & _ & -> & ->); [lia |].
    rewrite Z.eqb_refl. cbn [negb].
    assert ((w mod 32 + 32 =? 255) = false) as -> by lia.
    assert ((w mod 32 + 32 <? 32) = false) as -> by lia.
    rewrite mod32_continuation.
    assert (32 * 2 ^ s <= w * 2 ^ s) by nia.
    assert (2 ^ (s + 5) = 32 * 2 ^ s) as Hpow
      by (rewrite Z.pow_add_r by lia; change (2 ^ 5) with 32; lia).
    assert (s + 5 <= 30).
    { assert (2 ^ (s + 5) < 2 ^ 31) as Hlt' by lia.
      apply Z.pow_lt_mono_r_iff in Hlt'; lia. }
    assert (w mod 32 * 2 ^ s <= w * 2 ^ s) by nia.
    rewrite shl_mul by lia. rewrite bor_add by lia.
    assert (w / 32 < 32 ^ Z.of_nat n).
    { apply Z.div_lt_upper_bound; [lia |].
      rewrite Nat2Z.inj_succ, Z.pow_succ_r in Hw; lia. }
    rewrite IH.
    + do 3 f_equal. rewrite Hpow.
      set (q := w / 32) in *. set (r := w mod 32) in *.
      rewrite Hdm. f_equal. ring.
    + lia.
    + lia.
    + rewrite Hpow. nia.
    + rewrite Hpow. nia.
    + destruct n; [| lia]. simpl in *. lia.
Qed.

Lemma zigzag_range v : - 2 ^ 30 < v < 2 ^ 30 -> 0 <= zigzag v < 2 ^ 31.
Proof. unfold zigzag. intros. destruct (v <? 0) eqn:E; lia. Qed.

Lemma unzigzag_zigzag v : unzigzag (zigzag v) = v.
Proof.
  unfold unzigzag, zigzag. destruct (v <? 0) eqn:E.
  - replace (2 * Z.abs v + 1) with (1 + Z.abs v * 2) by lia.
    rewrite Z.mod_add, Z.div_add by lia.
    change (1 mod 2) with 1. change (1 / 2) with 0. cbn [Z.eqb]. lia.
  - replace (2 * Z.abs v + 0) with (0 + Z.abs v * 2) by lia.
    rewrite Z.mod_add, Z.div_add by lia.
    change (0 mod 2) with 0. change (0 / 2) with 0. cbn [Z.eqb]. lia.
Qed.

Lemma vlqDigits_fuel n : forall m w,
  0 <= w < 32 ^ Z.of_nat n -> (1 <= n <= m)%nat -> vlqDigits m w = vlqDigits n w.
Proof.
  induction n as [| n IH]; intros m w Hw Hn; [lia |].
  destruct m as [| m]; [lia |]. cbn [vlqDigits].
  destruct (w / 32 =? 0) eqn:E; [done |].
  apply Z.eqb_neq in E. f_equal.
  assert (0 <= w / 32) by (apply Z.div_pos; lia).
  assert (w / 32 < 32 ^ Z.of_nat n).
  { apply Z.div_lt_upper_bound; [lia |].
    rewrite Nat2Z.inj_succ, Z.pow_succ_r in Hw; lia. }
  apply IH; [lia |].
  destruct n; [simpl in *; lia | lia].
Qed.

(** With seven turns of fuel or more, the encoder returns [vlqString]. *)
Lemma encodeVlq_vlqString fuel v :
  - 2 ^ 30 < v < 2 ^ 30 -> encodeVlq (7 + fuel) v = Some (vlqString v).
Proof.
  intros Hv. unfold encodeVlq.
  rewrite shl_mul by lia.
  replace (Z.abs v * 2 ^ 1 + (if v <? 0 then 1 else 0)) with (zigzag v)
    by (unfold zigzag; lia).
  pose proof (zigzag_range v Hv) as Hz.
  assert (zigzag v < 32 ^ 7) as Hz7 by (change (32 ^ 7) with (2 ^ 35); lia).
  rewrite encodeVlq_loop_digits; [| done | | by right | lia].
  - unfold vlqString. cbn [app]. do 2 f_equal.
    apply vlqDigits_fuel; [| lia]. change (Z.of_nat 7) with 7. lia.
  - apply Z.lt_le_trans with (32 ^ 7); [done |].
    apply Z.pow_le_mono_r; lia.
Qed.

Lemma decodeVLQ_scan_vlqString v inGroup result rest :
  - 2 ^ 30 < v < 2 ^ 30 ->
  decodeVLQ_scan (vlqString v ++ rest) inGroup 0 0 result
  = decodeVLQ_scan rest false 0 0 (result ++ [v]).
Proof.
  intros Hv. pose proof (zigzag_range v Hv) as Hz. unfold vlqString.
  rewrite decodeVLQ_scan_digits.
  - change (2 ^ 0) with 1. by rewrite Z.add_0_l, Z.mul_1_r, unzigzag_zigzag.
  - change (32 ^ Z.of_nat 7) with (2 ^ 35). lia.
  - lia.
  - change (2 ^ 0) with 1. lia.
  - change (2 ^ 0) with 1. lia.
  - lia.
Qed.

Lemma vlqString_alphabet v :
  vlqString v <> [] /\ Forall (fun c => c <> 44 /\ c <> 59) (vlqString v).
Proof.
  unfold vlqString. split.
  - pose proof (vlqDigits_nonempty 6 (zigzag v)). by destruct (vlqDigits 7 (zigzag v)).
  - apply Forall_fmap.
    assert (0 <= zigzag v) as Hz by (unfold zigzag; destruct (v <? 0); lia).
    eapply Forall_impl; [apply (vlqDigits_range 7 _ Hz) |].
    intros d Hd. simpl. destruct (digit_facts d Hd) as (_ & _ & _ & ? & ? & _). done.
Qed.

Lemma encodeVlq_negative_loop fuel : forall w answer,
  - 2 ^ 31 <= w < 0 -> encodeVlq_loop fuel w answer = None.
Proof.
  induction fuel as [| fuel IH]; intros w answer Hw; cbn [encodeVlq_loop].
  - assert ((w =? 0) = false) as -> by lia. done.
  - assert ((w =? 0) = false) as -> by lia. cbn [andb].
    apply IH. change VLQ_SHIFT with 5.
    rewrite sar_div by (unfold int32; lia). change (2 ^ 5) with 32.
    split.
    + apply Z.div_le_lower_bound; lia.
    + apply Z.div_lt_upper_bound; lia.
Qed.

Lemma encodeVlq_diverges fuel v : 2 ^ 30 <= Z.abs v < 2 ^ 31 -> encodeVlq fuel v = None.
Proof.
  intros Hv. unfold encodeVlq. apply encodeVlq_negative_loop.
  unfold JS.shl. rewrite (ToInt32_small (Z.abs v)) by (unfold int32; lia).
  change (1 mod 32) with 1. rewrite Z.shiftl_mul_pow2 by lia.
  unfold JS.ToInt32. change (2 ^ 1) with 2.
  replace (Z.abs v * 2 + 2 ^ 31) with (Z.abs v * 2 - 2 ^ 31 + 1 * 2 ^ 32) by lia.
  rewrite Z.mod_add by lia. rewrite Z.mod_small by lia.
  destruct (v <? 0); lia.
Qed.

(** Claim C2, as amended. For every integer [v] strictly between -2^30 and
    2^30, [encodeVlq] returns within seven turns of its loop, and [decodeVLQ]
    of the string it returns is the single-element segment [[v]]. (Outside
    this range the 32-bit operators of the encoder wrap.) *)
Theorem vlq_roundtrip (fuel : nat) (v : Z) :
  - 2 ^ 30 < v < 2 ^ 30 ->
  exists s, encodeVlq (7 + fuel) v = Some s /\ decodeVLQ s = Ok [v].
Proof.
  intros Hv. exists (vlqString v). split; [by apply encodeVlq_vlqString |].
  unfold decodeVLQ. rewrite <- (app_nil_r (vlqString v)).
  by rewrite decodeVLQ_scan_vlqString.
Qed.

(** The round trip of C2 at [-5]. *)
Lemma vlq_roundtrip_witness :
  - 2 ^ 30 < -5 < 2 ^ 30
  /\ exists s, encodeVlq (7 + 0) (-5) = Some s /\ decodeVLQ s = Ok [-5].
Proof.
  split; [lia |]. apply (vlq_roundtrip 0 (-5)). lia.
Defined.

(** Claim C2 as stated fails at -2^31: [Math.abs(v) << 1] wraps to 0, the
    encoder returns ["B"], and the decoder reads back zero; no amount of fuel
    gives the round trip. *)
Lemma vlq_roundtrip_counterexample :
  - 2 ^ 31 <= -2147483648 < 2 ^ 31
  /\ encodeVlq 7 (-2147483648) = Some (lit "B")
  /\ decodeVLQ (lit "B") = Ok [0]
  /\ ~ (exists fuel s, encodeVlq fuel (-2147483648) = Some s
                      /\ decodeVLQ s = Ok [-2147483648]).
Proof.
  split; [lia |]. split; [reflexivity |]. split; [reflexivity |].
  intros (fuel & s & Henc & Hdec).
  destruct fuel as [| fuel]; [discriminate |].
  assert (encodeVlq (S fuel) (-2147483648) = Some (lit "B")) as Hb.
  { destruct fuel; reflexivity. }
  rewrite Hb in Henc. injection Henc as <-. discriminate.
Qed.

(** ** Splitting what was joined *)

Lemma split_cons_head sep (s : str) : exists piece pieces, split sep s = piece :: pieces.
Proof.
  induction s as [| c s IH]; simpl; [by eauto |].
  destruct (c =? sep); [by eauto |].
  destruct IH as (piece & pieces & ->). by eauto.
Qed.

Lemma split_app_sep sep (piece rest : str) :
  Forall (fun c => c <> sep) piece ->
  split sep (piece ++ sep :: rest) = piece :: split sep rest.
Proof.
  induction 1 as [| c piece Hc _ IH]; simpl.
  - by rewrite Z.eqb_refl.
  - apply Z.eqb_neq in Hc. by rewrite Hc, IH.
Qed.

Lemma split_no_sep sep (piece : str) :
  Forall (fun c => c <> sep) piece -> split sep piece = [piece].
Proof.
  induction 1 as [| c piece Hc _ IH]; simpl; [done |].
  apply Z.eqb_neq in Hc. by rewrite Hc, IH.
Qed.

Lemma split_join sep (pieces : list str) :
  pieces <> [] -> Forall (Forall (fun c => c <> sep)) pieces ->
  split sep (join [sep] pieces) = pieces.
Proof.
  intros Hne Hall. induction Hall as [| piece pieces Hp Hall IH]; [done |].
  destruct pieces as [| piece' pieces].
  - simpl. by apply split_no_sep.
  - change (join [sep] (piece :: piece' :: pieces))
      with (piece ++ sep :: join [sep] (piece' :: pieces)).
    rewrite split_app_sep by done. f_equal. by apply IH.
Qed.

Lemma join_free sep sep' (pieces : list str) :
  sep <> sep' -> Forall (Forall (fun c => c <> sep')) pieces ->
  Forall (fun c => c <> sep') (join [sep] pieces).
Proof.
  intros Hsep Hall. induction Hall as [| piece pieces Hp Hall IH]; [constructor |].
  destruct pieces as [| piece' pieces]; [done |].
  change (join [sep] (piece :: piece' :: pieces))
    with (piece ++ sep :: join [sep] (piece' :: pieces)).
  apply Forall_app. split; [done |]. constructor; [done | apply IH].
Qed.

Lemma join_nonempty sep (pieces : list str) :
  pieces <> [] -> Forall (fun piece => piece <> []) pieces -> join [sep] pieces <> [].
Proof.
  intros Hne Hall. destruct Hall as [| piece pieces Hp Hall]; [done |].
  destruct pieces; simpl; [done |]. by destruct piece.
Qed.

(** ** Rendering and parsing *)

Lemma vlqRange_spec v : vlqRange v = true -> - 2 ^ 30 < v < 2 ^ 30.
Proof. unfold vlqRange. intros H. apply andb_prop in H as [? ?]. lia. Qed.

Lemma vlqString_free v : free (vlqString v).
Proof. apply vlqString_alphabet. Qed.

Lemma decodeVLQ_vlqStrings4 a b c d :
  vlqRange a = true -> vlqRange b = true -> vlqRange c = true -> vlqRange d = true ->
  decodeVLQ (vlqString a ++ vlqString b ++ vlqString c ++ vlqString d) = Ok [a; b; c; d].
Proof.
  intros Ha Hb Hc Hd. unfold decodeVLQ.
  rewrite <- (app_nil_r (vlqString d)).
  by rewrite !decodeVLQ_scan_vlqString by (by apply vlqRange_spec).
Qed.

Lemma entry_roundtrip fuel st seg r e st' :
  decodeVLQ seg = Ok r -> plainSegment seg = true ->
  resolveEntry st r = Ok (e, st') ->
  exists s, renderEntry (7 + fuel) st e = Some (s, st')
            /\ decodeVLQ s = Ok r /\ s <> [] /\ free s.
Proof.
  intros Hdec Hplain Hres. unfold plainSegment in Hplain. rewrite Hdec in Hplain.
  apply andb_prop in Hplain as [Hlen Hrange].
  destruct st as [sl sc].
  destruct r as [| a [| b [| c [| d [| x r]]]]]; try discriminate.
  - (* arity 1 *)
    cbn in Hrange. rewrite andb_true_r in Hrange.
    injection Hres as <- <-.
    exists (vlqString a). split.
    { cbn [renderEntry field nth].
      by rewrite encodeVlq_vlqString by (by apply vlqRange_spec). }
    split.
    + unfold decodeVLQ. rewrite <- (app_nil_r (vlqString a)).
      by rewrite decodeVLQ_scan_vlqString by (by apply vlqRange_spec).
    + split; [apply vlqString_alphabet | apply vlqString_free].
  - (* arity 4 *)
    cbn in Hrange.
    repeat (apply andb_prop in Hrange as [? Hrange]).
    cbn in Hres. injection Hres as <- <-.
    exists (vlqString a ++ vlqString b ++ vlqString c ++ vlqString d).
    split.
    { cbn [renderEntry field nth fst snd].
      replace (sl + c - sl) with c by lia. replace (sc + d - sc) with d by lia.
      by rewrite !encodeVlq_vlqString by (by apply vlqRange_spec). }
    split; [by apply decodeVLQ_vlqStrings4 |]. split.
    + pose proof (vlqString_alphabet a) as [Hne _]. by destruct (vlqString a).
    + unfold free. rewrite !Forall_app. repeat split; apply vlqString_free.
Qed.

Lemma outcome_bind_Ok {A B} (m : outcome A) (k : A -> outcome B) b :
  m ≫= k = Ok b -> exists a, m = Ok a /\ k a = Ok b.
Proof. destruct m as [a | e]; [by exists a | discriminate]. Qed.

Lemma entries_roundtrip fuel segs : forall st es st',
  forallb plainSegment segs = true ->
  parseEntries st segs = Ok (es, st') ->
  exists ss, renderLine (7 + fuel) st es = Some (ss, st')
             /\ parseEntries st ss = Ok (es, st')
             /\ length ss = length segs
             /\ Forall (fun s => s <> []) ss /\ Forall free ss.
Proof.
  induction segs as [| seg segs IH]; intros st es st' Hplain Hparse.
  - injection Hparse as <- <-. exists []. by repeat split.
  - cbn [forallb] in Hplain. apply andb_prop in Hplain as [Hseg Hsegs].
    cbn [parseEntries] in Hparse.
    apply outcome_bind_Ok in Hparse as (r & Hdec & Hparse).
    apply outcome_bind_Ok in Hparse as ([e st1] & Hres & Hparse).
    apply outcome_bind_Ok in Hparse as ([es' st2] & Hrest & Hparse).
    injection Hparse as <- <-.
    destruct (entry_roundtrip fuel st seg r e st1 Hdec Hseg Hres)
      as (s & Hrender & Hdec' & Hne & Hfree).
    destruct (IH st1 es' st2 Hsegs Hrest) as (ss & Hrender' & Hparse' & Hlen & Hnes & Hfrees).
    exists (s :: ss). split; [| split; [| split; [| split]]].
    + cbn [renderLine]. rewrite Hrender. cbn [mbind option_bind].
      by rewrite Hrender'.
    + cbn [parseEntries]. rewrite Hdec'. cbn [mbind outcome_bind].
      rewrite Hres. cbn [mbind outcome_bind]. by rewrite Hparse'.
    + cbn. by rewrite Hlen.
    + by constructor.
    + by constructor.
Qed.

Lemma free_comma s : free s -> Forall (fun c => c <> 44) s.
Proof. intros H. eapply Forall_impl; [exact H |]. by intros c [? ?]. Qed.

Lemma free_semicolon s : free s -> Forall (fun c => c <> 59) s.
Proof. intros H. eapply Forall_impl; [exact H |]. by intros c [? ?]. Qed.

Lemma line_roundtrip fuel st l es st' :
  plainLine l = true -> parseLine st l = Ok (es, st') ->
  exists ss, renderLine (7 + fuel) st es = Some (ss, st')
             /\ parseLine st (join [44] ss) = Ok (es, st')
             /\ Forall (fun c => c <> 59) (join [44] ss).
Proof.
  intros Hplain Hparse. destruct l as [| c l].
  - injection Hparse as <- <-. exists []. by repeat split.
  - cbn [plainLine parseLine] in *.
    destruct (entries_roundtrip fuel _ _ _ _ Hplain Hparse)
      as (ss & Hrender & Hparse' & Hlen & Hnes & Hfrees).
    exists ss. split; [done |].
    assert (ss <> []) as Hss.
    { destruct (split_cons_head 44 (c :: l)) as (p & ps & Hsplit).
      rewrite Hsplit in Hlen. by destruct ss. }
    split.
    + pose proof (join_nonempty 44 ss Hss Hnes) as Hj.
      unfold parseLine. destruct (join [44] ss) eqn:E; [done |].
      rewrite <- E, split_join; [done | done |].
      eapply Forall_impl; [exact Hfrees | apply free_comma].
    + apply join_free; [done |].
      eapply Forall_impl; [exact Hfrees | apply free_semicolon].
Qed.

Lemma lines_roundtrip fuel ls : forall st ess st',
  forallb plainLine ls = true ->
  parseLines st ls = Ok (ess, st') ->
  exists rs, renderLines (7 + fuel) st ess = Some (rs, st')
             /\ parseLines st rs = Ok (ess, st')
             /\ length rs = length ls
             /\ Forall (Forall (fun c => c <> 59)) rs.
Proof.
  induction ls as [| l ls IH]; intros st ess st' Hplain Hparse.
  - injection Hparse as <- <-. exists []. by repeat split.
  - cbn [forallb] in Hplain. apply andb_prop in Hplain as [Hl Hls].
    cbn [parseLines] in Hparse.
    apply outcome_bind_Ok in Hparse as ([es st1] & Hline & Hparse).
    apply outcome_bind_Ok in Hparse as ([ess' st2] & Hrest & Hparse).
    injection Hparse as <- <-.
    destruct (line_roundtrip fuel st l es st1 Hl Hline) as (ss & Hrender & Hparse' & Hfree).
    destruct (IH st1 ess' st2 Hls Hrest) as (rs & Hrender' & Hparse'' & Hlen & Hfrees).
    exists (join [44] ss :: rs). split; [| split; [| split]].
    + cbn [renderLines]. rewrite Hrender. cbn [mbind option_bind].
      by rewrite Hrender'.
    + cbn [parseLines]. rewrite Hparse'. cbn [mbind outcome_bind].
      by rewrite Hparse''.
    + cbn. by rewrite Hlen.
    + by constructor.
Qed.

(** Claim C3, as amended. When the mappings [m] parse to the lines of [sm],
    every segment of [m] has one field or four, and every field lies strictly
    between -2^30 and 2^30, then [renderMappings] returns a string whose parse
    yields the same resolved lines. *)
Theorem render_parse_roundtrip (fuel : nat) (sm : SourceMap) (m : str) :
  parseMappings m = Ok (lines sm) -> plainMappings m = true ->
  exists s, renderMappings (7 + fuel) sm = Some s /\ parseMappings s = Ok (lines sm).
Proof.
  intros Hparse Hplain. unfold parseMappings in Hparse.
  apply outcome_bind_Ok in Hparse as ([ls st'] & Hlines & Hparse).
  injection Hparse as Hls. subst ls.
  destruct (lines_roundtrip fuel _ _ _ _ Hplain Hlines) as (rs & Hrender & Hparse' & Hlen & Hfree).
  exists (join [59] rs). split.
  - unfold renderMappings. rewrite Hrender. done.
  - unfold parseMappings. rewrite split_join; [by rewrite Hparse' | | done].
    destruct (split_cons_head 59 m) as (p & ps & Hsplit).
    rewrite Hsplit in Hlen. by destruct rs.
Qed.

(** The round trip of C3 on three lines, the second of them empty. *)
Lemma render_parse_roundtrip_witness :
  parseMappings (lit "AAAA,EAAE;;CAAC") = Ok (lines threeLineMap)
  /\ plainMappings (lit "AAAA,EAAE;;CAAC") = true
  /\ exists s, renderMappings (7 + 0) threeLineMap = Some s
               /\ parseMappings s = Ok (lines threeLineMap).
Proof.
  split; [reflexivity |]. split; [reflexivity |].
  apply (render_parse_roundtrip 0 threeLineMap (lit "AAAA,EAAE;;CAAC")); reflexivity.
Defined.

(** Claim C3 as stated fails on a segment of five fields, which is rendered
    by its first field alone and parses back as an unmapped segment, and on
    a field of magnitude 2^30, on which the renderer never returns. *)
Lemma render_parse_counterexample :
  parseMappings (lit "AAAAA") = Ok [[[0; 0; 0; 0; 0]]]
  /\ renderMappings 7 (with_lines [[[0; 0; 0; 0; 0]]] (newSourceMap [])) = Some (lit "A")
  /\ parseMappings (lit "A") = Ok [[[0]]]
  /\ parseMappings (lit "ggggggC") = Ok [[[-1073741824]]]
  /\ ~ (exists fuel s,
          renderMappings fuel (with_lines [[[-1073741824]]] (newSourceMap [])) = Some s).
Proof.
  repeat split; try reflexivity.
  intros (fuel & s & Hr). unfold renderMappings in Hr. cbn [lines with_lines] in Hr.
  cbn [renderLines renderLine renderEntry field nth] in Hr.
  rewrite encodeVlq_diverges in Hr by (cbn; lia). discriminate.
Qed.

(** ** Reverse mapping *)





(** ** The builder *)

(** Claim C5, as amended. Over the source ["abc\ndef"], after
    [updateSourceMap("ab", 0)] and [updateSourceMap("c", 2)], the lines of the
    builder are the single line [[0,0,0,0],[2,0,0,2]], whose segments have the
    generated columns 0 and 2, and [renderMappings] returns ["AAAA,EAAE"],
    which parses back to these lines. *)
Theorem single_line_mapping :
  exists sm, scenarioMap = Ok sm
    /\ lines sm = [[[0; 0; 0; 0]; [2; 0; 0; 2]]]
    /\ (forall fuel, renderMappings (S fuel) sm = Some (lit "AAAA,EAAE"))
    /\ generatedColumns 0 [[0; 0; 0; 0]; [2; 0; 0; 2]] = [0; 2]
    /\ parseMappings (lit "AAAA,EAAE") = Ok (lines sm).
Proof.
  eexists. split; [reflexivity |]. split; [reflexivity |].
  split; [| split; reflexivity].
  intros fuel. destruct fuel; reflexivity.
Qed.

(** Claim C5 as stated fails: the rendered string is never ["AAAA,CAAC"];
    the VLQ of 2 is [E], not [C]. *)
Lemma single_line_counterexample :
  exists sm, scenarioMap = Ok sm
    /\ forall fuel, renderMappings fuel sm <> Some (lit "AAAA,CAAC").
Proof.
  eexists. split; [reflexivity |].
  intros [| fuel]; [discriminate |].
  destruct fuel; discriminate.
Qed.

(** ** Malformed input *)

Lemma band_127 c : JS.band c 127 = c -> 0 <= c <= 127.
Proof.
  unfold JS.band. change (JS.ToInt32 127) with (Z.ones 7).
  rewrite Z.land_ones by lia. generalize (JS.ToInt32 c). intros x Hc.
  pose proof (Z.mod_pos_bound x (2 ^ 7) ltac:(lia)) as Hb.
  rewrite Hc in Hb. clear Hc. lia.
Qed.

Lemma outside_alphabet_255 c :
  0 <= c <= 127 -> c ∉ vlqChars -> vlqTable_get (JS.band c 127) = 255.
Proof.
  intros Hc Hnot.
  assert (ascii_ok c = true) as Hok by (apply (forall_range ascii_ok 128); [by vm_compute | lia]).
  unfold ascii_ok in Hok. apply orb_prop in Hok as [Hin | Heq]; [| lia].
  by apply bool_decide_eq_true in Hin.
Qed.

Lemma decodeVLQ_scan_bad_char s : forall c inGroup shift vlq result,
  c ∈ s -> (~ (0 <= c <= 127) \/ c ∉ vlqChars) ->
  exists c', decodeVLQ_scan s inGroup shift vlq result = Throw (InvalidMappingCharacter c').
Proof.
  induction s as [| a s IH]; intros c inGroup shift vlq result Hin Hbad.
  - by apply elem_of_nil in Hin.
  - cbn [decodeVLQ_scan].
    destruct (JS.band a 127 =? a) eqn:Ea; cbn [negb]; [| by eauto].
    destruct (vlqTable_get (JS.band a 127) =? 255) eqn:Ei; [by eauto |].
    apply elem_of_cons in Hin as [-> | Hin].
    + exfalso. apply Z.eqb_eq in Ea. pose proof (band_127 _ Ea) as Hr.
      destruct Hbad as [Hbad | Hbad]; [done |].
      rewrite (outside_alphabet_255 a Hr Hbad) in Ei. done.
    + destruct (JS.band _ 32 =? 0); by eapply IH.
Qed.

Lemma continuation_digit c :
  continuationChar c ->
  JS.band c 127 = c /\ vlqTable_get (JS.band c 127) <> 255
  /\ JS.band (vlqTable_get (JS.band c 127)) 32 <> 0.
Proof.
  intros (d & Hd & Hge).
  assert (d < 64)%nat as Hlt by (apply lookup_lt_Some in Hd; exact Hd).
  assert (c = base64Code (Z.of_nat d)) as ->.
  { unfold base64Code. rewrite Nat2Z.id.
    change BASE64_CHARS with vlqChars. symmetry. by apply nth_lookup_Some. }
  destruct (digit_facts (Z.of_nat d)) as (_ & -> & -> & _ & _ & _ & Hc); [lia |].
  split; [done |]. split; [lia |].
  intros H0. rewrite H0 in Hc. cbn in Hc. lia.
Qed.

Lemma decodeVLQ_scan_unterminated s : forall c inGroup shift vlq result,
  continuationChar c -> threw (decodeVLQ_scan (s ++ [c]) inGroup shift vlq result).
Proof.
  induction s as [| a s IH]; intros c inGroup shift vlq result Hc.
  - destruct (continuation_digit c Hc) as (Hb & Hi & Hcont).
    cbn [app decodeVLQ_scan]. rewrite Hb in Hi, Hcont |- *.
    rewrite Z.eqb_refl. cbn [negb].
    apply Z.eqb_neq in Hi, Hcont. rewrite Hi, Hcont.
    by exists UnexpectedEarlyEnd.
  - cbn [app decodeVLQ_scan].
    destruct (JS.band a 127 =? a); cbn [negb]; [| by eexists].
    destruct (vlqTable_get (JS.band a 127) =? 255); [by eexists |].
    destruct (JS.band _ 32 =? 0); by apply IH.
Qed.

Lemma malformedSegment_throws seg : malformedSegment seg -> threw (decodeVLQ seg).
Proof.
  intros [s c Hc | s c Hin Hr Hnot | s c Hin Hr]; unfold decodeVLQ.
  - by apply decodeVLQ_scan_unterminated.
  - destruct (decodeVLQ_scan_bad_char s c false 0 0 [] Hin) as [c' ->]; [by right |].
    by eexists.
  - destruct (decodeVLQ_scan_bad_char s c false 0 0 [] Hin) as [c' ->]; [by left |].
    by eexists.
Qed.

Lemma resolveEntry_unknown st r :
  ~ knownArity r -> resolveEntry st r = Throw (UnknownSourceMapEntry r).
Proof.
  intros Hk. unfold knownArity in Hk.
  destruct r as [| a [| b [| c [| d [| e [| f r]]]]]]; cbn in *; try done; lia.
Qed.

Lemma parseEntries_refused segs : forall st seg,
  seg ∈ segs -> refused seg -> threw (parseEntries st segs).
Proof.
  induction segs as [| s segs IH]; intros st seg Hin Href.
  - by apply elem_of_nil in Hin.
  - cbn [parseEntries].
    destruct (decodeVLQ s) as [r | e] eqn:Hdec; cbn [mbind outcome_bind]; [| by eexists].
    destruct (resolveEntry st r) as [[e st1] | e] eqn:Hres; cbn [mbind outcome_bind];
      [| by eexists].
    apply elem_of_cons in Hin as [-> | Hin].
    + exfalso. destruct Href as [[e' He'] | (r' & Hr' & Hk)]; [congruence |].
      rewrite Hdec in Hr'. injection Hr' as <-.
      by rewrite (resolveEntry_unknown st r Hk) in Hres.
    + destruct (IH st1 seg Hin Href) as [e' ->]. by eexists.
Qed.

Lemma parseLines_refused ls : forall st l seg,
  l ∈ ls -> l <> [] -> seg ∈ split 44 l -> refused seg -> threw (parseLines st ls).
Proof.
  induction ls as [| l' ls IH]; intros st l seg Hin Hne Hseg Href.
  - by apply elem_of_nil in Hin.
  - cbn [parseLines].
    destruct (parseLine st l') as [[es st1] | e] eqn:Hline; cbn [mbind outcome_bind];
      [| by eexists].
    apply elem_of_cons in Hin as [-> | Hin].
    + exfalso. destruct l' as [| c l']; [done |]. cbn [parseLine] in Hline.
      destruct (parseEntries_refused _ st seg Hseg Href) as [e He]. congruence.
    + destruct (IH st1 l seg Hin Hne Hseg Href) as [e' ->]. by eexists.
Qed.

(** Claim C9. [decodeVLQ] throws on a segment that ends in a continuation,
    that has a character outside the base64 alphabet, or that has a character
    whose code is outside 0x00..0x7F; [parseWithLines] throws when a segment
    of the mappings is malformed in one of these ways or decodes to an arity
    other than 1, 4 or 5. A call that throws returns no segment. *)
Theorem malformed_map_data_throws `{Platform} (seg base64Text : str) (j : SourceMapJSON) :
  (malformedSegment seg -> threw (decodeVLQ seg))
  /\ (JSON_parse_base64 base64Text = Ok j -> malformedMappings (mappings j) ->
      threw (parseWithLines base64Text)).
Proof.
  split; [apply malformedSegment_throws |].
  intros Hj (l & s & Hl & Hne & Hs & Hbad).
  unfold parseWithLines. rewrite Hj. cbn [mbind outcome_bind]. unfold parseMappings.
  destruct (parseLines_refused (split 59 (mappings j)) (0, 0) l s Hl Hne Hs) as [e ->].
  - destruct Hbad as [Hm | Hr]; [left; by apply malformedSegment_throws | by right].
  - by eexists.
Qed.

(** C9 on the unterminated segment ["g"] and on mappings with a segment of
    two fields. *)
Lemma malformed_map_data_throws_witness :
  malformedSegment (lit "g")
  /\ @JSON_parse_base64 demoPlatform (lit "AA")
     = Ok (mappingsDocument (lit "AA"))
  /\ threw (decodeVLQ (lit "g"))
  /\ threw (@parseWithLines demoPlatform (lit "AA")).
Proof.
  assert (malformedSegment (lit "g")) as Hseg.
  { apply (unterminated [] 103). exists 32%nat. split; [reflexivity | lia]. }
  pose proof (@malformed_map_data_throws demoPlatform (lit "g") (lit "AA")
                (mappingsDocument (lit "AA"))) as [Hd Hp].
  split; [exact Hseg |]. split; [reflexivity |]. split; [exact (Hd Hseg) |].
  apply Hp; [reflexivity |].
  exists (lit "AA"), (lit "AA"). split; [by left |]. split; [done |]. split; [by left |].
  right. exists [0; 0]. split; [reflexivity |].
  unfold knownArity. cbn. lia.
Defined.

(** ** Remapping a code without an inline map *)

Section RemapFrame.
Context `{Platform}.


End RemapFrame.


(** ** Change ranges *)

Lemma commonPrefixLength_le (a b : str) :
  (commonPrefixLength a b <= Nat.min (length a) (length b))%nat.
Proof.
  revert b. induction a as [| x a IH]; intros [| y b]; cbn; try lia.
  destruct (x =? y); [| lia]. specialize (IH b). lia.
Qed.

Lemma commonPrefixLength_same (a b : str) (i : nat) :
  (i < commonPrefixLength a b)%nat -> a !! i = b !! i.
Proof.
  revert b i. induction a as [| x a IH]; intros [| y b] i; cbn; try lia.
  destruct (x =? y) eqn:E; [| lia]. apply Z.eqb_eq in E as ->.
  destruct i as [| i]; [done |]. intros Hi. cbn. apply IH. lia.
Qed.

Lemma commonPrefixLength_differ (a b : str) :
  (commonPrefixLength a b < Nat.min (length a) (length b))%nat ->
  a !! commonPrefixLength a b <> b !! commonPrefixLength a b.
Proof.
  revert b. induction a as [| x a IH]; intros [| y b]; cbn; try lia.
  destruct (x =? y) eqn:E.
  - intros Hlt. apply IH. lia.
  - intros _. apply Z.eqb_neq in E. cbn. congruence.
Qed.

Lemma fullDiff_suffix_spec (oldText newText : str) (stop : nat) :
  (stop <= Nat.min (length oldText) (length newText))%nat ->
  forall remaining i,
    (i + remaining = stop)%nat -> (i <= commonSuffixLength oldText newText)%nat ->
    fullDiff_suffix oldText newText remaining i (Z.of_nat (length oldText) - Z.of_nat i)
    = Z.of_nat (length oldText)
      - Z.of_nat (Nat.min (commonSuffixLength oldText newText) stop).
Proof.
  intros Hstop. induction remaining as [| remaining IH]; intros i Hsum Hi.
  - cbn [fullDiff_suffix]. lia.
  - cbn [fullDiff_suffix].
    replace (length oldText - i - 1)%nat with (length oldText - S i)%nat by lia.
    replace (length newText - i - 1)%nat with (length newText - S i)%nat by lia.
    rewrite <- !reverse_lookup by lia.
    unfold sameChar, commonSuffixLength in *.
    destruct (decide (i < commonPrefixLength (reverse oldText) (reverse newText))%nat)
      as [Hlt | Hge].
    + rewrite bool_decide_eq_true_2 by (by apply commonPrefixLength_same).
      cbn [negb].
      replace (Z.of_nat (length oldText) - Z.of_nat i - 1)
        with (Z.of_nat (length oldText) - Z.of_nat (S i)) by lia.
      apply IH; lia.
    + assert (i = commonPrefixLength (reverse oldText) (reverse newText)) as Heq by lia.
      rewrite bool_decide_eq_false_2.
      * cbn [negb]. lia.
      * rewrite Heq. apply commonPrefixLength_differ.
        rewrite !length_reverse. lia.
Qed.

Lemma fullDiff_prefix_spec (oldText newText : str) :
  let m := Nat.min (length oldText) (length newText) in
  let p := commonPrefixLength oldText newText in
  forall remaining start',
    (start' + remaining = m)%nat -> (start' <= p)%nat ->
    fullDiff_prefix oldText newText m remaining start'
    = if (p <? m)%nat then Some (changeRangeAt oldText newText) else None.
Proof.
  intros m p. induction remaining as [| remaining IH]; intros start' Hsum Hle.
  - cbn [fullDiff_prefix].
    pose proof (commonPrefixLength_le oldText newText).
    assert ((p <? m)%nat = false) as -> by (apply Nat.ltb_ge; lia). done.
  - cbn [fullDiff_prefix]. unfold sameChar.
    destruct (decide (start' < p)%nat) as [Hlt | Hge].
    + rewrite bool_decide_eq_true_2 by (by apply commonPrefixLength_same).
      cbn [negb]. apply IH; lia.
    + assert (start' = p) as -> by lia.
      assert ((p <? m)%nat = true) as -> by (apply Nat.ltb_lt; lia).
      rewrite bool_decide_eq_false_2 by (apply commonPrefixLength_differ; fold m; lia).
      cbn [negb].
      pose proof (fullDiff_suffix_spec oldText newText (m - p) ltac:(lia) (m - p) 0
                    ltac:(lia) ltac:(lia)) as Hs.
      rewrite Z.sub_0_r in Hs. rewrite Hs.
      set (s := Nat.min (commonSuffixLength oldText newText) (m - p)).
      assert (s <= m - p)%nat by lia.
      assert ((Z.of_nat (length oldText) - Z.of_nat s - Z.of_nat p
               + (Z.of_nat (length newText) - Z.of_nat (length oldText)) <? 0) = false)
        as -> by lia.
      unfold changeRangeAt. fold p m s. do 2 f_equal. ring.
Qed.

Lemma fullDiffTextChangeRange_spec (oldText newText : str) :
  fullDiffTextChangeRange oldText newText
  = if (commonPrefixLength oldText newText
        <? Nat.min (length oldText) (length newText))%nat
    then Some (changeRangeAt oldText newText) else None.
Proof. unfold fullDiffTextChangeRange. apply fullDiff_prefix_spec; lia. Qed.

Lemma slice_all (s : str) : slice s 0 (Z.of_nat (length s)) = s.
Proof.
  unfold slice. cbn [Z.ltb Z.compare].
  assert ((Z.of_nat (length s) <? 0) = false) as -> by (apply Z.ltb_ge; lia).
  rewrite (Z.min_l 0) by lia. rewrite Z.min_id. rewrite Z.sub_0_r, Nat2Z.id.
  cbn [Z.to_nat drop]. apply firstn_all.
Qed.

(** Claim C8, as amended. [getChangeRange] on a new snapshot for [newText],
    given a snapshot for [oldText], returns no range when one text is a prefix
    of the other (equal texts included); otherwise it returns the span that
    starts at [prefixLen], of length [oldLen - s - prefixLen], with the new
    length [newLen - prefixLen - s], where [s] is the length of the longest
    common suffix capped at [min(oldLen, newLen) - prefixLen]. *)
Theorem getChangeRange_full_diff (id oldId : nat) (oldText newText : str)
    (oldMemo : gmap nat (option TextChangeRange)) :
  (getChangeRange (Snap id newText)
     {| snapId := oldId; snapText := oldText; changeRanges := oldMemo |}).1
  = if (commonPrefixLength oldText newText
        <? Nat.min (length oldText) (length newText))%nat
    then Some (changeRangeAt oldText newText) else None.
Proof.
  unfold getChangeRange, Snap. cbn [snapId snapText changeRanges fst].
  rewrite lookup_empty. unfold getText, getLength. cbn [snapText].
  rewrite slice_all, fullDiffTextChangeRange_spec.
  destruct (_ <? _)%nat.
  - by rewrite lookup_insert_eq.
  - by rewrite lookup_insert_eq.
Qed.

(** Claim C8 as stated fails on ["aba"] and ["abba"], whose common prefix
    and common suffix overlap in the shorter text, and on equal texts, for
    which no range is returned. *)
Lemma getChangeRange_counterexample :
  (getChangeRange (Snap 1 (lit "abba")) (Snap 0 (lit "aba"))).1
  = Some {| textSpan := {| start := 2; spanLength := 0 |}; newLength := 1 |}
  /\ commonPrefixLength (lit "aba") (lit "abba") = 2%nat
  /\ commonSuffixLength (lit "aba") (lit "abba") = 2%nat
  /\ (getChangeRange (Snap 1 (lit "abba")) (Snap 0 (lit "aba"))).1
     <> Some {| textSpan := {| start := 2; spanLength := (3 - 2) - 2 |};
                newLength := 4 - 2 - 2 |}
  /\ (getChangeRange (Snap 1 (lit "abc")) (Snap 0 (lit "abc"))).1 = None.
Proof. repeat split; try reflexivity. vm_compute. discriminate. Qed.

(** ** The host *)

Section HostProperties.
Context {Exn : Type} `{System}.
Variable transpilers : gmap (list Z) (@Transpiler Exn).

Lemma createOrUpdateMeta_spec (path : str) (ref : docRef) sl pe (f : bool) (h : @Host Exn) :
  let h' := createOrUpdateMeta path ref sl pe f h in
  fileMetaData h' !! path
  = Some {| sourcemapLines := sl;
            transpiledDoc := match fileMetaData h !! path with
                             | Some meta => transpiledDoc meta
                             | None => Some ref
                             end;
            parseErrors := pe; fatal := f |}
  /\ (forall other, other <> path -> fileMetaData h' !! other = fileMetaData h !! other)
  /\ documents h' = documents h /\ pathMap h' = pathMap h
  /\ snapshotMap h' = snapshotMap h /\ scriptFileNames h' = scriptFileNames h
  /\ projectVersion h' = projectVersion h /\ snapshotCount h' = snapshotCount h.
Proof.
  unfold createOrUpdateMeta.
  destruct (fileMetaData h !! path) as [meta |]; cbn;
    (split; [by rewrite lookup_insert_eq |]);
    (split; [by intros other Hne; rewrite lookup_insert_ne |]); done.
Qed.

(** Claim C1. Let [p] be the canonical form of the requested path, a mirror
    path without a cached snapshot whose source document is ahead of the
    mirror document. If [compile] throws [e], then [getScriptSnapshot]
    returns a snapshot with the text of the mirror document, the mirror
    document is unchanged, and a following [getMeta] for the source path
    reports [fatal = true] and the errors [[e]]. *)
Theorem transpile_failure_is_contained (h : @Host Exn) (path : str)
    (ext ext' : str) (transpiler : Transpiler) (t : TextDocument)
    (source' : str) (sourceVersion : Z) (e : Exn) :
  let p := getCanonicalFileName path in
  let sourcePath := removeExtension p in
  snapshotMap h !! p = None ->
  getTranspiledExtensionsFromPath p = Some (ext, ext') ->
  transpilers !! ext = Some transpiler ->
  getTranspiledPath transpilers sourcePath = p ->
  mirrorDocument p h = Some t ->
  sourceOf sourcePath h = Some (Some source', sourceVersion) ->
  source' <> [] ->
  version t < sourceVersion ->
  compile transpiler sourcePath source' = Threw e ->
  exists snapshot h',
    getScriptSnapshot transpilers path h = Some (snapshot, h')
    /\ snapText snapshot = text t
    /\ mirrorDocument p h' = Some t
    /\ exists meta h'',
         getMeta transpilers sourcePath h' = Some (Some meta, h'')
         /\ fatal meta = true /\ parseErrors meta = Some [e].
Proof.
  intros p sourcePath Hmiss Hexts Htr Hmirror Hdoc Hsrc Hne Hver Hthrow.
  unfold getScriptSnapshot. fold p. unfold getOrCreatePathSnapshot.
  rewrite Hmiss, Hexts, Htr. fold sourcePath.
  unfold mirrorDocument in Hdoc. unfold sourceOf in Hsrc.
  destruct source' as [| c src]; [done |].
  (* the state and the reference of the mirror document *)
  set (init := match pathMap h !! p with
               | Some ref => (ref, h)
               | None => initTranspiledDoc p h
               end).
  assert (documents init.2 !! init.1 = Some t
          /\ pathMap init.2 !! p = Some init.1
          /\ snapshotMap init.2 = snapshotMap h
          /\ (forall ref d, documents h !! ref = Some d -> documents init.2 !! ref = Some d))
    as (Ht & Hp & Hsnap & Hkeep).
  { subst init. destruct (pathMap h !! p) as [ref |] eqn:Eref; cbn.
    - done.
    - injection Hdoc as <-. split; [by apply list_lookup_middle |].
      split; [by rewrite lookup_insert_eq |]. split; [done |].
      intros ref d Hd. by apply lookup_app_l_Some. }
  destruct init as [ref h1]. cbn [fst snd] in *.
  assert (match pathMap h !! sourcePath with
          | Some ref0 => d ← documents h1 !! ref0; Some (Some (text d), version d)
          | None => Some (sys_readFile sourcePath, 0)
          end = Some (Some (c :: src), sourceVersion)) as ->.
  { destruct (pathMap h !! sourcePath) as [ref0 |]; [| done].
    destruct (documents h !! ref0) as [d |] eqn:Ed; [| done].
    by rewrite (Hkeep _ _ Ed). }
  cbn [mbind option_bind]. rewrite Ht. cbn [mbind option_bind].
  assert ((version t <? sourceVersion) = true) as -> by lia.
  unfold doTranspileAndUpdateMeta. rewrite Hthrow. cbn [mbind option_bind].
  destruct (createOrUpdateMeta_spec sourcePath ref None (Some [e]) true h1)
    as (Hmeta & _ & Hdocs & Hpm & Hsm & _).
  set (h2 := createOrUpdateMeta sourcePath ref None (Some [e]) true h1) in *.
  clearbody h2.
  rewrite Hdocs, Ht. cbn [mbind option_bind newSnap].
  eexists _, _. split; [reflexivity |]. split; [done |]. split.
  - unfold mirrorDocument. cbn. by rewrite Hpm, Hp, Hdocs.
  - unfold getMeta. rewrite Hmirror. unfold getOrCreatePathSnapshot.
    cbn [snapshotMap set_snapshotMap]. rewrite lookup_insert_eq.
    cbn. rewrite Hmeta.
    eexists _, _. split; [reflexivity |]. done.
Qed.

(** Claim C6, as amended. After a transpile attempt that throws [e], the
    metadata of the source path has no [sourcemapLines] (the field is cleared,
    whatever an earlier transpilation left there), [parseErrors] is [[e]]
    and [fatal] is true; its [transpiledDoc], the documents, and the
    metadata of the other paths are as before. *)
Theorem failed_transpile_clears_sourcemap (h : @Host Exn) (ref : docRef) (version' : Z)
    (transpiler : Transpiler) (sourcePath sourceCode : str) (e : Exn) :
  compile transpiler sourcePath sourceCode = Threw e ->
  exists h' meta,
    doTranspileAndUpdateMeta ref version' transpiler sourcePath sourceCode h
    = Some (None, h')
    /\ fileMetaData h' !! sourcePath = Some meta
    /\ sourcemapLines meta = None
    /\ parseErrors meta = Some [e]
    /\ fatal meta = true
    /\ transpiledDoc meta = match fileMetaData h !! sourcePath with
                            | Some old => transpiledDoc old
                            | None => Some ref
                            end
    /\ documents h' = documents h
    /\ pathMap h' = pathMap h
    /\ forall other, other <> sourcePath ->
         fileMetaData h' !! other = fileMetaData h !! other.
Proof.
  intros Hthrow. unfold doTranspileAndUpdateMeta. rewrite Hthrow.
  destruct (createOrUpdateMeta_spec sourcePath ref None (Some [e]) true h)
    as (Hmeta & Hother & Hdocs & Hpm & _).
  eexists _, _. split; [reflexivity |]. split; [exact Hmeta |]. by repeat split.
Qed.

(** Claim C7, as amended. After [addOrUpdateDocument(doc)] for a path that
    no transpiler takes, [pathMap] maps the path to the document that was
    registered for it before the call, or to [doc] when there was none, and
    the path is in [scriptFileNames]; the cached snapshot of the path is
    gone and the project version is one more. *)
Theorem plain_document_registration (h : @Host Exn) (doc : docRef) (d : TextDocument) :
  let path := fileURLToPath (uri d) in
  documents h !! doc = Some d ->
  transpilers !! getExtensionFromPath path = None ->
  exists h',
    addOrUpdateDocument transpilers doc h = Some h'
    /\ pathMap h' !! path = Some (default doc (pathMap h !! path))
    /\ path ∈ scriptFileNames h'
    /\ snapshotMap h' !! path = None
    /\ projectVersion h' = projectVersion h + 1.
Proof.
  intros path Hd Hplain. unfold addOrUpdateDocument.
  rewrite Hd. cbn [mbind option_bind]. fold path. rewrite Hplain.
  eexists. split; [reflexivity |].
  cbn [set_pathMap set_scriptFileNames set_snapshotMap
       pathMap scriptFileNames snapshotMap projectVersion fileMetaData
       documents snapshotCount].
  case_bool_decide as Hin;
    cbn [set_pathMap set_scriptFileNames pathMap];
    destruct (pathMap h !! path) as [old |] eqn:Eold;
    repeat split;
    cbn [set_pathMap set_scriptFileNames set_snapshotMap
         pathMap scriptFileNames snapshotMap projectVersion default];
    rewrite ?Eold, ?lookup_insert_eq, ?lookup_delete_eq; try done; set_solver.
Qed.

End HostProperties.

(** C1 on the host where [a.civet] does not compile. *)
Lemma transpile_failure_is_contained_witness :
  exists snapshot h',
    @getScriptSnapshot unit demoSystem demoTranspilers (lit "/a.civet.tsx") brokenHost
    = Some (snapshot, h')
    /\ snapText snapshot = text placeholder
    /\ @mirrorDocument unit demoSystem (lit "/a.civet.tsx") h' = Some placeholder
    /\ exists meta h'',
         @getMeta unit demoSystem demoTranspilers (lit "/a.civet") h' = Some (Some meta, h'')
         /\ fatal meta = true /\ parseErrors meta = Some [tt].
Proof.
  apply (@transpile_failure_is_contained unit demoSystem demoTranspilers brokenHost
           (lit "/a.civet.tsx") (lit ".civet") (lit ".tsx")
           demoTranspiler placeholder (lit "bad") 1 tt);
    try (by vm_compute).
Defined.

(** C6 on the host where [a.civet] does not compile. *)
Lemma failed_transpile_clears_sourcemap_witness :
  demoCompile (lit "/a.civet") (lit "bad") = Threw tt
  /\ exists h' meta,
       doTranspileAndUpdateMeta 1%nat 1 demoTranspiler
         (lit "/a.civet") (lit "bad") brokenHost = Some (None, h')
       /\ fileMetaData h' !! lit "/a.civet" = Some meta
       /\ sourcemapLines meta = None
       /\ parseErrors meta = Some [tt]
       /\ fatal meta = true
       /\ transpiledDoc meta = match fileMetaData brokenHost !! lit "/a.civet" with
                               | Some old => transpiledDoc old
                               | None => Some 1%nat
                               end
       /\ documents h' = documents brokenHost
       /\ pathMap h' = pathMap brokenHost
       /\ forall other, other <> lit "/a.civet" ->
            fileMetaData h' !! other = fileMetaData brokenHost !! other.
Proof.
  split; [reflexivity |].
  apply (@failed_transpile_clears_sourcemap unit brokenHost 1%nat 1 demoTranspiler
           (lit "/a.civet") (lit "bad") tt).
  reflexivity.
Defined.

(** Claim C6 as stated fails: after a good version and then a broken one,
    the snapshot still has the last good text, and the metadata has lost the
    lines of the last good map. *)
Lemma sourcemapLines_counterexample :
  exists good snapshot failed,
    failureTrace = Some (good, snapshot, failed)
    /\ sourcemapLines <$> fileMetaData good !! lit "/a.civet" = Some (Some [[[0; 0; 0; 0]]])
    /\ snapText snapshot = lit "js"
    /\ sourcemapLines <$> fileMetaData failed !! lit "/a.civet" = Some None
    /\ fatal <$> fileMetaData failed !! lit "/a.civet" = Some true.
Proof. eexists _, _, _. split; [by vm_compute |]. by vm_compute. Qed.

(** C7 on the first registration of [a.ts]. *)
Lemma plain_document_registration_witness :
  documents (@TSHost unit demoSystem [] [tsDoc (lit "old") 1]) !! 0%nat
  = Some (tsDoc (lit "old") 1)
  /\ demoTranspilers !! getExtensionFromPath (lit "/a.ts") = None
  /\ exists h',
       @addOrUpdateDocument unit demoSystem demoTranspilers 0%nat
         (@TSHost unit demoSystem [] [tsDoc (lit "old") 1]) = Some h'
       /\ pathMap h' !! lit "/a.ts" = Some 0%nat
       /\ lit "/a.ts" ∈ scriptFileNames h'
       /\ snapshotMap h' !! lit "/a.ts" = None
       /\ projectVersion h' = 0 + 1.
Proof.
  split; [reflexivity |]. split; [by vm_compute |].
  apply (@plain_document_registration unit demoSystem demoTranspilers
           (@TSHost unit demoSystem [] [tsDoc (lit "old") 1]) 0%nat (tsDoc (lit "old") 1)).
  - reflexivity.
  - by vm_compute.
Defined.

(** Claim C7 as stated fails when a second document object is registered
    for a path: [pathMap] keeps the first. *)
Lemma plain_document_counterexample :
  demoTranspilers !! getExtensionFromPath (lit "/a.ts") = None
  /\ exists h, reopenTrace = Some h
       /\ pathMap h !! lit "/a.ts" = Some 0%nat
       /\ pathMap h !! lit "/a.ts" <> Some 1%nat.
Proof.
  split; [by vm_compute |]. eexists. split; [by vm_compute |].
  split; [by vm_compute |]. by vm_compute.
Qed.

(** * Further properties *)

(** ** The location table *)

Lemma locationTable_from_spec (n : nat) : forall (input : str) (pos : Z),
  (length input <= n)%nat ->
  last (locationTable_from input pos) = Some (pos + Z.of_nat (length input))
  /\ (input <> [] -> Forall (fun e => pos < e) (locationTable_from input pos))
  /\ StronglySorted Z.lt (locationTable_from input pos).
Proof.
  induction n as [| n IH]; intros input pos Hlen.
  { destruct input; [| simpl in Hlen; lia]. cbn. split; [f_equal; lia |].
    split; [done |]. repeat constructor. }
  destruct input as [| c rest].
  { cbn. split; [f_equal; lia |]. split; [done |]. repeat constructor. }
  cbn [length] in Hlen.
  assert (forall (tail : str) (k : Z),
            0 < k -> (length tail <= n)%nat ->
            pos + k + Z.of_nat (length tail) = pos + Z.of_nat (length (c :: rest)) ->
            tail <> [] ->
            let t := (pos + k) :: locationTable_from tail (pos + k) in
            last t = Some (pos + Z.of_nat (length (c :: rest)))
            /\ Forall (fun e => pos < e) t /\ StronglySorted Z.lt t) as Hcons.
  { intros tail k Hk Htail Hsum Hne.
    destruct (IH tail (pos + k) Htail) as (Hlast & Hgt & Hsorted).
    specialize (Hgt Hne). split; [| split].
    - by rewrite last_cons, Hlast, Hsum.
    - constructor; [lia |]. eapply Forall_impl; [exact Hgt |]. cbn. lia.
    - by constructor. }
  assert (forall k : Z, 0 < k ->
            pos + k = pos + Z.of_nat (length (c :: rest)) ->
            last [pos + k] = Some (pos + Z.of_nat (length (c :: rest)))
            /\ Forall (fun e => pos < e) [pos + k] /\ StronglySorted Z.lt [pos + k]) as Hone.
  { intros k Hk Hsum. split; [cbn; by f_equal |].
    split; [constructor; [lia | constructor] | repeat constructor]. }
  assert (forall P Q R : Prop, P /\ Q /\ R -> P /\ (c :: rest <> [] -> Q) /\ R) as Hweak
    by tauto.
  cbn [locationTable_from].
  destruct (c =? CR) eqn:Ecr.
  - destruct rest as [| c' rest'].
    + apply Hweak, Hone; [lia | cbn; lia].
    + destruct (c' =? LF) eqn:Elf.
      * destruct rest' as [| c'' rest''].
        -- apply Hweak, Hone; [lia | cbn; lia].
        -- apply Hweak, Hcons; [lia | cbn in *; lia | cbn [length]; lia | done].
      * apply Hweak, Hcons; [lia | cbn in *; lia | cbn [length]; lia | done].
  - destruct (c =? LF) eqn:Elf.
    + destruct rest as [| c' rest'].
      * apply Hweak, Hone; [lia | cbn; lia].
      * apply Hweak, Hcons; [lia | cbn in *; lia | cbn [length]; lia | done].
    + destruct (IH rest (pos + 1) ltac:(lia)) as (Hlast & Hgt & Hsorted).
      split; [rewrite Hlast; f_equal; cbn [length]; lia |]. split; [| done].
      intros _. destruct rest as [| c' rest'].
      * cbn. constructor; [lia | constructor].
      * eapply Forall_impl; [by apply Hgt |]. cbn. lia.
Qed.

(** Property X1. The location table of an input ends with the length of
    the input and its entries increase strictly; for an input that is not
    empty every entry is positive. *)
Theorem locationTable_sorted (input : str) :
  last (locationTable input) = Some (Z.of_nat (length input))
  /\ StronglySorted Z.lt (locationTable input)
  /\ (input <> [] -> Forall (fun e => 0 < e) (locationTable input)).
Proof.
  unfold locationTable.
  destruct (locationTable_from_spec (length input) input 0 (le_n _)) as (Hl & Hg & Hs).
  split; [by rewrite Hl |]. by split.
Qed.

Lemma lookupLineColumn_from_spec (table : list Z) : forall (pos l prevEnd : Z) (e : Z),
  last table = Some e -> pos < e ->
  exists (n : nat) (e' : Z),
    lookupLineColumn_from table pos l prevEnd
    = (l + Z.of_nat n, pos - (match n with O => prevEnd | S k => default 0 (table !! k) end))
    /\ table !! n = Some e' /\ pos < e'
    /\ forall (j : nat) (x : Z), (j < n)%nat -> table !! j = Some x -> x <= pos.
Proof.
  induction table as [| end_ rest IH]; intros pos l prevEnd e Hlast Hlt; [done |].
  cbn [lookupLineColumn_from]. destruct (end_ <=? pos) eqn:E.
  - assert (last rest = Some e) as Hlast'.
    { destruct rest; [cbn in Hlast; injection Hlast as ->; lia | done]. }
    destruct (IH pos (l + 1) end_ e Hlast' Hlt) as (n & e' & Heq & Hn & He' & Hbefore).
    exists (S n), e'. rewrite Heq. split; [| split; [done | split; [done |]]].
    + f_equal; [lia |]. destruct n; [done |]. done.
    + intros [| j] x Hj Hx; [cbn in Hx; injection Hx as <-; lia |].
      apply (Hbefore j); [lia | done].
  - exists 0%nat, end_. split; [f_equal; lia |]. split; [done |]. split; [lia |].
    intros j x Hj. lia.
Qed.

(** Property X2. For a position inside the input, [lookupLineColumn] on
    the location table returns the index [n] of the only line that holds
    the position (its start is at or before the position, its end after
    it), and the column is the distance from the start of that line. *)
Theorem lookupLineColumn_locates (input : str) (pos : Z) :
  0 <= pos < Z.of_nat (length input) ->
  exists (n : nat) (e : Z),
    lookupLineColumn (locationTable input) pos
    = (Z.of_nat n, pos - lineStart (locationTable input) n)
    /\ locationTable input !! n = Some e
    /\ lineStart (locationTable input) n <= pos < e.
Proof.
  intros Hpos.
  destruct (locationTable_from_spec (length input) input 0 (le_n _)) as (Hlast & _ & _).
  fold (locationTable input) in Hlast. rewrite Z.add_0_l in Hlast.
  destruct (lookupLineColumn_from_spec (locationTable input) pos 0 0 _ Hlast)
    as (n & e & Heq & Hn & He & Hbefore); [lia |].
  exists n, e. unfold lookupLineColumn. rewrite Heq. split; [| split; [done |]].
  - by destruct n.
  - split; [| done]. destruct n as [| k]; [cbn; lia |]. cbn.
    destruct (locationTable input !! k) as [x |] eqn:Ex; cbn.
    + apply (Hbefore k x); [lia | done].
    + apply lookup_lt_Some in Hn. apply lookup_ge_None in Ex. lia.
Qed.

Lemma lookupLineColumn_locates_witness :
  0 <= 5 < Z.of_nat (length scenarioSource)
  /\ exists (n : nat) (e : Z),
       lookupLineColumn (locationTable scenarioSource) 5
       = (Z.of_nat n, 5 - lineStart (locationTable scenarioSource) n)
       /\ locationTable scenarioSource !! n = Some e
       /\ lineStart (locationTable scenarioSource) n <= 5 < e.
Proof.
  split; [cbn; lia |]. apply (lookupLineColumn_locates scenarioSource 5). cbn. lia.
Defined.

(** ** The decoder *)

Lemma alphabet_digit c :
  c ∈ vlqChars ->
  JS.band c 127 = c /\ vlqTable_get (JS.band c 127) <> 255
  /\ (JS.band (vlqTable_get (JS.band c 127)) 32 =? 0) = terminatorChar c.
Proof.
  intros Hin. apply list_elem_of_lookup in Hin as (d & Hd).
  assert (d < 64)%nat as Hlt by (apply lookup_lt_Some in Hd; exact Hd).
  assert (c = base64Code (Z.of_nat d)) as ->.
  { unfold base64Code. rewrite Nat2Z.id.
    change BASE64_CHARS with vlqChars. symmetry. by apply nth_lookup_Some. }
  destruct (digit_facts (Z.of_nat d)) as (_ & -> & -> & _ & _ & _ & ->); [lia |].
  split; [done |]. split; [lia |].
  clear Hd. unfold terminatorChar.
  do 64 (destruct d as [| d]; [by vm_compute |]). lia.
Qed.

Lemma terminatorChar_continuation c :
  c ∈ vlqChars -> terminatorChar c = false -> continuationChar c.
Proof.
  intros Hin Ht. apply list_elem_of_lookup in Hin as (d & Hd).
  exists d. split; [done |].
  destruct (decide (32 <= d)%nat) as [| Hlt]; [done |]. exfalso.
  unfold terminatorChar in Ht. apply bool_decide_eq_false in Ht. apply Ht.
  apply list_elem_of_lookup. exists d. rewrite lookup_take_lt by lia. done.
Qed.

Lemma decodeVLQ_scan_accepts s : forall inGroup shift vlq result,
  Forall (fun c => c ∈ vlqChars) s ->
  match last s with
  | Some c => terminatorChar c = true
  | None => inGroup = false
  end ->
  exists r, decodeVLQ_scan s inGroup shift vlq result = Ok (result ++ r)
            /\ length r = length (filter (fun c => terminatorChar c = true) s).
Proof.
  induction s as [| a s IH]; intros inGroup shift vlq result Hall Hlast.
  - cbn in Hlast. subst inGroup. exists []. by rewrite app_nil_r.
  - apply Forall_cons in Hall as [Ha Hall].
    destruct (alphabet_digit a Ha) as (Hb & Hi & Hc).
    cbn [decodeVLQ_scan]. rewrite Hb in Hi, Hc |- *.
    rewrite Z.eqb_refl. cbn [negb]. apply Z.eqb_neq in Hi. rewrite Hi, Hc.
    rewrite filter_cons.
    destruct (terminatorChar a) eqn:Et.
    + edestruct (IH false 0 0) as (r & -> & Hlen); [exact Hall | |].
      { rewrite last_cons in Hlast. by destruct (last s). }
      eexists (_ :: r). rewrite <- app_assoc. split; [done |].
      rewrite decide_True by done. cbn [length]. by rewrite Hlen.
    + edestruct (IH true) as (r & -> & Hlen); [exact Hall | |].
      { rewrite last_cons in Hlast. destruct (last s); [done | congruence]. }
      exists r. split; [done |]. by rewrite decide_False by done.
Qed.

Lemma wellFormed_or_malformed s :
  malformedSegment s
  \/ (Forall (fun c => c ∈ vlqChars) s
      /\ match last s with Some c => terminatorChar c = true | None => True end).
Proof.
  destruct (decide (Forall (fun c => c ∈ vlqChars) s)) as [Hall | Hnot].
  - destruct (last s) as [c |] eqn:El; [| by right].
    destruct (terminatorChar c) eqn:Et; [by right |]. left.
    apply last_Some in El as (s' & ->).
    apply unterminated, terminatorChar_continuation; [| done].
    rewrite Forall_forall in Hall. apply Hall. set_solver.
  - left. apply not_Forall_Exists in Hnot; [| apply _].
    apply Exists_exists in Hnot as (c & Hin & Hc). cbn in Hc.
    destruct (decide (0 <= c <= 127)).
    + by apply (outsideAlphabet s c).
    + by apply (outsideAscii s c).
Qed.

(** Property X3. [decodeVLQ] throws exactly on the malformed segments (a
    character outside the alphabet, or a continuation digit at the end);
    on any other string it returns one value for each character without
    continuation bit. *)
Theorem decodeVLQ_throws_iff (s : str) :
  (threw (decodeVLQ s) <-> malformedSegment s)
  /\ (forall r, decodeVLQ s = Ok r ->
        length r = length (filter (fun c => terminatorChar c = true) s)).
Proof.
  destruct (wellFormed_or_malformed s) as [Hm | [Hall Hlast]].
  - pose proof (malformedSegment_throws s Hm) as Ht. split; [by split |].
    intros r Hr. destruct Ht as [e He]. congruence.
  - destruct (decodeVLQ_scan_accepts s false 0 0 [] Hall) as (r & Hr & Hlen).
    { by destruct (last s). }
    fold (decodeVLQ s) in Hr. split.
    + split; [| apply malformedSegment_throws].
      intros [e He]. congruence.
    + intros r' Hr'. rewrite Hr in Hr'. injection Hr' as <-. done.
Qed.

(** Property X4. A segment of any number of fields, each strictly between
    -2^30 and 2^30, is read back: the encoder returns for every field within
    seven turns, and [decodeVLQ] of the concatenated strings gives the
    fields. *)
Theorem segment_roundtrip (fuel : nat) (vs : list Z) :
  Forall (fun v => - 2 ^ 30 < v < 2 ^ 30) vs ->
  exists ss : list str,
    mapM (encodeVlq (7 + fuel)) vs = Some ss /\ decodeVLQ (concat ss) = Ok vs.
Proof.
  intros Hvs. exists (map vlqString vs). split.
  - apply mapM_Some. induction Hvs as [| v vs Hv _ IH]; [constructor |].
    constructor; [by apply encodeVlq_vlqString | done].
  - unfold decodeVLQ.
    enough (forall result, decodeVLQ_scan (concat (map vlqString vs)) false 0 0 result
                           = Ok (result ++ vs)) as H by apply (H []).
    induction Hvs as [| v vs Hv _ IH]; intros result.
    + cbn. by rewrite app_nil_r.
    + cbn [map concat]. rewrite decodeVLQ_scan_vlqString by done.
      rewrite IH. by rewrite <- app_assoc.
Qed.

Lemma segment_roundtrip_witness :
  Forall (fun v => - 2 ^ 30 < v < 2 ^ 30) [0; -5; 1000; 7; 3]
  /\ exists ss : list str,
    mapM (encodeVlq (7 + 0)) [0; -5; 1000; 7; 3] = Some ss
    /\ decodeVLQ (concat ss) = Ok [0; -5; 1000; 7; 3].
Proof.
  assert (Forall (fun v => - 2 ^ 30 < v < 2 ^ 30) [0; -5; 1000; 7; 3]) as H
    by (repeat first [apply Forall_nil_2 | apply Forall_cons_2]; lia).
  split; [exact H |]. exact (segment_roundtrip 0 [0; -5; 1000; 7; 3] H).
Defined.

(** ** Composition *)

Lemma remapPosition_unfold (line' character : Z) (ls : SourceMapLines) :
  remapPosition (line', character) ls
  = match (if line' <? 0 then None else ls !! Z.to_nat line') with
    | None | Some [] => None
    | Some textLine =>
        remapPosition_finish character (remapPosition_scan textLine character 0 None 0)
    end.
Proof.
  unfold remapPosition, remapPosition_finish.
  destruct (if line' <? 0 then None else ls !! Z.to_nat line') as [[| m t] |]; [done | | done].
  by destruct (remapPosition_scan (m :: t) character 0 None 0).
Qed.

Lemma composeEntry_field0 (A : SourceMapLines) (e : list Z) :
  field (composeEntry A e) 0 = field e 0.
Proof.
  destruct e as [| a [| b [| c [| d r]]]]; try done.
  cbn [composeEntry]. destruct (remapPosition (c, d) A) as [[ul uc] |]; [| done].
  by destruct r.
Qed.

Lemma composeEntry_mapped (A : SourceMapLines) (e : list Z) :
  knownArity e ->
  if (length e =? 4)%nat
  then match remapPosition (field e 2, field e 3) A with
       | Some (ul, uc) => composeEntry A e = [field e 0; field e 1; ul; uc]
       | None => length (composeEntry A e) = 1%nat
       end
  else length (composeEntry A e) <> 4%nat.
Proof.
  intros Hk.
  destruct e as [| a [| b [| c [| d [| x [| y r]]]]]];
    try (exfalso; destruct Hk as [Hk | [Hk | Hk]]; cbn in Hk; lia);
    cbn [length Nat.eqb field nth composeEntry].
  - done.
  - by destruct (remapPosition (c, d) A) as [[ul uc] |].
  - by destruct (remapPosition (c, d) A) as [[ul uc] |].
Qed.

Lemma compose_scan (A : SourceMapLines) (character : Z) (t : list (list Z)) :
  forall (p : Z) (lm lm' : option (list Z)) (lmp lmp' : Z),
  Forall knownArity t ->
  lm = None \/ lmp <> character ->
  lm' = None \/ lmp' <> character ->
  remapPosition_finish character
    (remapPosition_scan (map (composeEntry A) t) character p lm' lmp')
  = remapPosition_finish character (remapPosition_scan t character p lm lmp)
      ≫= (fun y => remapPosition y A).
Proof.
  assert (forall (lm : option (list Z)) (lmp : Z),
            lm = None \/ lmp <> character ->
            remapPosition_finish character (lm, lmp) = None) as Hnone.
  { intros lm lmp Hinv. unfold remapPosition_finish. cbn [fst snd].
    destruct (character - lmp =? 0) eqn:E; [| done].
    destruct Hinv as [-> | Hne]; [done | lia]. }
  induction t as [| e rest IH]; intros p lm lm' lmp lmp' Hk Hinv Hinv'.
  { cbn [map remapPosition_scan]. by rewrite !Hnone. }
  apply Forall_cons in Hk as [He Hk].
  cbn [map remapPosition_scan]. rewrite composeEntry_field0.
  set (p' := p + field e 0).
  pose proof (composeEntry_mapped A e He) as Hm.
  destruct (length e =? 4)%nat eqn:E4.
  - destruct (remapPosition (field e 2, field e 3) A) as [[ul uc] |] eqn:Er.
    + rewrite Hm. cbn [length Nat.eqb]. destruct (character <=? p') eqn:Ec.
      * unfold remapPosition_finish. cbn [fst snd].
        destruct (character - p' =? 0); [| done].
        cbn [negb mbind option_bind]. by rewrite Er.
      * apply IH; [done | right; lia | right; lia].
    + assert ((length (composeEntry A e) =? 4)%nat = false) as -> by by rewrite Hm.
      destruct (character <=? p') eqn:Ec.
      * rewrite (Hnone lm' lmp' Hinv').
        unfold remapPosition_finish. cbn [fst snd].
        destruct (character - p' =? 0); [| done].
        cbn [negb mbind option_bind]. by rewrite Er.
      * apply IH; [done | right; lia | done].
  - assert ((length (composeEntry A e) =? 4)%nat = false) as ->
      by by apply Nat.eqb_neq.
    destruct (character <=? p') eqn:Ec.
    + by rewrite !Hnone.
    + by apply IH.
Qed.

(** Property X5. On lines whose segments have the arities of the type,
    remapping a position through [composeLines upstream downstream] is
    remapping it through the downstream lines and then the result through
    the upstream lines; there is no result when either step has none. *)
Theorem remapPosition_composeLines (A B : SourceMapLines) (position : Z * Z) :
  typedLines A -> typedLines B ->
  remapPosition position (composeLines A B)
  = remapPosition position B ≫= (fun y => remapPosition y A).
Proof.
  intros _ HB. destruct position as [line' character].
  rewrite !remapPosition_unfold. unfold composeLines.
  destruct (line' <? 0); [done |].
  rewrite list_lookup_fmap.
  destruct (B !! Z.to_nat line') as [t |] eqn:Et; [| done]. cbn [fmap option_fmap option_map].
  destruct t as [| e rest]; [done |].
  change (map (composeEntry A) (e :: rest))
    with (composeEntry A e :: map (composeEntry A) rest).
  change (composeEntry A e :: map (composeEntry A) rest)
    with (map (composeEntry A) (e :: rest)).
  apply compose_scan; [| by left | by left].
  unfold typedLines in HB. rewrite Forall_lookup in HB. by apply (HB _ _ Et).
Qed.

Lemma remapPosition_composeLines_witness :
  typedLines upstreamLines /\ typedLines downstreamLines
  /\ remapPosition (0, 3) (composeLines upstreamLines downstreamLines)
     = remapPosition (0, 3) downstreamLines ≫= (fun y => remapPosition y upstreamLines).
Proof.
  assert (typedLines upstreamLines) as HA.
  { repeat first [apply Forall_nil_2 | apply Forall_cons_2];
      unfold knownArity; cbn [length]; lia. }
  assert (typedLines downstreamLines) as HB.
  { repeat first [apply Forall_nil_2 | apply Forall_cons_2];
      unfold knownArity; cbn [length]; lia. }
  split; [exact HA |]. split; [exact HB |].
  exact (remapPosition_composeLines upstreamLines downstreamLines (0, 3) HA HB).
Defined.

Lemma composeEntry_shape (A : SourceMapLines) (e : list Z) :
  knownArity e ->
  composeEntry A e = [field e 0]
  \/ (length (composeEntry A e) = length e
      /\ field (composeEntry A e) 0 = field e 0
      /\ field (composeEntry A e) 1 = field e 1
      /\ field (composeEntry A e) 4 = field e 4).
Proof.
  intros Hk.
  destruct e as [| a [| b [| c [| d [| x [| y r]]]]]];
    try (exfalso; destruct Hk as [Hk | [Hk | Hk]]; cbn in Hk; lia);
    cbn [composeEntry].
  - by left.
  - destruct (remapPosition (c, d) A) as [[ul uc] |]; [by right | by left].
  - destruct (remapPosition (c, d) A) as [[ul uc] |]; [by right | by left].
Qed.

(** Property X6. [composeLines] keeps every line and every segment in its
    place: a segment becomes the unmapped segment of its column delta, or
    keeps its arity, its column delta, its source index and its name index;
    the generated columns of every line are unchanged. *)
Theorem composeLines_shape (A B : SourceMapLines) :
  typedLines B ->
  Forall2 (Forall2 (fun e' e =>
             e' = [field e 0]
             \/ (length e' = length e /\ field e' 0 = field e 0
                 /\ field e' 1 = field e 1 /\ field e' 4 = field e 4)))
    (composeLines A B) B
  /\ forall p, map (generatedColumns p) (composeLines A B) = map (generatedColumns p) B.
Proof.
  intros HB. unfold composeLines. split.
  - apply Forall2_fmap_l, Forall_Forall2_diag.
    eapply Forall_impl; [exact HB |]. intros t Ht. cbn beta.
    apply Forall2_fmap_l, Forall_Forall2_diag.
    eapply Forall_impl; [exact Ht |]. intros e He. by apply composeEntry_shape.
  - intros p. rewrite map_map. apply map_ext. intros t. clear HB. revert p.
    induction t as [| e rest IH]; intros p; [done |].
    cbn [map generatedColumns]. rewrite composeEntry_field0. by rewrite IH.
Qed.

Lemma composeLines_shape_witness :
  typedLines downstreamLines
  /\ Forall2 (Forall2 (fun e' e =>
             e' = [field e 0]
             \/ (length e' = length e /\ field e' 0 = field e 0
                 /\ field e' 1 = field e 1 /\ field e' 4 = field e 4)))
       (composeLines upstreamLines downstreamLines) downstreamLines.
Proof.
  assert (typedLines downstreamLines) as H.
  { repeat first [apply Forall_nil_2 | apply Forall_cons_2];
      unfold knownArity; cbn [length]; lia. }
  split; [exact H |]. exact (proj1 (composeLines_shape upstreamLines downstreamLines H)).
Defined.

(** ** The builder *)

Lemma take_prefix_trans {A} (a b c : list A) (n m : nat) :
  (n <= m)%nat -> take m c = take m b -> take n b = take n a -> take n c = take n a.
Proof.
  intros Hle Hc Hb. rewrite <- Hb.
  replace n with (n `min` m)%nat by lia. by rewrite <- !take_take, Hc.
Qed.

Lemma pushEntry_builderState (entry : list Z) (sm : SourceMap) :
  builderState sm -> builtEntry entry ->
  exists sm', pushEntry entry sm = Ok sm'
    /\ builderState sm' /\ line sm' = line sm
    /\ take (line sm) (lines sm') = take (line sm) (lines sm).
Proof.
  intros (Hline & Hcol & Hall) He. unfold pushEntry.
  destruct (lines sm !! line sm) as [l |] eqn:El.
  2:{ apply lookup_ge_None in El. lia. }
  eexists. split; [done |]. unfold builderState, with_lines. cbn [lines line colOffset].
  rewrite length_insert. repeat split; try done.
  - apply Forall_insert; [done |]. apply Forall_app. split; [| by constructor].
    rewrite Forall_lookup in Hall. by apply (Hall _ _ El).
  - by rewrite take_insert_ge.
Qed.

Lemma updateSourceMap_step_builderState outLine i inputPos colOffset' srcLine' srcCol' sm :
  builderState sm -> 0 <= i ->
  exists sm' c, updateSourceMap_step outLine i inputPos colOffset' srcLine' srcCol' sm
                = Ok (sm', c)
    /\ builderState sm'
    /\ line sm' = (line sm + if (0 <? i)%Z then 1 else 0)%nat
    /\ take (line sm') (lines sm') = take (line sm') (lines sm).
Proof.
  intros Hst Hi. unfold updateSourceMap_step.
  set (st := if 0 <? i then _ else _).
  assert (exists sm1 c1, st = (sm1, c1) /\ builderState sm1
            /\ line sm1 = (line sm + if (0 <? i)%Z then 1 else 0)%nat
            /\ take (line sm1) (lines sm1) = take (line sm1) (lines sm))
    as (sm1 & c1 & -> & Hst1 & Hline1 & Htake1).
  { subst st. destruct Hst as (Hline & Hcol & Hall). destruct (0 <? i).
    - eexists _, _. split; [done |]. unfold builderState, arraySet.
      cbn [lines line colOffset].
      assert ((S (line sm) <? length (lines sm))%nat = false) as ->
        by (apply Nat.ltb_ge; lia).
      replace (S (line sm) - length (lines sm))%nat with 0%nat by lia.
      cbn [replicate app]. rewrite length_app. cbn [length]. repeat split; try lia.
      + apply Forall_app. split; [done |]. by repeat constructor.
      + rewrite take_app_le by lia. done.
    - eexists _, _. split; [done |]. repeat split; try done; try lia. }
  set (sm2 := {| source := source sm1; lines := lines sm1; line := line sm1;
                 colOffset := Z.of_nat (length outLine); srcLine := srcLine sm1;
                 srcColumn := srcColumn sm1 + Z.of_nat (length outLine);
                 srcTable := srcTable sm1 |}).
  assert (builderState sm2) as Hst2.
  { destruct Hst1 as (? & ? & ?). unfold builderState. cbn. repeat split; [done | lia | done]. }
  assert (forall entry, builtEntry entry ->
            exists sm' c, (sm ← pushEntry entry sm2; Ok (sm, c1)) = Ok (sm', c)
              /\ builderState sm'
              /\ line sm' = (line sm + if (0 <? i)%Z then 1 else 0)%nat
              /\ take (line sm') (lines sm') = take (line sm') (lines sm)) as Hpush.
  { intros entry He.
    destruct (pushEntry_builderState entry sm2 Hst2 He) as (sm' & -> & Hst' & Hline' & Htake').
    exists sm', c1. split; [done |]. split; [done |].
    cbn [line lines sm2] in Hline', Htake'. rewrite Hline'. split; [done |].
    by rewrite Htake'. }
  destruct Hst1 as (_ & Hcol1 & _).
  destruct inputPos as [pos |].
  - apply Hpush. right. by cbn.
  - destruct (colOffset sm1 =? 0) eqn:E0; cbn [negb].
    + exists sm2, c1. split; [done |]. split; [exact Hst2 |]. by split.
    + apply Hpush. left. cbn. split; [done | lia].
Qed.

Lemma updateSourceMap_loop_builderState outLines :
  forall i inputPos colOffset' srcLine' srcCol' sm,
  builderState sm -> 0 <= i -> (0 < i \/ outLines <> []) ->
  exists sm', updateSourceMap_loop outLines i inputPos colOffset' srcLine' srcCol' sm = Ok sm'
    /\ builderState sm'
    /\ line sm' = (line sm + length outLines - if (0 <? i)%Z then 0 else 1)%nat
    /\ take (line sm + if (0 <? i)%Z then 1 else 0) (lines sm')
       = take (line sm + if (0 <? i)%Z then 1 else 0) (lines sm).
Proof.
  induction outLines as [| outLine rest IH];
    intros i inputPos colOffset' srcLine' srcCol' sm Hst Hi Hne.
  - destruct Hne as [Hpos | ?]; [| done].
    exists sm. split; [done |]. split; [done |].
    assert ((0 <? i) = true) as -> by lia. cbn [length]. split; [lia | done].
  - cbn [updateSourceMap_loop].
    destruct (updateSourceMap_step_builderState outLine i inputPos colOffset' srcLine' srcCol'
                sm Hst Hi) as (sm1 & c & -> & Hst1 & Hline1 & Htake1).
    cbn [mbind outcome_bind].
    destruct (IH (i + 1) inputPos colOffset' srcLine' c sm1 Hst1 ltac:(lia) ltac:(left; lia))
      as (sm' & -> & Hst' & Hline' & Htake').
    exists sm'. split; [done |]. split; [done |].
    assert ((0 <? i + 1) = true) as Hi1 by lia. rewrite Hi1 in Hline', Htake'.
    split.
    + rewrite Hline', Hline1. cbn [length]. destruct (0 <? i); lia.
    + rewrite <- Hline1.
      by apply (take_prefix_trans _ (lines sm1) _ _ (line sm1 + 1)); [lia | |].
Qed.

Lemma splitEOL_nonempty (s : str) : splitEOL s <> [].
Proof.
  induction s as [| c s IH]; cbn [splitEOL]; [done |].
  destruct (c =? CR); [by destruct s as [| c' s']; [| destruct (c' =? LF)] |].
  destruct (c =? LF); [done |]. by destruct (splitEOL s).
Qed.

Lemma newSourceMap_builderState (source : str) : builderState (newSourceMap source).
Proof. unfold builderState. cbn. repeat split; [lia |]. by repeat constructor. Qed.

(** Property X7. From a state that the builder reaches (the current line
    is the last one, the pending column offset is not negative, and the
    entries are those the builder writes) [updateSourceMap] does not throw
    and leads to such a state again; it adds one line for each line
    terminator of the output and leaves the lines before the current one as
    they are. The new builder is in such a state
    ([newSourceMap_builderState]). *)
Theorem updateSourceMap_builderState (outputStr : str) (inputPos : option Z)
    (colOffset' : Z) (sm : SourceMap) :
  builderState sm ->
  exists sm', updateSourceMap outputStr inputPos colOffset' sm = Ok sm'
    /\ builderState sm'
    /\ length (lines sm') = (length (lines sm) + length (splitEOL outputStr) - 1)%nat
    /\ take (line sm) (lines sm') = take (line sm) (lines sm).
Proof.
  intros Hst. unfold updateSourceMap.
  assert (forall sm0 : SourceMap,
            builderState sm0 -> lines sm0 = lines sm -> line sm0 = line sm ->
            forall srcLine' srcCol',
            exists sm', updateSourceMap_loop (splitEOL outputStr) 0 inputPos colOffset'
                          srcLine' srcCol' sm0 = Ok sm'
              /\ builderState sm'
              /\ length (lines sm')
                 = (length (lines sm) + length (splitEOL outputStr) - 1)%nat
              /\ take (line sm) (lines sm') = take (line sm) (lines sm)) as Hloop.
  { intros sm0 Hst0 Hlines0 Hline0 srcLine' srcCol'.
    destruct (updateSourceMap_loop_builderState (splitEOL outputStr) 0 inputPos colOffset'
                srcLine' srcCol' sm0 Hst0 ltac:(lia) ltac:(right; apply splitEOL_nonempty))
      as (sm' & -> & Hst' & Hline' & Htake').
    exists sm'. split; [done |]. split; [done |].
    cbn [Z.ltb Z.compare] in Hline', Htake'. rewrite Nat.add_0_r, Hlines0, Hline0 in Htake'.
    split; [| done].
    destruct Hst' as (<- & _). destruct Hst as (<- & _). rewrite Hline', Hline0.
    pose proof (splitEOL_nonempty outputStr). destruct (splitEOL outputStr); [done |].
    cbn [length]. lia. }
  destruct inputPos as [pos |].
  - destruct (lookupLineColumn (srcTable sm) pos) as [sl sc].
    apply Hloop; [| done | done]. destruct Hst as (? & ? & ?). by repeat split.
  - by apply Hloop.
Qed.

Lemma updateSourceMap_builderState_witness :
  builderState (newSourceMap scenarioSource)
  /\ exists sm', updateSourceMap (lit "ab") (Some 0) 0 (newSourceMap scenarioSource) = Ok sm'
       /\ builderState sm'.
Proof.
  split; [apply newSourceMap_builderState |].
  destruct (updateSourceMap_builderState (lit "ab") (Some 0) 0 (newSourceMap scenarioSource)
              (newSourceMap_builderState scenarioSource)) as (sm' & H1 & H2 & _).
  by exists sm'.
Defined.

(** ** Looking up what the builder wrote *)

Lemma lineWidth_nonneg (l : list (list Z)) :
  Forall builtEntry l -> 0 <= lineWidth l.
Proof.
  induction 1 as [| e l He _ IH]; cbn [lineWidth foldr]; [lia |].
  fold (lineWidth l). destruct He as [[_ ?] | [_ [? _]]]; lia.
Qed.

Lemma remapPosition_scan_last (l0 : list (list Z)) (e : list Z) :
  forall p lm lmp,
  Forall builtEntry l0 -> length e = 4%nat ->
  l0 = [] \/ 0 < field e 0 ->
  remapPosition_scan (l0 ++ [e]) (p + lineWidth l0 + field e 0) p lm lmp
  = (Some e, p + lineWidth l0 + field e 0).
Proof.
  induction l0 as [| x l0 IH]; intros p lm lmp Hall He Hpos.
  - cbn [app remapPosition_scan lineWidth foldr]. rewrite He. cbn [Nat.eqb].
    rewrite Z.add_0_r. by rewrite Z.leb_refl.
  - destruct Hpos as [? | Hpos]; [done |].
    apply Forall_cons in Hall as [Hx Hall].
    pose proof (lineWidth_nonneg l0 Hall) as Hw.
    cbn [app remapPosition_scan lineWidth foldr]. fold (lineWidth l0).
    assert ((p + (field x 0 + lineWidth l0) + field e 0 <=? p + field x 0) = false) as ->
      by lia.
    replace (p + (field x 0 + lineWidth l0) + field e 0)
      with (p + field x 0 + lineWidth l0 + field e 0) by lia.
    destruct (length x =? 4)%nat; apply IH; auto.
Qed.

Lemma first_step_mapped outLine pos colOffset' srcLine' srcCol' sm l0 :
  lines sm !! line sm = Some l0 ->
  exists sm1,
    updateSourceMap_step outLine 0 (Some pos) colOffset' srcLine' srcCol' sm
    = Ok (sm1, srcCol')
    /\ line sm1 = line sm
    /\ lines sm1 !! line sm = Some (l0 ++ [[colOffset sm; 0; srcLine'; srcCol']]).
Proof.
  intros Hl0. unfold updateSourceMap_step. cbn [Z.ltb Z.compare]. unfold pushEntry.
  cbn [lines line colOffset]. rewrite Hl0. cbn [mbind outcome_bind].
  eexists. split; [done |]. cbn [with_lines lines line]. split; [done |].
  rewrite Z.add_0_r. apply list_lookup_insert_eq. by apply lookup_lt_Some in Hl0.
Qed.

(** Property X8. After [updateSourceMap] with an input position, the
    generated position at which the chunk starts (the current line, at the
    column that the line has reached plus the pending offset) remaps to the
    line and column of the input position, the column shifted by
    [colOffset], provided the chunk is the first of its line or the pending
    offset is positive. *)
Theorem updateSourceMap_remapPosition (outputStr : str) (pos colOffset' : Z)
    (sm : SourceMap) (l0 : list (list Z)) :
  builderState sm ->
  lines sm !! line sm = Some l0 ->
  l0 = [] \/ 0 < colOffset sm ->
  exists sm',
    updateSourceMap outputStr (Some pos) colOffset' sm = Ok sm'
    /\ remapPosition (Z.of_nat (line sm), lineWidth l0 + colOffset sm) (lines sm')
       = Some ((lookupLineColumn (srcTable sm) pos).1,
               (lookupLineColumn (srcTable sm) pos).2 + colOffset').
Proof.
  intros Hst Hl0 Hpos. unfold updateSourceMap.
  destruct (lookupLineColumn (srcTable sm) pos) as [sl sc]. cbn [fst snd].
  set (sm0 := {| source := source sm; lines := lines sm; line := line sm;
                 colOffset := colOffset sm; srcLine := sl; srcColumn := sc + colOffset';
                 srcTable := srcTable sm |}).
  assert (builderState sm0) as Hst0.
  { destruct Hst as (? & ? & ?). by repeat split. }
  pose proof (splitEOL_nonempty outputStr) as Hne.
  destruct (splitEOL outputStr) as [| outLine rest]; [done |].
  cbn [updateSourceMap_loop].
  destruct (first_step_mapped outLine pos colOffset' sl (sc + colOffset') sm0 l0 Hl0)
    as (sm1 & Hstep & Hline1 & Hl1).
  destruct (updateSourceMap_step_builderState outLine 0 (Some pos) colOffset' sl
              (sc + colOffset') sm0 Hst0 ltac:(lia)) as (sm1' & c & Hstep' & Hst1 & _).
  rewrite Hstep in Hstep'. injection Hstep' as <- <-.
  rewrite Hstep. cbn [mbind outcome_bind]. change (0 + 1) with 1.
  destruct (updateSourceMap_loop_builderState rest 1 (Some pos) colOffset' sl
              (sc + colOffset') sm1 Hst1 ltac:(lia) ltac:(left; lia))
    as (sm' & -> & Hst' & _ & Htake').
  exists sm'. split; [done |].
  cbn [Z.ltb Z.compare] in Htake'. cbn [line sm0] in Hline1, Hl1.
  assert (lines sm' !! line sm = Some (l0 ++ [[colOffset sm; 0; sl; sc + colOffset']]))
    as Hline.
  { rewrite <- (lookup_take_lt (lines sm') (line sm1 + 1)) by lia.
    rewrite Htake', lookup_take_lt by lia. exact Hl1. }
  rewrite remapPosition_unfold.
  assert ((Z.of_nat (line sm) <? 0) = false) as -> by lia.
  rewrite Nat2Z.id, Hline.
  destruct (l0 ++ [[colOffset sm; 0; sl; sc + colOffset']]) as [| e0 l1] eqn:El;
    [by destruct l0 |]. rewrite <- El.
  pose proof (remapPosition_scan_last l0 [colOffset sm; 0; sl; sc + colOffset'] 0 None 0)
    as Hscan.
  cbn [field nth] in Hscan. rewrite Z.add_0_l in Hscan. rewrite Hscan.
  - unfold remapPosition_finish. cbn [fst snd field nth]. by rewrite Z.sub_diag.
  - destruct Hst as (_ & _ & Hall). rewrite Forall_lookup in Hall. by apply (Hall _ _ Hl0).
  - done.
  - done.
Qed.

Lemma updateSourceMap_remapPosition_witness :
  exists sm',
    updateSourceMap (lit "ab") (Some 4) 0 (newSourceMap scenarioSource) = Ok sm'
    /\ remapPosition (0, 0) (lines sm') = Some (1, 0).
Proof.
  apply (updateSourceMap_remapPosition (lit "ab") 4 0 (newSourceMap scenarioSource) []).
  - apply newSourceMap_builderState.
  - reflexivity.
  - by left.
Defined.

(** ** Rendering, then parsing *)

Lemma option_bind_Some {A B} (m : option A) (k : A -> option B) b :
  m ≫= k = Some b -> exists a, m = Some a /\ k a = Some b.
Proof. destruct m as [a |]; [by exists a | discriminate]. Qed.

Lemma renderEntry_parse fuel st e st' :
  renderableEntry st e = Some st' ->
  exists s r, renderEntry (7 + fuel) st e = Some (s, st')
              /\ decodeVLQ s = Ok r /\ resolveEntry st r = Ok (e, st')
              /\ s <> [] /\ free s.
Proof.
  intros He. destruct st as [sl sc].
  destruct e as [| a [| b [| c [| d [| x e]]]]]; try discriminate; cbn [renderableEntry] in He.
  - destruct (vlqRange a) eqn:Ha; [| discriminate]. injection He as <-.
    apply vlqRange_spec in Ha.
    exists (vlqString a), [a]. split.
    { cbn [renderEntry field nth]. by rewrite encodeVlq_vlqString by done. }
    split.
    { unfold decodeVLQ. rewrite <- (app_nil_r (vlqString a)).
      by rewrite decodeVLQ_scan_vlqString by done. }
    split; [done |]. split; [apply vlqString_alphabet | apply vlqString_free].
  - cbn [fst snd] in He.
    destruct (vlqRange a) eqn:Ha; [| discriminate].
    destruct (vlqRange b) eqn:Hb; [| discriminate].
    destruct (vlqRange (c - sl)) eqn:Hc; [| discriminate].
    destruct (vlqRange (d - sc)) eqn:Hd; [| discriminate].
    injection He as <-.
    exists (vlqString a ++ vlqString b ++ vlqString (c - sl) ++ vlqString (d - sc)),
           [a; b; c - sl; d - sc].
    split.
    { cbn [renderEntry field nth fst snd].
      by rewrite !encodeVlq_vlqString by (by apply vlqRange_spec). }
    split; [by apply decodeVLQ_vlqStrings4 |]. split.
    { unfold resolveEntry. cbn [length field nth fst snd].
      replace (sl + (c - sl)) with c by lia. replace (sc + (d - sc)) with d by lia. done. }
    split.
    + pose proof (vlqString_alphabet a) as [Hne _]. by destruct (vlqString a).
    + unfold free. rewrite !Forall_app. repeat split; apply vlqString_free.
Qed.

Lemma renderLine_parse fuel es : forall st st',
  renderableLine st es = Some st' ->
  exists ss, renderLine (7 + fuel) st es = Some (ss, st')
             /\ parseEntries st ss = Ok (es, st')
             /\ length ss = length es
             /\ Forall (fun s => s <> []) ss /\ Forall free ss.
Proof.
  induction es as [| e es IH]; intros st st' Hes.
  - injection Hes as <-. exists []. by repeat split.
  - cbn [renderableLine] in Hes. apply option_bind_Some in Hes as (st1 & He & Hes).
    destruct (renderEntry_parse fuel st e st1 He) as (s & r & Hrender & Hdec & Hres & Hne & Hfree).
    destruct (IH st1 st' Hes) as (ss & Hrender' & Hparse' & Hlen & Hnes & Hfrees).
    exists (s :: ss). split; [| split; [| split; [| split]]].
    + cbn [renderLine]. rewrite Hrender. cbn [mbind option_bind]. by rewrite Hrender'.
    + cbn [parseEntries]. rewrite Hdec. cbn [mbind outcome_bind].
      rewrite Hres. cbn [mbind outcome_bind]. by rewrite Hparse'.
    + cbn. by rewrite Hlen.
    + by constructor.
    + by constructor.
Qed.

Lemma renderLines_parse fuel ess : forall st st',
  renderableLines st ess = Some st' ->
  exists rs, renderLines (7 + fuel) st ess = Some (rs, st')
             /\ parseLines st rs = Ok (ess, st')
             /\ length rs = length ess
             /\ Forall (Forall (fun c => c <> 59)) rs.
Proof.
  induction ess as [| es ess IH]; intros st st' Hess.
  - injection Hess as <-. exists []. by repeat split.
  - cbn [renderableLines] in Hess. apply option_bind_Some in Hess as (st1 & Hes & Hess).
    destruct (renderLine_parse fuel es st st1 Hes) as (ss & Hrender & Hparse & Hlen & Hnes & Hfrees).
    destruct (IH st1 st' Hess) as (rs & Hrender' & Hparse' & Hlen' & Hfrees').
    exists (join [44] ss :: rs). split; [| split; [| split]].
    + cbn [renderLines]. rewrite Hrender. cbn [mbind option_bind]. by rewrite Hrender'.
    + cbn [parseLines].
      assert (parseLine st (join [44] ss) = Ok (es, st1)) as ->.
      { destruct ss as [| s ss].
        - destruct es; [| done]. cbn in Hparse |- *. done.
        - pose proof (join_nonempty 44 (s :: ss) ltac:(done) Hnes) as Hj.
          unfold parseLine. destruct (join [44] (s :: ss)) eqn:E; [done |].
          rewrite <- E, split_join; [done | done |].
          eapply Forall_impl; [exact Hfrees | apply free_comma]. }
      cbn [mbind outcome_bind]. by rewrite Hparse'.
    + cbn. by rewrite Hlen'.
    + constructor; [| done]. apply join_free; [done |].
      eapply Forall_impl; [exact Hfrees | apply free_semicolon].
Qed.

(** Property X9. When the lines of a builder are not empty, their
    segments have one field or four, and the column deltas, the source
    indices and the source deltas all lie strictly between -2^30 and 2^30,
    [renderMappings] returns a string and parsing that string gives the
    lines back. *)
Theorem renderMappings_parse (fuel : nat) (sm : SourceMap) :
  lines sm <> [] -> is_Some (renderableLines (0, 0) (lines sm)) ->
  exists m, renderMappings (7 + fuel) sm = Some m /\ parseMappings m = Ok (lines sm).
Proof.
  intros Hne [st' Hr].
  destruct (renderLines_parse fuel _ _ _ Hr) as (rs & Hrender & Hparse & Hlen & Hfree).
  exists (join [59] rs). split.
  - unfold renderMappings. by rewrite Hrender.
  - unfold parseMappings. rewrite split_join; [by rewrite Hparse | | done].
    destruct rs; [| done]. by destruct (lines sm).
Qed.

Lemma renderMappings_parse_witness :
  lines threeLineMap <> [] /\ is_Some (renderableLines (0, 0) (lines threeLineMap))
  /\ exists m, renderMappings (7 + 0) threeLineMap = Some m
               /\ parseMappings m = Ok (lines threeLineMap).
Proof.
  assert (is_Some (renderableLines (0, 0) (lines threeLineMap))) as H by (by eexists).
  split; [done |]. split; [exact H |].
  exact (renderMappings_parse 0 threeLineMap ltac:(done) H).
Defined.

Lemma resolveEntry_typed st r e st' :
  resolveEntry st r = Ok (e, st') ->
  knownArity e /\ length e = length r /\ field e 0 = field r 0.
Proof.
  unfold resolveEntry, knownArity.
  destruct r as [| a [| b [| c [| d [| x [| y r]]]]]]; cbn; try discriminate;
    intros [= <- <-]; cbn; auto.
Qed.

Lemma parseEntries_typed entries : forall st es st',
  parseEntries st entries = Ok (es, st') ->
  Forall knownArity es /\ length es = length entries.
Proof.
  induction entries as [| entry entries IH]; intros st es st' Hparse.
  - by injection Hparse as <- <-.
  - cbn [parseEntries] in Hparse.
    apply outcome_bind_Ok in Hparse as (r & Hdec & Hparse).
    apply outcome_bind_Ok in Hparse as ([e st1] & Hres & Hparse).
    apply outcome_bind_Ok in Hparse as ([es' st2] & Hrest & Hparse).
    injection Hparse as <- <-.
    apply resolveEntry_typed in Hres as (He & _).
    apply IH in Hrest as (Hes & Hlen). split; [by constructor | cbn; by rewrite Hlen].
Qed.

Lemma parseLines_typed ls : forall st ess st',
  parseLines st ls = Ok (ess, st') ->
  typedLines ess
  /\ Forall2 (fun es l => length es = match l with
                                      | [] => 0%nat
                                      | _ => length (split 44 l)
                                      end) ess ls.
Proof.
  induction ls as [| l ls IH]; intros st ess st' Hparse.
  - injection Hparse as <- <-. split; constructor.
  - cbn [parseLines] in Hparse.
    apply outcome_bind_Ok in Hparse as ([es st1] & Hline & Hparse).
    apply outcome_bind_Ok in Hparse as ([ess' st2] & Hrest & Hparse).
    injection Hparse as <- <-.
    apply IH in Hrest as (Hess & Hlens).
    assert (Forall knownArity es
            /\ length es = match l with [] => 0%nat | _ => length (split 44 l) end)
      as [Hes Hlen].
    { destruct l as [| c l]; [by injection Hline as <- <- |].
      by apply parseEntries_typed in Hline. }
    split; by constructor.
Qed.

(** Property X10. What the parser returns has one line for each piece
    between semicolons, an empty line for an empty piece and otherwise one
    segment for each piece between commas, and every segment has one, four
    or five fields. *)
Theorem parseMappings_typed (m : str) (ls : SourceMapLines) :
  parseMappings m = Ok ls ->
  typedLines ls
  /\ Forall2 (fun es l => length es = match l with
                                      | [] => 0%nat
                                      | _ => length (split 44 l)
                                      end) ls (split 59 m).
Proof.
  unfold parseMappings. intros Hparse.
  apply outcome_bind_Ok in Hparse as ([ls' st'] & Hlines & Hparse).
  injection Hparse as <-. by apply parseLines_typed in Hlines.
Qed.

Lemma parseMappings_typed_witness :
  parseMappings (lit "AAAA,EAAE;;CAAC") = Ok (lines threeLineMap)
  /\ typedLines (lines threeLineMap).
Proof.
  split; [reflexivity |].
  apply (parseMappings_typed (lit "AAAA,EAAE;;CAAC") (lines threeLineMap)). reflexivity.
Defined.

(** ** [remap] on code with an inline map *)






Section RemapInline.
Context `{Platform}.


End RemapInline.


(** ** Change ranges *)

Lemma commonPrefix_take (a b : str) (k : nat) :
  (k <= commonPrefixLength a b)%nat -> take k a = take k b.
Proof.
  intros Hk. pose proof (commonPrefixLength_le a b) as Hle.
  apply list_eq. intros i. destruct (decide (i < k)%nat) as [Hi | Hi].
  - rewrite !lookup_take_lt by done. apply commonPrefixLength_same. lia.
  - by rewrite !lookup_take_ge by lia.
Qed.

Lemma commonSuffix_drop (a b : str) (k : nat) :
  (k <= commonSuffixLength a b)%nat ->
  drop (length a - k) a = drop (length b - k) b.
Proof.
  intros Hk. unfold commonSuffixLength in Hk.
  apply commonPrefix_take in Hk. rewrite !take_reverse in Hk.
  by apply (inj reverse) in Hk.
Qed.

Lemma fullDiffTextChangeRange_applies (oldText newText : str) (r : TextChangeRange) :
  fullDiffTextChangeRange oldText newText = Some r ->
  0 <= start (textSpan r) /\ 0 <= spanLength (textSpan r) /\ 0 <= newLength r
  /\ start (textSpan r) + spanLength (textSpan r) <= Z.of_nat (length oldText)
  /\ Z.of_nat (length newText)
     = Z.of_nat (length oldText) - spanLength (textSpan r) + newLength r
  /\ applyChange r oldText newText = newText.
Proof.
  rewrite fullDiffTextChangeRange_spec.
  destruct (_ <? _)%nat eqn:E; [| done]. apply Nat.ltb_lt in E.
  intros [= <-]. unfold applyChange, changeRangeAt. cbn [start spanLength textSpan newLength].
  set (p := commonPrefixLength oldText newText) in *.
  set (m := Nat.min (length oldText) (length newText)) in *.
  set (s := Nat.min (commonSuffixLength oldText newText) (m - p)).
  assert (s <= commonSuffixLength oldText newText)%nat as Hs by lia.
  assert (s <= m - p)%nat as Hs' by lia.
  repeat (split; [lia |]).
  rewrite Nat2Z.id.
  replace (Z.to_nat (Z.of_nat (length newText) - Z.of_nat p - Z.of_nat s))
    with (length newText - s - p)%nat by lia.
  replace (p + Z.to_nat (Z.of_nat (length oldText) - Z.of_nat s - Z.of_nat p))%nat
    with (length oldText - s)%nat by lia.
  rewrite (commonPrefix_take oldText newText p) by done.
  rewrite (commonSuffix_drop oldText newText s) by done.
  transitivity (take p newText ++ take (length newText - s - p) (drop p newText)
                ++ drop (length newText - s - p) (drop p newText));
    [| by rewrite !take_drop].
  do 2 f_equal. rewrite drop_drop. f_equal. subst s m. lia.
Qed.

(** Property X12. A change range that a new snapshot reports against an
    old one is the range of [fullDiffTextChangeRange] on the two texts; it
    lies inside the old text, its lengths are not negative and account for
    the difference of the lengths of the texts, and replacing its span in
    the old text by the characters of the new text at the same place gives
    the new text. *)
Theorem getChangeRange_sound (id : nat) (newText : str) (oldSnapshot : IScriptSnapshot)
    (r : TextChangeRange) :
  (getChangeRange (Snap id newText) oldSnapshot).1 = Some r ->
  fullDiffTextChangeRange (snapText oldSnapshot) newText = Some r
  /\ 0 <= start (textSpan r) /\ 0 <= spanLength (textSpan r) /\ 0 <= newLength r
  /\ start (textSpan r) + spanLength (textSpan r) <= getLength oldSnapshot
  /\ getLength (Snap id newText)
     = getLength oldSnapshot - spanLength (textSpan r) + newLength r
  /\ applyChange r (snapText oldSnapshot) newText = newText.
Proof.
  unfold getChangeRange, getText, getLength. cbn [Snap changeRanges snapText fst].
  rewrite lookup_empty, slice_all.
  destruct (fullDiffTextChangeRange (snapText oldSnapshot) newText) as [r' |] eqn:Ediff.
  - rewrite lookup_insert_eq. cbn. intros [= ->]. split; [done |].
    by apply fullDiffTextChangeRange_applies.
  - rewrite lookup_insert_eq. done.
Qed.

Lemma getChangeRange_sound_witness :
  exists r, (getChangeRange (Snap 1 (lit "abba")) (Snap 0 (lit "aba"))).1 = Some r
            /\ applyChange r (lit "aba") (lit "abba") = lit "abba".
Proof.
  eexists. split; [reflexivity |].
  apply (getChangeRange_sound 1 (lit "abba") (Snap 0 (lit "aba"))). reflexivity.
Defined.

(** ** Mirror paths *)

Lemma span_app_stop (P : char -> bool) (run rest : str) (c : char) :
  forallb P run = true -> P c = false ->
  span P (run ++ c :: rest) = (run, c :: rest).
Proof.
  intros Hrun Hc. induction run as [| x run IH]; cbn [app span forallb] in *.
  - by rewrite Hc.
  - apply andb_prop in Hrun as [-> Hrun]. by rewrite IH.
Qed.

Lemma forallb_reverse (P : char -> bool) (s : str) :
  forallb P (reverse s) = forallb P s.
Proof.
  induction s as [| c s IH]; [done |].
  rewrite reverse_cons, forallb_app, IH. cbn. by rewrite andb_true_r, andb_comm.
Qed.

Lemma splitLastRun_app (p run : str) :
  forallb isExtChar run = true ->
  splitLastRun (p ++ 46 :: run) = (p ++ [46], run).
Proof.
  intros Hrun. unfold splitLastRun.
  rewrite reverse_app, reverse_cons, <- app_assoc. cbn [app].
  rewrite span_app_stop; [| by rewrite forallb_reverse | done].
  by rewrite reverse_cons, !reverse_involutive.
Qed.

Lemma extensionShaped_inv (e : str) :
  extensionShaped e = true ->
  exists c run, e = 46 :: c :: run /\ forallb isExtChar (c :: run) = true.
Proof.
  destruct e as [| d [| c run]]; try done. cbn [extensionShaped].
  intros He. apply andb_prop in He as [Hd He]. apply Z.eqb_eq in Hd as ->. by eauto.
Qed.

Lemma getExtensionFromPath_app (p e : str) :
  extensionShaped e = true ->
  getExtensionFromPath (p ++ e) = e /\ removeExtension (p ++ e) = p.
Proof.
  intros He. apply extensionShaped_inv in He as (c & run & -> & Hrun).
  unfold getExtensionFromPath, removeExtension.
  rewrite splitLastRun_app by done. rewrite last_snoc.
  split; [done |]. by rewrite removelast_last.
Qed.

Lemma getExtensionFromPath_inv (p : str) :
  getExtensionFromPath p <> [] ->
  exists front run,
    p = front ++ 46 :: run /\ getExtensionFromPath p = 46 :: run
    /\ forallb isExtChar run = true.
Proof.
  unfold getExtensionFromPath, splitLastRun.
  destruct (span isExtChar (reverse p)) as [run front] eqn:Es.
  intros Hne.
  assert (reverse p = run ++ front /\ forallb isExtChar run = true) as [Hp Hrun].
  { clear Hne. revert run front Es. generalize (reverse p). intros s.
    induction s as [| c s IH]; intros run front Es; cbn [span] in Es.
    - by injection Es as <- <-.
    - destruct (isExtChar c) eqn:Ec.
      + destruct (span isExtChar s) as [a b]. injection Es as <- <-.
        destruct (IH a b eq_refl) as [-> Ha]. split; [done |]. cbn. by rewrite Ec.
      + by injection Es as <- <-. }
  destruct (reverse run) as [| r0 rr] eqn:Er; [done |].
  destruct (last (reverse front)) as [d |] eqn:El; [| done].
  destruct (decide (d = 46)) as [-> | Hd].
  2:{ exfalso. apply Hne. destruct d as [| d | d]; try done.
      do 6 (destruct d as [d | d |]; try done). }
  apply last_Some in El as (front' & Hfront).
  exists front', (r0 :: rr). split; [| split].
  - rewrite <- (reverse_involutive p), Hp, reverse_app, Hfront, Er, <- app_assoc. done.
  - done.
  - by rewrite <- Er, forallb_reverse.
Qed.

Lemma getTranspiledExtensionsFromPath_app (p e : str) :
  getExtensionFromPath p <> [] -> extensionShaped e = true ->
  getTranspiledExtensionsFromPath (p ++ e) = Some (getExtensionFromPath p, e).
Proof.
  intros Hp He. apply extensionShaped_inv in He as (c & run & -> & Hrun).
  apply getExtensionFromPath_inv in Hp as (front & run1 & -> & -> & Hrun1).
  unfold getTranspiledExtensionsFromPath.
  rewrite splitLastRun_app by done. rewrite last_snoc, removelast_last.
  rewrite splitLastRun_app by done. by rewrite last_snoc.
Qed.

Section MirrorPaths.
Context {Exn : Type}.
Variable transpilers : gmap (list Z) (@Transpiler Exn).

(** Property X13. For a source path whose extension has a transpiler
    with a target that is an extension, the mirror path is the source path
    followed by the target; its last two extensions are those of the source
    and the target, removing its extension gives the source path, and
    [remapFileName] maps it back to the source path. *)
Theorem mirror_path_roundtrip (path : str) (transpiler : Transpiler) :
  transpilers !! getExtensionFromPath path = Some transpiler ->
  getExtensionFromPath path <> [] ->
  extensionShaped (target transpiler) = true ->
  let mirror := getTranspiledPath transpilers path in
  mirror = path ++ target transpiler
  /\ getTranspiledExtensionsFromPath mirror
     = Some (getExtensionFromPath path, target transpiler)
  /\ removeExtension mirror = path
  /\ getExtensionFromPath mirror = target transpiler
  /\ remapFileName mirror transpilers = path.
Proof.
  intros Htr Hext Htarget mirror.
  assert (mirror = path ++ target transpiler) as ->
    by (subst mirror; unfold getTranspiledPath; by rewrite Htr).
  destruct (getExtensionFromPath_app path _ Htarget) as [He Hr].
  pose proof (getTranspiledExtensionsFromPath_app path _ Hext Htarget) as Hexts.
  repeat split; try done.
  unfold remapFileName. rewrite Hexts.
  destruct (getExtensionFromPath path) as [| c ext] eqn:E; [done |].
  rewrite Htr. by rewrite bool_decide_eq_true_2.
Qed.

End MirrorPaths.

Lemma mirror_path_roundtrip_witness :
  demoTranspilers !! getExtensionFromPath (lit "/a.civet") = Some demoTranspiler
  /\ getExtensionFromPath (lit "/a.civet") <> []
  /\ extensionShaped (target demoTranspiler) = true
  /\ remapFileName (getTranspiledPath demoTranspilers (lit "/a.civet")) demoTranspilers
     = lit "/a.civet".
Proof.
  split; [reflexivity |]. split; [done |]. split; [reflexivity |].
  apply (mirror_path_roundtrip demoTranspilers (lit "/a.civet") demoTranspiler);
    [reflexivity | done | reflexivity].
Defined.

(** ** The flows of the host *)

Section HostFlows.
Context {Exn : Type} `{System}.
Variable transpilers : gmap (list Z) (@Transpiler Exn).

Lemma initTranspiledDoc_spec (path : str) (h : @Host Exn) :
  let r := initTranspiledDoc path h in
  r.1 = length (documents h)
  /\ documents r.2 = documents h ++ [TextDocument_create (pathToFileURL path) (lit "none") (-1) []]
  /\ pathMap r.2 = <[path := r.1]> (pathMap h)
  /\ scriptFileNames r.2 = {[path]} ∪ scriptFileNames h
  /\ snapshotMap r.2 = snapshotMap h /\ fileMetaData r.2 = fileMetaData h
  /\ projectVersion r.2 = projectVersion h /\ snapshotCount r.2 = snapshotCount h.
Proof. by cbn. Qed.

(** The mirror document of a path, once the host has looked it up. *)
Lemma mirror_lookup (p : str) (h : @Host Exn) :
  let init := match pathMap h !! p with
              | Some ref => (ref, h)
              | None => initTranspiledDoc p h
              end in
  documents init.2 !! init.1 = mirrorDocument p h
  /\ pathMap init.2 !! p = Some init.1
  /\ (forall q, q <> p -> pathMap init.2 !! q = pathMap h !! q)
  /\ (forall ref d, documents h !! ref = Some d -> documents init.2 !! ref = Some d)
  /\ (length (documents h) <= length (documents init.2))%nat
  /\ scriptFileNames h ⊆ scriptFileNames init.2
  /\ snapshotMap init.2 = snapshotMap h /\ fileMetaData init.2 = fileMetaData h
  /\ projectVersion init.2 = projectVersion h.
Proof.
  unfold mirrorDocument. destruct (pathMap h !! p) as [ref |] eqn:Eref; cbn.
  - by repeat split.
  - split; [by apply list_lookup_middle |].
    split; [by rewrite lookup_insert_eq |].
    split; [by intros q Hq; rewrite lookup_insert_ne |].
    split; [intros ref d Hd; by apply lookup_app_l_Some |].
    split; [rewrite length_app; lia |]. split; [set_solver | done].
Qed.

Lemma doTranspileAndUpdateMeta_frame (ref : docRef) (version' : Z)
    (transpiler : Transpiler) (sourcePath sourceCode : str) (h : @Host Exn) :
  (ref < length (documents h))%nat ->
  exists r h', doTranspileAndUpdateMeta ref version' transpiler sourcePath sourceCode h
               = Some (r, h')
    /\ pathMap h' = pathMap h /\ length (documents h') = length (documents h)
    /\ snapshotMap h' = snapshotMap h /\ scriptFileNames h' = scriptFileNames h
    /\ projectVersion h' = projectVersion h.
Proof.
  intros Href. unfold doTranspileAndUpdateMeta.
  destruct (compile transpiler sourcePath sourceCode) as [e | [result |]].
  - destruct (createOrUpdateMeta_spec sourcePath ref None (Some [e]) true h)
      as (_ & _ & Hdocs & Hpm & Hsm & Hnames & Hv & _).
    eexists _, _. split; [done |]. by rewrite Hdocs.
  - destruct (createOrUpdateMeta_spec sourcePath ref (resultLines result) (errors result)
                false h) as (_ & _ & Hdocs & Hpm & Hsm & Hnames & Hv & _).
    fold (resultLines result).
    set (h1 := createOrUpdateMeta _ _ _ _ _ _) in *. clearbody h1.
    destruct (documents h1 !! ref) as [d |] eqn:Ed.
    2:{ apply lookup_ge_None in Ed. rewrite Hdocs in Ed. lia. }
    eexists _, _. split; [done |]. cbn. rewrite length_insert, Hdocs. done.
  - eexists _, _. split; [done |]. done.
Qed.


Lemma getOrCreatePathSnapshot_total (path : str) (h : @Host Exn) :
  hostState h ->
  exists snapshot h',
    getOrCreatePathSnapshot transpilers path h = Some (snapshot, h')
    /\ hostState h'
    /\ snapshotMap h' !! path = Some snapshot
    /\ projectVersion h' = projectVersion h
    /\ scriptFileNames h ⊆ scriptFileNames h'
    /\ (forall q, pathMap h !! q = None \/ pathMap h' !! q = pathMap h !! q)
    /\ (forall q, q <> path -> snapshotMap h' !! q = snapshotMap h !! q).
Proof.
  intros Hok. unfold getOrCreatePathSnapshot.
  destruct (snapshotMap h !! path) as [snapshot |] eqn:Esnap.
  { exists snapshot, h. by repeat split; try done; auto. }
  assert (exists snapshot h',
            (source' ← getPathSource path h;
             let '(snapshot, h) := newSnap source' h in
             Some (snapshot, set_snapshotMap <[path := snapshot]> h))
            = Some (snapshot, h')
            /\ hostState h'
            /\ snapshotMap h' !! path = Some snapshot
            /\ projectVersion h' = projectVersion h
            /\ scriptFileNames h ⊆ scriptFileNames h'
            /\ (forall q, pathMap h !! q = None \/ pathMap h' !! q = pathMap h !! q)
            /\ (forall q, q <> path -> snapshotMap h' !! q = snapshotMap h !! q))
    as Hregular.
  { assert (exists source', getPathSource path h = Some source') as [source' ->].
    { unfold getPathSource. destruct (pathMap h !! path) as [ref |] eqn:Eref.
      - apply Hok in Eref. apply lookup_lt_is_Some in Eref as [d ->]. by eexists.
      - destruct (sys_fileExists path); by eexists. }
    cbn [mbind option_bind newSnap]. eexists _, _. split; [done |].
    split; [exact Hok |]. cbn. split; [by rewrite lookup_insert_eq |].
    repeat split; try done; [by right |].
    intros q Hq. by rewrite lookup_insert_ne. }
  destruct (getTranspiledExtensionsFromPath path) as [[ext ext'] |]; [| exact Hregular].
  destruct (transpilers !! ext) as [transpiler |]; [| exact Hregular].
  clear Hregular.
  destruct (mirror_lookup path h)
    as (Ht & Hp & Hother & Hkeep & Hlen & Hnames & Hsnap & Hmeta & Hv).
  set (init := match pathMap h !! path with
               | Some ref => (ref, h)
               | None => initTranspiledDoc path h
               end) in *.
  assert (hostState init.2 /\ (init.1 < length (documents init.2))%nat) as [Hok1 Href].
  { subst init. destruct (pathMap h !! path) as [ref |] eqn:Eref; cbn.
    - split; [done |]. by apply (Hok path).
    - split; [| rewrite length_app; cbn; lia].
      intros q ref. cbn. rewrite length_app. cbn.
      destruct (decide (q = path)) as [-> | Hq].
      + rewrite lookup_insert_eq. intros [= <-]. lia.
      + rewrite lookup_insert_ne by done. intros Hq'. apply Hok in Hq'. lia. }
  assert (forall q, pathMap h !! q = None \/ pathMap init.2 !! q = pathMap h !! q) as Hpm.
  { intros q. destruct (decide (q = path)) as [-> | Hq]; [| right; by apply Hother].
    subst init. destruct (pathMap h !! path) eqn:E; [by right | by left]. }
  destruct init as [ref h1]. cbn [fst snd] in *.
  set (sourcePath := removeExtension path).
  assert (exists source' sourceDocVersion,
            match pathMap h !! sourcePath with
            | Some ref0 => d ← documents h1 !! ref0; Some (Some (text d), version d)
            | None => Some (sys_readFile sourcePath, 0)
            end = Some (source', sourceDocVersion)) as (source' & sourceDocVersion & ->).
  { destruct (pathMap h !! sourcePath) as [ref0 |] eqn:E0; [| by eexists _, _].
    apply Hok in E0. apply lookup_lt_is_Some in E0 as [d Hd].
    rewrite (Hkeep _ _ Hd). by eexists _, _. }
  cbn [mbind option_bind].
  destruct (lookup_lt_is_Some_2 _ _ Href) as [t Hdoc]. rewrite Hdoc.
  cbn [mbind option_bind].
  (* the state after the attempt, with or without a snapshot *)
  assert (exists (snapshot : option IScriptSnapshot) (h2 : @Host Exn),
            match source' with
            | Some (c :: src) =>
                if version t <? sourceDocVersion then
                  '(transpiledCode, h) ←
                    doTranspileAndUpdateMeta ref sourceDocVersion
                      transpiler sourcePath (c :: src) h1;
                  match transpiledCode with
                  | Some transpiledCode' =>
                      let '(snapshot, h) := newSnap transpiledCode' h in
                      Some (Some snapshot, h)
                  | None => Some (None, h)
                  end
                else Some (None, h1)
            | _ => Some (None, h1)
            end = Some (snapshot, h2)
            /\ pathMap h2 = pathMap h1 /\ length (documents h2) = length (documents h1)
            /\ snapshotMap h2 = snapshotMap h1 /\ scriptFileNames h2 = scriptFileNames h1
            /\ projectVersion h2 = projectVersion h1)
    as (snapshot & h2 & -> & Hpm2 & Hlen2 & Hsnap2 & Hnames2 & Hv2).
  { destruct source' as [[| c src] |]; try by eexists _, _.
    destruct (version t <? sourceDocVersion); [| by eexists _, _].
    destruct (doTranspileAndUpdateMeta_frame ref sourceDocVersion transpiler sourcePath
                (c :: src) h1 Href) as (r & h2 & -> & Hpm2 & Hlen2 & Hsnap2 & Hnames2 & Hv2).
    cbn [mbind option_bind]. destruct r as [transpiledCode' |]; by eexists _, _. }
  cbn [mbind option_bind].
  assert (exists snapshot' (h3 : @Host Exn),
            match snapshot with
            | Some snapshot => Some (snapshot, h2)
            | None => t ← documents h2 !! ref; Some (newSnap (text t) h2)
            end = Some (snapshot', h3)
            /\ pathMap h3 = pathMap h1 /\ length (documents h3) = length (documents h1)
            /\ snapshotMap h3 = snapshotMap h1 /\ scriptFileNames h3 = scriptFileNames h1
            /\ projectVersion h3 = projectVersion h1)
    as (snapshot' & h3 & -> & Hpm3 & Hlen3 & Hsnap3 & Hnames3 & Hv3).
  { destruct snapshot as [snapshot |]; [by eexists _, _ |].
    assert (ref < length (documents h2))%nat as Href2 by lia.
    destruct (lookup_lt_is_Some_2 _ _ Href2) as [t2 ->].
    cbn [mbind option_bind newSnap]. by eexists _, _. }
  cbn [mbind option_bind].
  eexists _, _. split; [done |]. cbn [set_snapshotMap pathMap documents snapshotMap
    projectVersion scriptFileNames].
  split; [| split; [by rewrite lookup_insert_eq |]].
  { intros q r. cbn [set_snapshotMap pathMap documents]. rewrite Hpm3, Hlen3. apply Hok1. }
  split; [congruence |]. split; [by rewrite Hnames3 |].
  split; [intros q; by rewrite Hpm3 |].
  intros q Hq. rewrite lookup_insert_ne by done. by rewrite Hsnap3, Hsnap.
Qed.

Lemma addOrUpdateDocument_transpiled (h : @Host Exn) (doc : docRef) (d : TextDocument)
    (transpiler : Transpiler) :
  let path := fileURLToPath (uri d) in
  let mirror := path ++ target transpiler in
  documents h !! doc = Some d ->
  transpilers !! getExtensionFromPath path = Some transpiler ->
  exists h',
    addOrUpdateDocument transpilers doc h = Some h'
    /\ pathMap h' !! path = Some doc
    /\ (mirror <> path -> exists ref, pathMap h' !! mirror = Some ref
                                     /\ documents h' !! ref = mirrorDocument mirror h)
    /\ (forall q, q <> path -> q <> mirror -> pathMap h' !! q = pathMap h !! q)
    /\ (forall ref d', documents h !! ref = Some d' -> documents h' !! ref = Some d')
    /\ (length (documents h) <= length (documents h'))%nat
    /\ scriptFileNames h'
       = match pathMap h !! mirror with
         | Some _ => scriptFileNames h
         | None => {[mirror]} ∪ scriptFileNames h
         end
    /\ snapshotMap h' = delete mirror (delete path (snapshotMap h))
    /\ fileMetaData h' = fileMetaData h
    /\ projectVersion h' = projectVersion h + 1.
Proof.
  intros path mirror Hd Htr. unfold addOrUpdateDocument.
  rewrite Hd. cbn [mbind option_bind]. fold path. rewrite Htr. fold mirror.
  eexists. split; [reflexivity |].
  cbn [set_pathMap set_scriptFileNames set_snapshotMap
       pathMap scriptFileNames snapshotMap projectVersion fileMetaData
       documents snapshotCount].
  destruct (pathMap h !! mirror) as [ref |] eqn:Em.
  - cbn [set_pathMap set_scriptFileNames set_snapshotMap
         pathMap scriptFileNames snapshotMap projectVersion fileMetaData
         documents snapshotCount].
    split; [by rewrite lookup_insert_eq |]. split.
    { intros Hne. exists ref. rewrite lookup_insert_ne by done.
      split; [done |]. unfold mirrorDocument. by rewrite Em. }
    split; [intros q Hq Hq'; by rewrite lookup_insert_ne |].
    by repeat split.
  - cbn [initTranspiledDoc snd set_pathMap set_scriptFileNames set_snapshotMap set_documents
         pathMap scriptFileNames snapshotMap projectVersion fileMetaData
         documents snapshotCount].
    split; [by rewrite lookup_insert_eq |]. split.
    { intros Hne. exists (length (documents h)).
      rewrite lookup_insert_ne by done. rewrite lookup_insert_eq.
      split; [done |]. unfold mirrorDocument. rewrite Em. by apply list_lookup_middle. }
    split; [intros q Hq Hq'; by rewrite !lookup_insert_ne |].
    split; [intros ref d' Hd'; by apply lookup_app_l_Some |].
    split; [rewrite length_app; lia |]. done.
Qed.

(** Property X14. [addOrUpdateDocument] for a document whose extension
    has a transpiler maps the source path to the document, whatever was
    registered before, makes sure that the mirror path has a document, adds
    to [scriptFileNames] the mirror path when it had none (and nothing
    else), drops the cached snapshots of both paths, leaves the metadata
    alone and raises the project version by one; every registered path
    still leads to a document. *)
Theorem transpiled_document_registration (h : @Host Exn) (doc : docRef) (d : TextDocument)
    (transpiler : Transpiler) :
  let path := fileURLToPath (uri d) in
  let mirror := path ++ target transpiler in
  hostState h ->
  documents h !! doc = Some d ->
  transpilers !! getExtensionFromPath path = Some transpiler ->
  exists h',
    addOrUpdateDocument transpilers doc h = Some h'
    /\ hostState h'
    /\ pathMap h' !! path = Some doc
    /\ is_Some (pathMap h' !! mirror)
    /\ scriptFileNames h'
       = match pathMap h !! mirror with
         | Some _ => scriptFileNames h
         | None => {[mirror]} ∪ scriptFileNames h
         end
    /\ snapshotMap h' !! path = None /\ snapshotMap h' !! mirror = None
    /\ fileMetaData h' = fileMetaData h
    /\ getProjectVersion h' = getProjectVersion h + 1.
Proof.
  intros path mirror Hok Hd Htr.
  destruct (addOrUpdateDocument_transpiled h doc d transpiler Hd Htr)
    as (h' & Hadd & Hpath & Hmirror & Hother & Hkeep & Hlen & Hnames & Hsnap & Hmeta & Hv).
  fold path mirror in Hpath, Hmirror, Hother, Hnames, Hsnap.
  exists h'. split; [done |].
  assert (is_Some (pathMap h' !! mirror)) as Hsome.
  { destruct (decide (mirror = path)) as [-> | Hne]; [by eexists |].
    destruct (Hmirror Hne) as (ref & -> & _). by eexists. }
  split.
  { intros q ref Hq. destruct (decide (q = path)) as [-> | Hq1].
    - rewrite Hpath in Hq. injection Hq as <-. apply lookup_lt_Some in Hd. lia.
    - destruct (decide (q = mirror)) as [-> | Hq2].
      + destruct (Hmirror ltac:(congruence)) as (ref' & Href' & Hdoc').
        rewrite Href' in Hq. injection Hq as <-.
        unfold mirrorDocument in Hdoc'.
        destruct (pathMap h !! mirror) as [r0 |] eqn:E0.
        * apply Hok in E0. apply lookup_lt_is_Some in E0 as [x Hx].
          rewrite Hx in Hdoc'. by apply lookup_lt_Some in Hdoc'.
        * by apply lookup_lt_Some in Hdoc'.
      + rewrite Hother in Hq by done. apply Hok in Hq. lia. }
  split; [done |]. split; [done |]. split; [done |].
  rewrite Hsnap. split.
  - destruct (decide (path = mirror)) as [<- | Hne]; [by rewrite lookup_delete_eq |].
    by rewrite lookup_delete_ne, lookup_delete_eq.
  - split; [by rewrite lookup_delete_eq | by split].
Qed.

(** The mirror branch of [getOrCreatePathSnapshot], up to the test of the
    versions: what is left to run on the state [h1] with the mirror
    document [ref]. *)
Lemma mirror_branch (h : @Host Exn) (p ext ext' : str) (transpiler : Transpiler)
    (t : TextDocument) (source' : option str) (sourceVersion : Z) :
  let sourcePath := removeExtension p in
  snapshotMap h !! p = None ->
  getTranspiledExtensionsFromPath p = Some (ext, ext') ->
  transpilers !! ext = Some transpiler ->
  mirrorDocument p h = Some t ->
  sourceOf sourcePath h = Some (source', sourceVersion) ->
  exists ref h1,
    documents h1 !! ref = Some t
    /\ pathMap h1 !! p = Some ref
    /\ fileMetaData h1 = fileMetaData h
    /\ getOrCreatePathSnapshot transpilers p h
       = '(snapshot, h) ←
           match source' with
           | Some (c :: src) =>
               if version t <? sourceVersion then
                 '(transpiledCode, h) ←
                   doTranspileAndUpdateMeta ref sourceVersion
                     transpiler sourcePath (c :: src) h1;
                 match transpiledCode with
                 | Some transpiledCode' =>
                     let '(snapshot, h) := newSnap transpiledCode' h in
                     Some (Some snapshot, h)
                 | None => Some (None, h)
                 end
               else Some (None, h1)
           | _ => Some (None, h1)
           end;
         '(snapshot, h) ←
           match snapshot with
           | Some snapshot => Some (snapshot, h)
           | None => t ← documents h !! ref; Some (newSnap (text t) h)
           end;
         Some (snapshot, set_snapshotMap <[p := snapshot]> h).
Proof.
  intros sourcePath Hmiss Hexts Htr Hdoc Hsrc.
  unfold getOrCreatePathSnapshot. rewrite Hmiss, Hexts, Htr. fold sourcePath.
  destruct (mirror_lookup p h) as (Ht & Hp & _ & Hkeep & _ & _ & _ & Hmeta & _).
  set (init := match pathMap h !! p with
               | Some ref => (ref, h)
               | None => initTranspiledDoc p h
               end) in *.
  destruct init as [ref h1]. cbn [fst snd] in *.
  exists ref, h1. rewrite Ht. split; [done |]. split; [done |]. split; [done |].
  unfold sourceOf in Hsrc.
  assert (match pathMap h !! sourcePath with
          | Some ref0 => d ← documents h1 !! ref0; Some (Some (text d), version d)
          | None => Some (sys_readFile sourcePath, 0)
          end = Some (source', sourceVersion)) as ->.
  { destruct (pathMap h !! sourcePath) as [ref0 |]; [| done].
    destruct (documents h !! ref0) as [d |] eqn:Ed; [| done].
    by rewrite (Hkeep _ _ Ed). }
  cbn [mbind option_bind]. rewrite Hdoc. done.
Qed.

Lemma getOrCreatePathSnapshot_success (h : @Host Exn) (p ext ext' : str)
    (transpiler : Transpiler) (t : TextDocument) (source' : str) (sourceVersion : Z)
    (result : CompileResult) :
  let sourcePath := removeExtension p in
  snapshotMap h !! p = None ->
  getTranspiledExtensionsFromPath p = Some (ext, ext') ->
  transpilers !! ext = Some transpiler ->
  mirrorDocument p h = Some t ->
  sourceOf sourcePath h = Some (Some source', sourceVersion) ->
  source' <> [] ->
  version t < sourceVersion ->
  compile transpiler sourcePath source' = Returned (Some result) ->
  exists snapshot h',
    getOrCreatePathSnapshot transpilers p h = Some (snapshot, h')
    /\ snapText snapshot = code result
    /\ snapshotMap h' !! p = Some snapshot
    /\ (exists ref, pathMap h' !! p = Some ref
           /\ documents h' !! ref
              = Some (TextDocument_update t (code result) sourceVersion))
    /\ (exists meta,
          fileMetaData h' !! sourcePath = Some meta
          /\ sourcemapLines meta = resultLines result
          /\ parseErrors meta = errors result
          /\ fatal meta = false)
    /\ forall other, other <> sourcePath ->
         fileMetaData h' !! other = fileMetaData h !! other.
Proof.
  intros sourcePath Hmiss Hexts Htr Hdoc Hsrc Hne Hver Hcompile.
  destruct (mirror_branch h p ext ext' transpiler t _ _ Hmiss Hexts Htr Hdoc Hsrc)
    as (ref & h1 & Ht & Hp & Hmeta1 & ->).
  fold sourcePath. destruct source' as [| c src]; [done |].
  assert ((version t <? sourceVersion) = true) as -> by lia.
  unfold doTranspileAndUpdateMeta. rewrite Hcompile. fold (resultLines result).
  destruct (createOrUpdateMeta_spec sourcePath ref (resultLines result) (errors result)
              false h1) as (Hmeta & Hother & Hdocs & Hpm & _).
  set (h2 := createOrUpdateMeta _ _ _ _ _ _) in *. clearbody h2.
  rewrite Hdocs, Ht. cbn [mbind option_bind newSnap].
  eexists _, _. split; [reflexivity |]. split; [done |].
  cbn [set_snapshotMap set_documents snapshotMap fileMetaData pathMap documents].
  split; [by rewrite lookup_insert_eq |]. split.
  { exists ref. rewrite Hpm, Hp, Hdocs. split; [done |].
    apply list_lookup_insert_eq. by apply lookup_lt_Some in Ht. }
  split; [rewrite Hmeta; by eexists |].
  intros other Hother'. by rewrite Hother, Hmeta1.
Qed.

Lemma getOrCreatePathSnapshot_as_is (h : @Host Exn) (p ext ext' : str)
    (transpiler : Transpiler) (t : TextDocument) (source' : option str)
    (sourceVersion : Z) :
  let sourcePath := removeExtension p in
  snapshotMap h !! p = None ->
  getTranspiledExtensionsFromPath p = Some (ext, ext') ->
  transpilers !! ext = Some transpiler ->
  mirrorDocument p h = Some t ->
  sourceOf sourcePath h = Some (source', sourceVersion) ->
  (source' = None \/ source' = Some [] \/ sourceVersion <= version t
   \/ exists src, source' = Some src /\ compile transpiler sourcePath src = Returned None) ->
  exists snapshot h',
    getOrCreatePathSnapshot transpilers p h = Some (snapshot, h')
    /\ snapText snapshot = text t
    /\ snapshotMap h' !! p = Some snapshot
    /\ mirrorDocument p h' = Some t
    /\ fileMetaData h' = fileMetaData h.
Proof.
  intros sourcePath Hmiss Hexts Htr Hdoc Hsrc Hcase.
  destruct (mirror_branch h p ext ext' transpiler t _ _ Hmiss Hexts Htr Hdoc Hsrc)
    as (ref & h1 & Ht & Hp & Hmeta1 & ->).
  fold sourcePath.
  assert (match source' with
          | Some (c :: src) =>
              if version t <? sourceVersion then
                '(transpiledCode, h) ←
                  doTranspileAndUpdateMeta ref sourceVersion
                    transpiler sourcePath (c :: src) h1;
                match transpiledCode with
                | Some transpiledCode' =>
                    let '(snapshot, h) := newSnap transpiledCode' h in
                    Some (Some snapshot, h)
                | None => Some (None, h)
                end
              else Some (None, h1)
          | _ => Some (None, h1)
          end = Some (None, h1)) as ->.
  { destruct source' as [[| c src] |]; try done.
    destruct (version t <? sourceVersion) eqn:Ev; [| done].
    destruct Hcase as [? | [? | [? | (src' & [= <-] & Hcompile)]]]; try done; [lia |].
    unfold doTranspileAndUpdateMeta. by rewrite Hcompile. }
  cbn [mbind option_bind]. rewrite Ht. cbn [mbind option_bind newSnap].
  eexists _, _. split; [reflexivity |]. split; [done |].
  cbn [set_snapshotMap snapshotMap fileMetaData pathMap documents].
  split; [by rewrite lookup_insert_eq |]. split; [| done].
  unfold mirrorDocument. cbn. by rewrite Hp.
Qed.

(** Property X16. Let [p] be the canonical form of the requested path, a
    mirror path without a cached snapshot whose source is ahead of the
    mirror document. If [compile] returns a result, then
    [getScriptSnapshot] returns a snapshot with the code of the result, the
    mirror document holds that code at the version of the source, which is
    the version that [getScriptVersion] reports, and [getMeta] for the
    source path reports [fatal = false] with the errors and the lines of
    the result. *)
Theorem transpile_success (h : @Host Exn) (path : str)
    (ext ext' : str) (transpiler : Transpiler) (t : TextDocument)
    (source' : str) (sourceVersion : Z) (result : CompileResult) :
  let p := getCanonicalFileName path in
  let sourcePath := removeExtension p in
  snapshotMap h !! p = None ->
  getTranspiledExtensionsFromPath p = Some (ext, ext') ->
  transpilers !! ext = Some transpiler ->
  getTranspiledPath transpilers sourcePath = p ->
  mirrorDocument p h = Some t ->
  sourceOf sourcePath h = Some (Some source', sourceVersion) ->
  source' <> [] ->
  version t < sourceVersion ->
  compile transpiler sourcePath source' = Returned (Some result) ->
  exists snapshot h',
    getScriptSnapshot transpilers path h = Some (snapshot, h')
    /\ snapText snapshot = code result
    /\ mirrorDocument p h' = Some (TextDocument_update t (code result) sourceVersion)
    /\ getScriptVersion path h' = Some sourceVersion
    /\ exists meta h'',
         getMeta transpilers sourcePath h' = Some (Some meta, h'')
         /\ fatal meta = false
         /\ parseErrors meta = errors result
         /\ sourcemapLines meta = resultLines result.
Proof.
  intros p sourcePath Hmiss Hexts Htr Hmirror Hdoc Hsrc Hne Hver Hcompile.
  destruct (getOrCreatePathSnapshot_success h p ext ext' transpiler t source' sourceVersion
              result Hmiss Hexts Htr Hdoc Hsrc Hne Hver Hcompile)
    as (snapshot & h' & Hget & Htext & Hcache & (ref & Hp & Href) & (meta & Hmeta & Hl & He & Hf)
        & _).
  exists snapshot, h'. unfold getScriptSnapshot. fold p. split; [done |]. split; [done |].
  split; [unfold mirrorDocument; by rewrite Hp |].
  split; [unfold getScriptVersion; fold p; by rewrite Hp, Href |].
  exists meta, h'. fold sourcePath in Hmeta. unfold getMeta. rewrite Hmirror.
  unfold getOrCreatePathSnapshot. rewrite Hcache. cbn [mbind option_bind].
  by rewrite Hmeta.
Qed.

(** Property X17. For a mirror path without a cached snapshot,
    [getScriptSnapshot] returns the text of the mirror document, and leaves
    that document and all metadata as they are, when there is no source
    text, the source text is empty, the source is not ahead of the mirror
    document (a source from the file system counts as version 0), or
    [compile] returns nothing. *)
Theorem mirror_served_as_is (h : @Host Exn) (path : str)
    (ext ext' : str) (transpiler : Transpiler) (t : TextDocument)
    (source' : option str) (sourceVersion : Z) :
  let p := getCanonicalFileName path in
  let sourcePath := removeExtension p in
  snapshotMap h !! p = None ->
  getTranspiledExtensionsFromPath p = Some (ext, ext') ->
  transpilers !! ext = Some transpiler ->
  mirrorDocument p h = Some t ->
  sourceOf sourcePath h = Some (source', sourceVersion) ->
  (source' = None \/ source' = Some [] \/ sourceVersion <= version t
   \/ exists src, source' = Some src /\ compile transpiler sourcePath src = Returned None) ->
  exists snapshot h',
    getScriptSnapshot transpilers path h = Some (snapshot, h')
    /\ snapText snapshot = text t
    /\ mirrorDocument p h' = Some t
    /\ fileMetaData h' = fileMetaData h.
Proof.
  intros p sourcePath Hmiss Hexts Htr Hdoc Hsrc Hcase.
  destruct (getOrCreatePathSnapshot_as_is h p ext ext' transpiler t source' sourceVersion
              Hmiss Hexts Htr Hdoc Hsrc Hcase)
    as (snapshot & h' & Hget & Htext & _ & Hmirror & Hmeta).
  by exists snapshot, h'.
Qed.

(** Property X18. From the editor to the snapshot: after
    [addOrUpdateDocument] for a document with text, whose extension has a
    transpiler with a target that is an extension and whose version is
    ahead of the mirror document, [getScriptSnapshot] for the mirror path
    returns the code that [compile] returns for the text, at the version of
    the document, and [getMeta] for the source path reports the errors and
    the lines of the result with [fatal = false]. *)
Theorem edit_then_snapshot (h : @Host Exn) (doc : docRef) (d t : TextDocument)
    (transpiler : Transpiler) (result : CompileResult) (request : str) :
  let path := fileURLToPath (uri d) in
  let mirror := path ++ target transpiler in
  documents h !! doc = Some d ->
  transpilers !! getExtensionFromPath path = Some transpiler ->
  getExtensionFromPath path <> [] ->
  extensionShaped (target transpiler) = true ->
  mirrorDocument mirror h = Some t ->
  version t < version d ->
  text d <> [] ->
  compile transpiler path (text d) = Returned (Some result) ->
  getCanonicalFileName request = mirror ->
  exists h1 snapshot h2,
    addOrUpdateDocument transpilers doc h = Some h1
    /\ getScriptSnapshot transpilers request h1 = Some (snapshot, h2)
    /\ snapText snapshot = code result
    /\ getScriptVersion request h2 = Some (version d)
    /\ exists meta h3,
         getMeta transpilers path h2 = Some (Some meta, h3)
         /\ fatal meta = false
         /\ parseErrors meta = errors result
         /\ sourcemapLines meta = resultLines result.
Proof.
  intros path mirror Hd Htr Hext Htarget Hmirror Hver Htext Hcompile Hrequest.
  destruct (addOrUpdateDocument_transpiled h doc d transpiler Hd Htr)
    as (h1 & Hadd & Hpath & Hm & _ & Hkeep & _ & _ & Hsnap & _).
  fold path mirror in Hpath, Hm, Hsnap.
  destruct (getExtensionFromPath_app path _ Htarget) as [_ Hremove].
  pose proof (getTranspiledExtensionsFromPath_app path _ Hext Htarget) as Hexts.
  fold mirror in Hremove, Hexts.
  assert (mirror <> path) as Hne.
  { intros Heq. apply (f_equal length) in Heq. subst mirror. rewrite length_app in Heq.
    destruct (target transpiler); [done | cbn in Heq; lia]. }
  destruct (Hm Hne) as (ref & Href & Hdoc). rewrite Hmirror in Hdoc.
  destruct (getOrCreatePathSnapshot_success h1 mirror (getExtensionFromPath path)
              (target transpiler) transpiler t (text d) (version d) result) as (snapshot & h2 & Hget & Hcode & Hcache & (ref' & Hp & Href')
                          & (meta & Hmeta & Hl & He & Hf) & _).
  - rewrite Hsnap. by rewrite lookup_delete_eq.
  - exact Hexts.
  - exact Htr.
  - unfold mirrorDocument. by rewrite Href.
  - rewrite Hremove. unfold sourceOf. rewrite Hpath. by rewrite (Hkeep _ _ Hd).
  - exact Htext.
  - exact Hver.
  - by rewrite Hremove.
  - rewrite Hremove in Hmeta.
    exists h1, snapshot, h2. split; [done |].
    unfold getScriptSnapshot, getScriptVersion. rewrite Hrequest.
    split; [done |]. split; [done |]. split; [by rewrite Hp, Href' |].
    exists meta, h2. unfold getMeta, getTranspiledPath. rewrite Htr. fold mirror.
    unfold getOrCreatePathSnapshot. rewrite Hcache. cbn [mbind option_bind].
    by rewrite Hmeta.
Qed.

(** Property X15. In a host where every registered path leads to a
    document, [getScriptSnapshot] returns a snapshot for every path,
    whatever [compile] does; the host stays such a host, a second request
    returns the same snapshot and state, the project version is unchanged
    and no script file name is lost. *)
Theorem getScriptSnapshot_total (path : str) (h : @Host Exn) :
  hostState h ->
  exists snapshot h',
    getScriptSnapshot transpilers path h = Some (snapshot, h')
    /\ hostState h'
    /\ getScriptSnapshot transpilers path h' = Some (snapshot, h')
    /\ getProjectVersion h' = getProjectVersion h
    /\ scriptFileNames h ⊆ scriptFileNames h'.
Proof.
  intros Hok. unfold getScriptSnapshot.
  destruct (getOrCreatePathSnapshot_total (getCanonicalFileName path) h Hok)
    as (snapshot & h' & Hget & Hok' & Hcache & Hv & Hnames & _).
  exists snapshot, h'. split; [done |]. split; [done |].
  split; [| by split].
  unfold getOrCreatePathSnapshot. by rewrite Hcache.
Qed.

End HostFlows.

Lemma TSHost_hostState {Exn : Type} `{System} (names : list (list Z))
    (docs : list TextDocument) : hostState (@TSHost Exn _ names docs).
Proof. intros path ref Hp. cbn in Hp. by rewrite lookup_empty in Hp. Qed.

Lemma transpiled_document_registration_witness :
  hostState openedHost
  /\ exists h',
       @addOrUpdateDocument unit demoSystem demoTranspilers 0%nat openedHost = Some h'
       /\ hostState h'
       /\ pathMap h' !! lit "/a.civet" = Some 0%nat
       /\ is_Some (pathMap h' !! lit "/a.civet.tsx").
Proof.
  split; [apply TSHost_hostState |].
  destruct (@transpiled_document_registration unit demoSystem demoTranspilers openedHost
              0%nat (civetDoc (lit "ok") 1) demoTranspiler)
    as (h' & Hadd & Hok & Hpath & Hmirror & _);
    [apply TSHost_hostState | reflexivity | reflexivity |].
  exists h'. by repeat split.
Defined.

Lemma getScriptSnapshot_total_witness :
  hostState openedHost
  /\ exists snapshot h',
       @getScriptSnapshot unit demoSystem demoTranspilers (lit "/a.civet.tsx") openedHost
       = Some (snapshot, h')
       /\ hostState h'.
Proof.
  split; [apply TSHost_hostState |].
  destruct (@getScriptSnapshot_total unit demoSystem demoTranspilers (lit "/a.civet.tsx")
              openedHost) as (snapshot & h' & Hget & Hok & _);
    [apply TSHost_hostState |].
  by exists snapshot, h'.
Defined.

Lemma transpile_success_witness :
  exists snapshot h',
    @getScriptSnapshot unit demoSystem demoTranspilers (lit "/a.civet.tsx") goodHost
    = Some (snapshot, h')
    /\ snapText snapshot = lit "js"
    /\ @mirrorDocument unit demoSystem (lit "/a.civet.tsx") h'
       = Some (TextDocument_update placeholder (lit "js") 1)
    /\ @getScriptVersion unit demoSystem (lit "/a.civet.tsx") h' = Some 1
    /\ exists meta h'',
         @getMeta unit demoSystem demoTranspilers (lit "/a.civet") h' = Some (Some meta, h'')
         /\ fatal meta = false
         /\ parseErrors meta = Some []
         /\ sourcemapLines meta = Some [[[0; 0; 0; 0]]].
Proof.
  apply (@transpile_success unit demoSystem demoTranspilers goodHost
           (lit "/a.civet.tsx") (lit ".civet") (lit ".tsx")
           demoTranspiler placeholder (lit "ok") 1 goodResult);
    try (by vm_compute).
Defined.

Lemma mirror_served_as_is_witness :
  exists snapshot h',
    @getScriptSnapshot unit demoSystem demoTranspilers (lit "/a.civet.tsx")
      (@TSHost unit demoSystem [] [])
    = Some (snapshot, h')
    /\ snapText snapshot = text placeholder
    /\ @mirrorDocument unit demoSystem (lit "/a.civet.tsx") h' = Some placeholder
    /\ fileMetaData h' = fileMetaData (@TSHost unit demoSystem [] []).
Proof.
  apply (@mirror_served_as_is unit demoSystem demoTranspilers (@TSHost unit demoSystem [] [])
           (lit "/a.civet.tsx") (lit ".civet") (lit ".tsx") demoTranspiler placeholder
           None 0);
    try (by vm_compute). by left.
Defined.

Lemma edit_then_snapshot_witness :
  exists h1 snapshot h2,
    @addOrUpdateDocument unit demoSystem demoTranspilers 0%nat openedHost = Some h1
    /\ @getScriptSnapshot unit demoSystem demoTranspilers (lit "/a.civet.tsx") h1
       = Some (snapshot, h2)
    /\ snapText snapshot = lit "js"
    /\ @getScriptVersion unit demoSystem (lit "/a.civet.tsx") h2 = Some 1
    /\ exists meta h3,
         @getMeta unit demoSystem demoTranspilers (lit "/a.civet") h2 = Some (Some meta, h3)
         /\ fatal meta = false
         /\ parseErrors meta = Some []
         /\ sourcemapLines meta = Some [[[0; 0; 0; 0]]].
Proof.
  apply (@edit_then_snapshot unit demoSystem demoTranspilers openedHost 0%nat
           (civetDoc (lit "ok") 1) placeholder demoTranspiler goodResult
           (lit "/a.civet.tsx"));
    try (by vm_compute).
Defined.
